(** * anova.jsx: the statistics engine, the record extractor and the cards

    A shallow embedding of [src/anova.jsx]: [calculateMean],
    [calculateVariance], [calculateStats], [getQuartiles] (the statistics
    engine), [parseCSV] with its helpers [parseVal] and [addData] (the
    record extractor), and the two components that display a metric,
    [MetricCard] and [CustomBoxShape], by what they compute.  The state of
    [App], its file reader and [getTDistributionCDF], which calls a
    function the file does not define, are not modelled.

    - JavaScript numbers are IEEE-754 binary64 values: Rocq's primitive
      [float], whose [+ - * /], [sqrt] and [abs] are the same correctly
      rounded operations.  [Math.floor], [parseFloat] and the special cases
      of [Math.pow] are defined after ECMAScript; the case of [Math.pow]
      that ECMAScript leaves to the engine is a parameter, [approx].
    - The arithmetic of the engine is written once, over the interface
      [Number] of the operators the source uses, and read in two instances:
      [js_number], the JavaScript numbers, on which the functions run, and
      [exact_number], exact arithmetic on the reals, in which the
      specification states its formulas and its inequalities.
    - Objects: the result of [calculateStats] has one of two shapes and is a
      finite map from field names to numbers; so is the object [parsed] that
      [parseCSV] builds, from metric names to records.
    - Arrays: [getQuartiles] copies its argument and sorts the copy in
      place, so it takes a reference into a store of arrays and returns the
      store it leaves.
    - Exceptions: [MetricCard] reads [toFixed] off values that may be
      [undefined]; it returns a completion, a value or the exception
      thrown. *)

From Stdlib Require Import ZArith QArith Qreals Reals Lra Lia List Sorted Ascii String Floats.
From Stdlib Require Import DecimalString.
From stdpp Require Import base option list gmap strings sorting.

(** ** The operators of the source *)

Declare Scope num_scope.
Delimit Scope num_scope with num.

(** [number q] is a numeric literal, [of_length n] the [length] of an array
    read as a number; [index_of x] is the array index a number designates
    in [arr[x]], if it designates one; [num_pos x] is the test [x > 0]. *)
Class Number (num : Type) := {
  number : Q → num;
  of_length : nat → num;
  num_add : num → num → num;
  num_sub : num → num → num;
  num_mul : num → num → num;
  num_div : num → num → num;
  Math_abs : num → num;
  Math_sqrt : num → num;
  Math_floor : num → num;
  Math_pow : num → num → num;
  num_pos : num → bool;
  index_of : num → option nat
  }.

Infix "+" := num_add : num_scope.
Infix "-" := num_sub : num_scope.
Infix "*" := num_mul : num_scope.
Infix "/" := num_div : num_scope.

(** ** JavaScript numbers: binary64 *)

Module Binary64.

(** The nearest binary64 value to the rational [n / d], ties to even.  The
    quotient is computed with at least 63 significant bits and a sticky
    bit, then rounded once by [binary_normalize]. *)
Definition round_ratio (neg : bool) (n d : positive) : spec_float :=
  let k := Z.max 0 (63 + Z.log2 (Zpos d) - Z.log2 (Zpos n)) in
  let '(q, r) := Z.div_eucl (Z.shiftl (Zpos n) k) (Zpos d) in
  let m := (2 * q + (if r =? 0 then 0 else 1))%Z in
  binary_normalize prec emax (if neg then (- m)%Z else m) (- k - 1) neg.

Definition of_Q (q : Q) : float :=
  match Qnum q with
  | Z0 => 0%float
  | Zpos n => SF2Prim (round_ratio false n (Qden q))
  | Zneg n => SF2Prim (round_ratio true n (Qden q))
  end.

Definition of_nat (n : nat) : float :=
  SF2Prim (binary_normalize prec emax (Z.of_nat n) 0 false).

(** The integer part [m * 2^e] rounded towards minus infinity, for [e < 0]. *)
Definition floor_finite (s : bool) (m : positive) (e : Z) : spec_float :=
  let q := Z.shiftr (Zpos m) (- e) in
  let exact := (Z.shiftl q (- e) =? Zpos m)%Z in
  let n := if s then (if exact then - q else - q - 1)%Z else q in
  binary_normalize prec emax n 0 s.

Definition floor (x : float) : float :=
  match Prim2SF x with
  | S754_finite s m e => if (0 <=? e)%Z then x else SF2Prim (floor_finite s m e)
  | _ => x
  end.

(** The integer a finite float denotes, when it denotes one. *)
Definition to_Z (x : float) : option Z :=
  match Prim2SF x with
  | S754_zero _ => Some 0%Z
  | S754_finite s m e =>
    if (0 <=? e)%Z then Some (cond_Zopp s (Z.shiftl (Zpos m) e))
    else
      let q := Z.shiftr (Zpos m) (- e) in
      if (Z.shiftl q (- e) =? Zpos m)%Z then Some (cond_Zopp s q) else None
  | _ => None
  end.

Definition is_integral (x : float) : bool := bool_decide (is_Some (to_Z x)).

Definition is_odd_integral (x : float) : bool :=
  match to_Z x with Some z => Z.odd z | None => false end.

(** An array index: a non-negative integral number. *)
Definition to_index (x : float) : option nat :=
  match to_Z x with
  | Some z => if (0 <=? z)%Z then Some (Z.to_nat z) else None
  | None => None
  end.

(** The classes of binary64 values. *)
Inductive value_class := NaN_value | infinite_value | zero_value | nonzero_value.

Definition class_of (x : float) : value_class :=
  match Prim2SF x with
  | S754_nan => NaN_value
  | S754_infinity _ => infinite_value
  | S754_zero _ => zero_value
  | S754_finite _ _ _ => nonzero_value
  end.

(** [Math.pow] as ECMAScript's Number::exponentiate fixes it: the special
    cases are exact, and the remaining case, a finite non-zero base raised
    to a finite non-zero exponent, is left to the engine
    ("an implementation-approximated value"): [approx]. *)
Definition pow (approx : float → float → float) (base exponent : float) : float :=
  if is_nan exponent then nan
  else if is_zero exponent then 1%float
  else if is_nan base then nan
  else if (base =? infinity)%float then
    if (0 <? exponent)%float then infinity else 0%float
  else if (base =? neg_infinity)%float then
    if (0 <? exponent)%float
    then (if is_odd_integral exponent then neg_infinity else infinity)
    else (if is_odd_integral exponent then (-0)%float else 0%float)
  else if is_zero base then
    if get_sign base then
      if (0 <? exponent)%float
      then (if is_odd_integral exponent then (-0)%float else 0%float)
      else (if is_odd_integral exponent then neg_infinity else infinity)
    else
      if (0 <? exponent)%float then 0%float else infinity
  else if (exponent =? infinity)%float then
    if (1 <? abs base)%float then infinity
    else if (abs base =? 1)%float then nan else 0%float
  else if (exponent =? neg_infinity)%float then
    if (1 <? abs base)%float then 0%float
    else if (abs base =? 1)%float then nan else infinity
  else if (base <? 0)%float && negb (is_integral exponent) then nan
  else approx base exponent.

(** A sample engine for the case left open: repeated multiplication for an
    integral exponent, [exp (e * ln |b|)] by series otherwise.  It is the
    algorithm of no engine in particular and serves to run the model on
    examples; the theorems hold for every [approx]. *)
Definition of_Z (z : Z) : float := SF2Prim (binary_normalize prec emax z 0 false).

Definition ln2 : float := 0x1.62e42fefa39efp-1%float.

Definition ln (x : float) : float :=
  let '(m, e) := Z.frexp x in
  let '(m, e) :=
    if (m <? 0x1.6a09e667f3bcdp-1)%float then ((m * 2)%float, (e - 1)%Z) else (m, e) in
  let s := ((m - 1) / (m + 1))%float in
  (of_Z e * ln2
   + 2 * s * foldr (λ c acc, 1 / c + s * s * acc) 0
               [1; 3; 5; 7; 9; 11; 13; 15; 17; 19; 21; 23])%float.

Definition exp (y : float) : float :=
  if (710 <? y)%float then infinity
  else if (y <? -746)%float then 0%float
  else
    let k := floor (y / ln2 + 0.5)%float in
    let r := (y - k * ln2)%float in
    let s := foldr (λ c acc, 1 + r / c * acc)%float 1%float
               [1; 2; 3; 4; 5; 6; 7; 8; 9; 10; 11; 12; 13; 14; 15; 16; 17; 18]%float in
    match to_Z k with
    | Some z => Z.ldexp s z
    | None => nan
    end.

Definition pow_reference (base exponent : float) : float :=
  match to_Z exponent with
  | Some (Zpos n) => Pos.iter_op PrimFloat.mul n base
  | Some (Zneg n) => (1 / Pos.iter_op PrimFloat.mul n base)%float
  | _ => exp (exponent * ln (abs base))%float
  end.

End Binary64.

#[global] Instance js_number (approx : float → float → float) : Number float := {|
  number := Binary64.of_Q;
  of_length := Binary64.of_nat;
  num_add := PrimFloat.add;
  num_sub := PrimFloat.sub;
  num_mul := PrimFloat.mul;
  num_div := PrimFloat.div;
  Math_abs := PrimFloat.abs;
  Math_sqrt := PrimFloat.sqrt;
  Math_floor := Binary64.floor;
  Math_pow := Binary64.pow approx;
  num_pos := λ x, (0 <? x)%float;
  index_of := Binary64.to_index
|}.

(** ** Exact arithmetic: the reals

    The reading of the operators without rounding and without overflow.  An
    operation that has no real result (a division by zero, the square root
    of a negative number, where JavaScript answers an infinity or [NaN])
    has none here: [NotReal], which every later operation propagates. *)

Module Exact.

#[global] Instance Rlt_decision (x y : R) : Decision (x < y)%R := Rlt_dec x y.
#[global] Instance Req_decision : EqDecision R := Req_dec_T.

Inductive real := Real (r : R) | NotReal.

Definition lift1 (f : R → R) (x : real) : real :=
  match x with Real a => Real (f a) | NotReal => NotReal end.

Definition lift2 (f : R → R → R) (x y : real) : real :=
  match x, y with Real a, Real b => Real (f a b) | _, _ => NotReal end.

Definition div (x y : real) : real :=
  match x, y with
  | Real a, Real b => if decide (b = 0%R) then NotReal else Real (a / b)
  | _, _ => NotReal
  end.

Definition sqrt (x : real) : real :=
  match x with
  | Real a => if decide (a < 0)%R then NotReal else Real (R_sqrt.sqrt a)
  | NotReal => NotReal
  end.

Definition integral (y : R) : option Z :=
  if decide (IZR (Int_part y) = y) then Some (Int_part y) else None.

(** The real power [x^y]: [1] for a zero exponent, [exp (y * ln x)] on a
    positive base, the integer power of a negative base, and the powers of
    zero with a positive exponent. *)
Definition pow (x y : real) : real :=
  match y with
  | Real b =>
    if decide (b = 0%R) then Real 1
    else match x with
         | Real a =>
             if decide (0 < a)%R then Real (Rpower a b)
             else if decide (a = 0%R)
                  then (if decide (0 < b)%R then Real 0 else NotReal)
                  else match integral b with
                       | Some n => Real (powerRZ a n)
                       | None => NotReal
                       end
         | NotReal => NotReal
         end
  | NotReal => NotReal
  end.

Definition is_positive (x : real) : bool :=
  match x with Real a => bool_decide (0 < a)%R | NotReal => false end.

Definition to_index (x : real) : option nat :=
  match x with
  | Real a =>
    match integral a with
    | Some z => if (0 <=? z)%Z then Some (Z.to_nat z) else None
    | None => None
    end
  | NotReal => None
  end.

End Exact.

#[global] Instance exact_number : Number Exact.real := {|
  number := λ q, Exact.Real (Q2R q);
  of_length := λ n, Exact.Real (INR n);
  num_add := Exact.lift2 Rplus;
  num_sub := Exact.lift2 Rminus;
  num_mul := Exact.lift2 Rmult;
  num_div := Exact.div;
  Math_abs := Exact.lift1 Rabs;
  Math_sqrt := Exact.sqrt;
  Math_floor := Exact.lift1 (λ a, IZR (Int_part a));
  Math_pow := Exact.pow;
  num_pos := Exact.is_positive;
  index_of := Exact.to_index
|}.

(** ** Arrays and the store

    An array is a reference into a store of arrays.  [Array.prototype.sort]
    sorts in place and needs the store; the functions that only read their
    arguments ([reduce], [length]) take the contents. *)

Definition loc := positive.
Abbreviation heap num := (gmap loc (list num)).

Section Arrays.
Context {num : Type} {N : Number num}.

(** [arr[x]] for a number [x]: [None] is [undefined]. *)
Definition read (arr : list num) (x : num) : option num :=
  index_of x ≫= λ i, arr !! i.

(** A stable sort by a comparator [cmp]: [a] is moved after [b] when
    [cmp a b > 0].  (ECMAScript fixes the result of [sort] for a
    consistent comparator, and requires stability.) *)
Fixpoint insert_by (cmp : num → num → num) (a : num) (l : list num) : list num :=
  match l with
  | [] => [a]
  | b :: l' => if num_pos (cmp a b) then b :: insert_by cmp a l' else a :: l
  end.

Definition sort_by (cmp : num → num → num) (l : list num) : list num :=
  foldr (insert_by cmp) [] l.

(** [[...data]]: a fresh array with the contents of [data]. *)
Definition spread (data : loc) (h : heap num) : loc * heap num :=
  let l := fresh (dom h) in
  (l, <[l := default [] (h !! data)]> h).

(** [a.sort(cmp)]: sorts the array [a] in place and returns [a]. *)
Definition Array_sort (cmp : num → num → num) (a : loc) (h : heap num)
  : loc * heap num :=
  (a, alter (sort_by cmp) a h).
End Arrays.

(** ** Statistical utilities *)

Module Summary.
(** The object [getQuartiles] returns; a field is [None] when the source
    would store [undefined] in it. *)
Record t (num : Type) := make {
  min : option num;
  q1 : option num;
  median : option num;
  q3 : option num;
  max : option num
}.
Arguments make {num}.
Arguments min {num}.
Arguments q1 {num}.
Arguments median {num}.
Arguments q3 {num}.
Arguments max {num}.
End Summary.

Section Engine.
Context {num : Type} {N : Number num}.
Local Open Scope num_scope.

Definition calculateMean (arr : list num) : num :=
  fold_left (λ a b, a + b) arr (number 0) / of_length (length arr).

Definition calculateVariance (arr : list num) (mean : num) : num :=
  fold_left (λ a b, a + Math_pow (b - mean) (number 2)) arr (number 0)
    / (of_length (length arr) - number 1).

(** The constants [se], [t], [df] and [p] of [calculateStats], as
    functions of the variances [v1], [v2], the means [m1], [m2] and the
    lengths [n1], [n2] (numbers). *)
Definition welch_se (v1 v2 n1 n2 : num) : num :=
  Math_sqrt ((v1 / n1) + (v2 / n2)).

Definition welch_t (m1 m2 se : num) : num :=
  Math_abs ((m1 - m2) / se).

Definition welch_df (v1 v2 n1 n2 : num) : num :=
  Math_pow ((v1 / n1) + (v2 / n2)) (number 2) /
    ((Math_pow (v1 / n1) (number 2) / (n1 - number 1))
     + (Math_pow (v2 / n2) (number 2) / (n2 - number 1))).

Definition welch_p (t df : num) : num :=
  number 1 / Math_pow (number 1 + (t * t) / df) ((df + number 1) / number 2).

(** The result is a JavaScript object, of one of two shapes: a map from
    field names to numbers. *)
Definition calculateStats (group1 group2 : list num) : gmap string num :=
  let n1 := length group1 in
  let n2 := length group2 in
  if (n1 <? 2)%nat || (n2 <? 2)%nat then {[ "p" := number 1; "t" := number 0 ]}
  else
    let m1 := calculateMean group1 in
    let m2 := calculateMean group2 in
    let v1 := calculateVariance group1 m1 in
    let v2 := calculateVariance group2 m2 in
    let se := welch_se v1 v2 (of_length n1) (of_length n2) in
    let t := welch_t m1 m2 se in
    let df := welch_df v1 v2 (of_length n1) (of_length n2) in
    let p := welch_p t df in
    {[ "t" := t; "p" := p; "m1" := m1; "m2" := m2 ]}.

(** The value of the local constant [df] in [calculateStats group1 group2]
    (past the guard on the lengths). *)
Definition stats_df (group1 group2 : list num) : num :=
  let v1 := calculateVariance group1 (calculateMean group1) in
  let v2 := calculateVariance group2 (calculateMean group2) in
  welch_df v1 v2 (of_length (length group1)) (of_length (length group2)).

Definition zeros : Summary.t num :=
  Summary.make (Some (number 0)) (Some (number 0)) (Some (number 0))
               (Some (number 0)) (Some (number 0)).

(** The closure [getValue] of [getQuartiles], over the sorted contents.
    [undefined + x] is [NaN] in the source; that branch needs
    [sorted[base + 1]] defined and [sorted[base]] undefined, and is
    rendered [None]. *)
Definition getValue (sorted : list num) (pos : num) : option num :=
  let base := Math_floor pos in
  let rest := pos - base in
  match read sorted (base + number 1) with
  | Some next =>
      b ← read sorted base; Some (b + rest * (next - b))
  | None => read sorted base
  end.

(** The object [getQuartiles] returns, as a function of the contents of
    [sorted]. *)
Definition summary_of (sorted : list num) : Summary.t num :=
  let last := (of_length (length sorted) - number 1) in
  Summary.make (sorted !! 0%nat)
    (getValue sorted (last * number 0.25))
    (getValue sorted (last * number 0.5))
    (getValue sorted (last * number 0.75))
    (sorted !! (length sorted - 1)%nat).

(** [data] is [None] for [null] or [undefined]. *)
Definition getQuartiles (data : option loc) (h : heap num)
  : Summary.t num * heap num :=
  match data with
  | None => (zeros, h)
  | Some d =>
    if decide (length (default [] (h !! d)) = 0%nat) then (zeros, h)
    else
      let '(copy, h) := spread d h in
      let '(sorted, h) := Array_sort (λ a b, a - b) copy h in
      let arr := default [] (h !! sorted) in
      let q1Pos := (of_length (length arr) - number 1) * number 0.25 in
      let q3Pos := (of_length (length arr) - number 1) * number 0.75 in
      let medianPos := (of_length (length arr) - number 1) * number 0.5 in
      (Summary.make
         (arr !! 0%nat)
         (getValue arr q1Pos)
         (getValue arr medianPos)
         (getValue arr q3Pos)
         (arr !! (length arr - 1)%nat),
       h)
  end.
End Engine.

(** ** Strings and [parseFloat]

    Text is a [string] of code units below 256.  [parseFloat] follows
    ECMAScript: it skips leading white space, takes the longest prefix that
    is a StrDecimalLiteral and returns the binary64 value nearest to it, or
    [NaN] when there is no such prefix. *)

Module Text.
Local Open Scope string_scope.

(** [s.split(sep)] for a separator of one character. *)
Fixpoint split (sep : ascii) (s : string) : list string :=
  match s with
  | EmptyString => [EmptyString]
  | String c s' =>
      if Ascii.eqb c sep then EmptyString :: split sep s'
      else match split sep s' with
           | field :: fields => String c field :: fields
           | [] => [String c EmptyString]
           end
  end.

(** [c] occurs in [s]. *)
Fixpoint occurs (c : ascii) (s : string) : bool :=
  match s with
  | EmptyString => false
  | String c' s' => Ascii.eqb c' c || occurs c s'
  end.

Definition is_white_space (c : ascii) : bool :=
  bool_decide (nat_of_ascii c ∈ [9; 10; 11; 12; 13; 32; 160]%nat).

Fixpoint trim_start (s : string) : string :=
  match s with
  | String c s' => if is_white_space c then trim_start s' else s
  | EmptyString => s
  end.

Definition digit (c : ascii) : option Z :=
  let n := nat_of_ascii c in
  if ((48 <=? n) && (n <=? 57))%nat then Some (Z.of_nat n - 48)%Z else None.

(** The longest prefix of decimal digits: its value after the digits
    already read ([acc]), their number, and the rest of the text. *)
Fixpoint digits (s : string) (acc : Z) (count : nat) : Z * nat * string :=
  match s with
  | String c s' =>
      match digit c with
      | Some d => digits s' (10 * acc + d)%Z (S count)
      | None => (acc, count, s)
      end
  | EmptyString => (acc, count, s)
  end.

(** An ExponentPart at the head of [s], if there is one: its value. *)
Definition exponent_part (s : string) : option Z :=
  match s with
  | String c s' =>
      if Ascii.eqb c "e" || Ascii.eqb c "E" then
        let '(neg, s'') :=
          match s' with
          | String "+" r => (false, r)
          | String "-" r => (true, r)
          | _ => (false, s')
          end in
        let '(e, count, _) := digits s'' 0 0 in
        if (count =? 0)%nat then None else Some (if neg then - e else e)%Z
      else None
  | EmptyString => None
  end.

(** The value [m * 10^e], [m >= 0], with the sign [neg]. *)
Definition decimal (neg : bool) (m e : Z) : float :=
  match m with
  | Zpos n =>
      SF2Prim (if (0 <=? e)%Z
               then Binary64.round_ratio neg (n * Z.to_pos (10 ^ e)) 1
               else Binary64.round_ratio neg n (Z.to_pos (10 ^ (- e))))
  | _ => if neg then (-0)%float else 0%float
  end.

(** StrUnsignedDecimalLiteral: [Infinity], [digits . digits? exp?],
    [. digits exp?] or [digits exp?]. *)
Definition unsigned_literal (neg : bool) (s : string) : float :=
  if String.prefix "Infinity" s then (if neg then neg_infinity else infinity)
  else
    let '(int, ni, r) := digits s 0 0 in
    let '(m, nf, r) :=
      match r with
      | String "." r' => let '(m, nf, r'') := digits r' int 0 in (m, nf, r'')
      | _ => (int, 0%nat, r)
      end in
    if ((ni =? 0) && (nf =? 0))%nat then nan
    else decimal neg m (default 0%Z (exponent_part r) - Z.of_nat nf).

Definition parseFloat (s : string) : float :=
  match trim_start s with
  | String "+" r => unsigned_literal false r
  | String "-" r => unsigned_literal true r
  | r => unsigned_literal false r
  end.
End Text.

(** ** The record extractor *)

(** [parseFloat(val)] first converts [val] to a string; a missing array
    element is [undefined] ([None]). *)
Definition ToString (val : option string) : string := default "undefined" val.

Definition parseFloat (val : option string) : float := Text.parseFloat (ToString val).

Definition isNaN (x : float) : bool := is_nan x.

(** [None] is [null]. *)
Definition parseVal (val : option string) : option float :=
  let num := parseFloat val in
  if isNaN num then None else Some num.

Record Metric := { group1 : list float; group2 : list float; unit : string }.

Definition push_group1 (v : float) (m : Metric) : Metric :=
  {| group1 := group1 m ++ [v]; group2 := group2 m; unit := unit m |}.

Definition push_group2 (v : float) (m : Metric) : Metric :=
  {| group1 := group1 m; group2 := group2 m ++ [v]; unit := unit m |}.

Definition addData (row : list string) (metric : string) (idx1 idx2 : nat)
    (parsed : gmap string Metric) : gmap string Metric :=
  let v1 := parseVal (row !! idx1) in
  let v2 := parseVal (row !! idx2) in
  let parsed := match v1 with Some v => alter (push_group1 v) metric parsed | None => parsed end in
  let parsed := match v2 with Some v => alter (push_group2 v) metric parsed | None => parsed end in
  parsed.

(** The body of the loop of [parseCSV], for the line [lines[i]]. *)
Definition parseCSV_line (line : string) (parsed : gmap string Metric) : gmap string Metric :=
  let row := Text.split "," line in
  if (length row <? 10)%nat then parsed
  else
    let parsed := addData row "Ball Size" 1 2 parsed in
    let parsed := addData row "Ball Thickness" 3 4 parsed in
    let parsed := addData row "Loop Height" 5 6 parsed in
    let parsed := addData row "Edge Height" 7 8 parsed in
    let parsed := addData row "BPT" 10 11 parsed in
    parsed.

Definition parsed_init : gmap string Metric :=
  {[ "Ball Size" := {| group1 := []; group2 := []; unit := "um" |};
     "Ball Thickness" := {| group1 := []; group2 := []; unit := "um" |};
     "Loop Height" := {| group1 := []; group2 := []; unit := "um" |};
     "Edge Height" := {| group1 := []; group2 := []; unit := "um" |};
     "BPT" := {| group1 := []; group2 := []; unit := "g" |} ]}.

Definition newline : ascii := "010"%char.

(** [parseCSV]: the object handed to [setMetricsData]. *)
Definition parseCSV (csvText : string) : gmap string Metric :=
  let lines := Text.split newline csvText in
  fold_left (λ parsed line, parseCSV_line line parsed) (drop 5 lines) parsed_init.

(** ** Exceptions

    A function of the source that can throw returns a completion: a value,
    or the exception thrown. *)

Inductive exception := TypeError | RangeError.

Inductive completion (A : Type) := Return (a : A) | Throw (e : exception).
Arguments Return {A}.
Arguments Throw {A}.

#[global] Instance completion_ret : MRet completion := @Return.
#[global] Instance completion_bind : MBind completion :=
  λ A B f c, match c with Return a => f a | Throw e => Throw e end.

(** ** Numerals: [Number.prototype.toFixed]

    [toFixed] follows ECMAScript on the exact value of the binary64 number.
    Above [10^21] it answers Number::toString, whose digits are the shortest
    that round back to the number (the nearest to it of two numerals of that
    length, as ECMAScript recommends and the engines do). *)

Module Numeral.
Local Open Scope string_scope.
Local Open Scope Z_scope.

(** The decimal digits of a natural number, without leading zeros. *)
Definition digits_of (n : Z) : string := NilZero.string_of_uint (N.to_uint (Z.to_N n)).

Fixpoint zeros (n : nat) : string :=
  match n with O => EmptyString | S n => String "0" (zeros n) end.

(** The value [m * 2^e] of a finite float as a fraction [a / b]. *)
Definition fraction (m : positive) (e : Z) : Z * Z :=
  if 0 <=? e then (Z.shiftl (Zpos m) e, 1) else (Zpos m, Z.shiftl 1 (- e)).

(** [a / b < 10^n] *)
Definition below_power (a b n : Z) : bool :=
  if 0 <=? n then a <? b * 10 ^ n else a * 10 ^ (- n) <? b.

(** The least [n'], from [n] on, with [a / b < 10^n']. *)
Fixpoint magnitude (fuel : nat) (a b n : Z) : Z :=
  match fuel with
  | O => n
  | S fuel => if below_power a b n then n else magnitude fuel a b (n + 1)
  end.

(** [s * 10^e] rounds to [x]. *)
Definition denotes (x : float) (s e : Z) : bool := (Text.decimal false s e =? x)%float.

(** The shortest numeral [s * 10^(n - k)], of [k] digits from [k] on, that
    rounds to [x = a / b]; of two numerals of that length, the nearer to
    [x], and the even one of two equally near.  Seventeen digits always
    round back. *)
Fixpoint shortest (fuel : nat) (x : float) (a b n k : Z) : Z * Z :=
  let '(p, q) := if 0 <=? n - k then (a, b * 10 ^ (n - k)) else (a * 10 ^ (k - n), b) in
  let lo := p / q in
  let hi := lo + 1 in
  let r := p - lo * q in
  let nearest :=
    if 2 * r <? q then lo else if q <? 2 * r then hi else if Z.even lo then lo else hi in
  match fuel with
  | O => (nearest, k)
  | S fuel =>
      match denotes x lo (n - k), denotes x hi (n - k) with
      | true, true => (nearest, k)
      | true, false => (lo, k)
      | false, true => (hi, k)
      | false, false => shortest fuel x a b n (k + 1)
      end
  end.

(** Number::toString, radix 10, on a positive finite number [x = m * 2^e]:
    the integers [n], [k] and [s] with [10^(k-1) <= s < 10^k], [s * 10^(n-k)]
    rounding to [x] and [k] least, then the four layouts.  The search for
    [n] starts from a lower estimate by the binary logarithms. *)
Definition positive_to_string (x : float) (m : positive) (e : Z) : string :=
  let '(a, b) := fraction m e in
  let n := magnitude 8 a b ((Z.log2 a - Z.log2 b - 1) * 30102 / 100000 - 1) in
  let '(s, k) := shortest 16 x a b n 1 in
  let '(s, k, n) := if s =? 10 ^ k then (1, 1, n + 1) else (s, k, n) in
  let d := digits_of s in
  if (k <=? n) && (n <=? 21) then d ++ zeros (Z.to_nat (n - k))
  else if (0 <? n) && (n <=? 21)
  then substring 0 (Z.to_nat n) d ++ "." ++ substring (Z.to_nat n) (Z.to_nat (k - n)) d
  else if (-6 <? n) && (n <=? 0) then "0." ++ zeros (Z.to_nat (- n)) ++ d
  else
    let exponent := (if 0 <=? n - 1 then "+" else "-") ++ digits_of (Z.abs (n - 1)) in
    if k =? 1 then d ++ "e" ++ exponent
    else substring 0 1 d ++ "." ++ substring 1 (Z.to_nat (k - 1)) d ++ "e" ++ exponent.

Definition Number_toString (x : float) : string :=
  match Prim2SF x with
  | S754_nan => "NaN"
  | S754_zero _ => "0"
  | S754_infinity s => if s then "-Infinity" else "Infinity"
  | S754_finite s m e => (if s then "-" else EmptyString) ++ positive_to_string (abs x) m e
  end.

(** The numeral of [n / 10^f] with [f] digits after the point. *)
Definition fixed_point (n : Z) (f : nat) : string :=
  let m := digits_of n in
  if (f =? 0)%nat then m
  else
    let m := if (String.length m <=? f)%nat then zeros (f + 1 - String.length m) ++ m else m in
    let k := String.length m in
    substring 0 (k - f) m ++ "." ++ substring (k - f) f m.

(** [x.toFixed(fractionDigits)]: a [RangeError] above 100 digits; the
    numeral of a number that is not finite; otherwise the sign and, below
    [10^21], the integer [n] nearest to [|x| * 10^f] (the larger of two
    equally near) written with [f] digits after the point. *)
Definition toFixed (x : float) (fractionDigits : nat) : completion string :=
  if (100 <? fractionDigits)%nat then Throw RangeError
  else
    Return
      match Prim2SF x with
      | S754_finite s m e =>
          let '(a, b) := fraction m e in
          (if s then "-" else EmptyString) ++
          (if 10 ^ 21 * b <=? a then positive_to_string (abs x) m e
           else fixed_point ((2 * a * 10 ^ Z.of_nat fractionDigits + b) / (2 * b))
                  fractionDigits)
      | S754_zero _ => fixed_point 0 fractionDigits
      | _ => Number_toString x
      end.
End Numeral.

(** ** Comparisons

    The operators the components use besides those of [Number]:
    [num_lt x y] is [x < y], [strict_equal x y] is [x === y] on numbers,
    [ToNumber] converts a value that is a number or [undefined] ([None]);
    [Math_min] and [Math_max] are [Math.min] and [Math.max] on two
    arguments. *)
Class Comparison (num : Type) := {
  num_lt : num → num → bool;
  strict_equal : num → num → bool;
  ToNumber : option num → num;
  Math_min : num → num → num;
  Math_max : num → num → num
  }.

Module Binary64_order.
Local Open Scope float_scope.

Definition is_negative_zero (x : float) : bool := is_zero x && get_sign x.
Definition is_positive_zero (x : float) : bool := is_zero x && negb (get_sign x).

(** [Math.min(...args)]: [NaN] if an argument is [NaN]; otherwise the
    least, from [+Infinity] on, with [-0] below [+0]. *)
Definition min (args : list float) : float :=
  if existsb is_nan args then nan
  else
    foldl (λ lowest number,
             let lowest :=
               if is_negative_zero number && is_positive_zero lowest then (-0) else lowest in
             if number <? lowest then number else lowest)
          infinity args.

(** [Math.max(...args)], from [-Infinity] on, with [+0] above [-0]. *)
Definition max (args : list float) : float :=
  if existsb is_nan args then nan
  else
    foldl (λ highest number,
             let highest :=
               if is_positive_zero number && is_negative_zero highest then 0 else highest in
             if highest <? number then number else highest)
          neg_infinity args.
End Binary64_order.

#[global] Instance js_comparison : Comparison float := {|
  num_lt := PrimFloat.ltb;
  strict_equal := PrimFloat.eqb;
  ToNumber := default nan;
  Math_min := λ a b, Binary64_order.min [a; b];
  Math_max := λ a b, Binary64_order.max [a; b]
|}.

(** In exact arithmetic a comparison with an undefined number is false, as
    a comparison with [NaN] is. *)
#[global] Instance exact_comparison : Comparison Exact.real := {|
  num_lt := λ x y,
    match x, y with Exact.Real a, Exact.Real b => bool_decide (a < b)%R | _, _ => false end;
  strict_equal := λ x y,
    match x, y with Exact.Real a, Exact.Real b => bool_decide (a = b) | _, _ => false end;
  ToNumber := default Exact.NotReal;
  Math_min := Exact.lift2 Rmin;
  Math_max := Exact.lift2 Rmax
|}.

(** ** The components [CustomBoxShape] and [MetricCard]

    A component is modelled by what it computes: the values and texts its
    markup displays, [null], or the exception it throws.  The class names
    and the layout of the markup are left out, and so is the tooltip of the
    chart, a callback the component does not run. *)

Module Chart.
(** An element of [chartData]: [{ name, ...q, value: [q.min, q.max] }]. *)
Record entry (num : Type) := make {
  name : string;
  summary : Summary.t num;
  value : option num * option num
}.
Arguments make {num}.
Arguments name {num}.
Arguments summary {num}.
Arguments value {num}.
End Chart.

Module Props.
(** The properties [CustomBoxShape] reads: the rectangle of the bar, the
    element of [chartData] it stands for and the colour; [payload] and
    [fill] may be missing. *)
Record t (num : Type) := make {
  x : num;
  y : num;
  width : num;
  height : num;
  payload : option (Chart.entry num);
  fill : option string
}.
Arguments make {num}.
Arguments x {num}.
Arguments y {num}.
Arguments width {num}.
Arguments height {num}.
Arguments payload {num}.
Arguments fill {num}.
End Props.

(** The SVG elements [CustomBoxShape] draws, with their attributes. *)
Inductive shape (num : Type) :=
  | line (x1 y1 x2 y2 : num) (stroke : string) (strokeWidth : Z)
  | rect (x y width height : num) (stroke : string) (strokeWidth : Z)
         (fill : option string) (opacity : Q).
Arguments line {num}.
Arguments rect {num}.

Section Components.
Context {num : Type} {N : Number num} {C : Comparison num}.
Local Open Scope num_scope.
Local Open Scope string_scope.

(** The closure [getY] of [CustomBoxShape], over [yBottom], [min], [range]
    and [height]. *)
Definition getY (yBottom min range height val : num) : num :=
  yBottom - ((val - min) / range) * height.

(** [None] is [null]; otherwise the children of the group [<g>]: the
    whisker, its two caps, the box and the median line. *)
Definition CustomBoxShape (props : Props.t num) : option (list (shape num)) :=
  match Props.payload props with
  | None => None
  | Some payload =>
    match Summary.min (Chart.summary payload) with
    | None => None
    | Some min =>
      let q1 := ToNumber (Summary.q1 (Chart.summary payload)) in
      let median := ToNumber (Summary.median (Chart.summary payload)) in
      let q3 := ToNumber (Summary.q3 (Chart.summary payload)) in
      let max := ToNumber (Summary.max (Chart.summary payload)) in
      let x := Props.x props in
      let y := Props.y props in
      let width := Props.width props in
      let height := Props.height props in
      let yBottom := y + height in
      let range := max - min in
      if strict_equal range (number 0) then None
      else
        let yMin := getY yBottom min range height min in
        let yQ1 := getY yBottom min range height q1 in
        let yMedian := getY yBottom min range height median in
        let yQ3 := getY yBottom min range height q3 in
        let yMax := getY yBottom min range height max in
        let halfWidth := width / number 2 in
        let center := x + halfWidth in
        Some [ line center yMin center yMax "#333" 1;
               line (center - number 10) yMax (center + number 10) yMax "#333" 1;
               line (center - number 10) yMin (center + number 10) yMin "#333" 1;
               rect x yQ3 width (yQ1 - yQ3) "#333" 1 (Props.fill props) 0.8;
               line x yMedian (x + width) yMedian "#333" 2 ]
    end
  end.

(** The constant [chartData] of [MetricCard]. *)
Definition chartData (q1 q2 : Summary.t num) : list (Chart.entry num) :=
  [ Chart.make "ICONN PLUS" q1 (Summary.min q1, Summary.max q1);
    Chart.make "RAPID" q2 (Summary.min q2, Summary.max q2) ].

(** The domain of the Y axis of [MetricCard]:
    [[globalMin - padding, globalMax + padding]]. *)
Definition axis_domain (q1 q2 : Summary.t num) : num * num :=
  let globalMin := Math_min (ToNumber (Summary.min q1)) (ToNumber (Summary.min q2)) in
  let globalMax := Math_max (ToNumber (Summary.max q1)) (ToNumber (Summary.max q2)) in
  let padding := (globalMax - globalMin) * number 0.15 in
  (globalMin - padding, globalMax + padding).
End Components.

Module Data.
(** The property [data] of [MetricCard], an element of [metricsData]: its
    two arrays are references into the store. *)
Record t := make { group1 : loc; group2 : loc; unit : string }.
End Data.

Module Card.
(** What [MetricCard] renders: the title, the p-value with its verdict,
    the average and the median of each group, and the chart with the
    domain of its Y axis, its unit and the colours of its two cells. *)
Record t := make {
  title : string;
  isSignificant : bool;
  p_value : string;
  verdict : string;
  avg1 : string;
  median1 : string;
  avg2 : string;
  median2 : string;
  chart : list (Chart.entry float);
  domain : float * float;
  unit : string;
  fills : list string
}.
End Card.

(** [x.toFixed(digits)] for a value [x] that may be [undefined]. *)
Definition call_toFixed (x : option float) (digits : nat) : completion string :=
  match x with
  | Some x => Numeral.toFixed x digits
  | None => Throw TypeError
  end.

Section MetricCard.
Variable approx : float → float → float.
Let J := js_number approx.
Local Existing Instance J.
Local Open Scope string_scope.

(** [data] is [None] for [null] or [undefined].  The component returns
    [null] ([None]) or a card, or throws; the arrays that [getQuartiles]
    allocates stay in the store. *)
Definition MetricCard (title : string) (data : option Data.t) (unit : string)
    (h : heap float) : completion (option Card.t) * heap float :=
  match data with
  | None => (Return None, h)
  | Some data =>
    let group1 := default [] (h !! Data.group1 data) in
    let group2 := default [] (h !! Data.group2 data) in
    if decide (length group1 = 0%nat ∨ length group2 = 0%nat) then (Return None, h)
    else
      let stats := calculateStats group1 group2 in
      let isSignificant := num_lt (ToNumber (stats !! "p")) (number 0.05) in
      let '(q1, h) := getQuartiles (Some (Data.group1 data)) h in
      let '(q2, h) := getQuartiles (Some (Data.group2 data)) h in
      let chartData := chartData q1 q2 in
      (p ← call_toFixed (stats !! "p") 4;
       m1 ← call_toFixed (stats !! "m1") 2;
       median1 ← call_toFixed (Summary.median q1) 2;
       m2 ← call_toFixed (stats !! "m2") 2;
       median2 ← call_toFixed (Summary.median q2) 2;
       Return (Some (Card.make title isSignificant p
                       (if isSignificant then "Significant" else "No Difference")
                       m1 median1 m2 median2 chartData (axis_domain q1 q2) unit
                       (imap (λ index _, if decide (index = 0%nat) then "#93c5fd" else "#fdba74")
                             chartData))),
       h)
  end.
End MetricCard.

(** ** The formulas of the specification

    The specification states the two-sample test in real arithmetic; its
    formulas are written here as it words them, in the exact reading, to be
    compared with what [calculateStats] computes. *)

Module Spec.
Import Exact.
Local Open Scope num_scope.

Definition neg (x : real) : real := lift1 Ropp x.
Definition sq (x : real) : real := Math_pow x (number 2).
Definition size (s : list real) : real := of_length (length s).

(** "arithmetic mean of all elements" *)
Definition mean (s : list real) : real :=
  foldr (λ x acc, x + acc) (number 0) s / size s.

(** "sum of squared deviations divided by (n−1)" *)
Definition sample_variance (s : list real) (m : real) : real :=
  foldr (λ x acc, sq (x - m) + acc) (number 0) s / (size s - number 1).

(** "t = |m_a − m_b| / se", "se = sqrt(v_a/n_a + v_b/n_b)" *)
Definition t_statistic (m_a m_b v_a v_b n_a n_b : real) : real :=
  Math_abs (m_a - m_b) / Math_sqrt (v_a / n_a + v_b / n_b).

(** "df = (v_a/n_a + v_b/n_b)^2 / [ (v_a/n_a)^2/(n_a−1) + (v_b/n_b)^2/(n_b−1) ]" *)
Definition degrees_of_freedom (v_a v_b n_a n_b : real) : real :=
  sq (v_a / n_a + v_b / n_b)
  / (sq (v_a / n_a) / (n_a - number 1) + sq (v_b / n_b) / (n_b - number 1)).

(** "p = (1 + t^2/df)^(−(df+1)/2)" *)
Definition p_value (t df : real) : real :=
  Math_pow (number 1 + sq t / df) (neg ((df + number 1) / number 2)).
End Spec.

(** The values the engine computes on a sample of reals, as real numbers. *)
Module RealStats.
Local Open Scope R_scope.

Definition sum (xs : list R) : R := foldr Rplus 0 xs.
Definition mean (xs : list R) : R := sum xs / INR (length xs).
Definition sum_sq (m : R) (xs : list R) : R :=
  foldr (λ x acc, (x - m) * (x - m) + acc) 0 xs.
Definition variance (xs : list R) : R :=
  sum_sq (mean xs) xs / (INR (length xs) - 1).

(** The denominator of the degrees of freedom. *)
Definition df_denominator (v1 v2 n1 n2 : R) : R :=
  (v1 / n1) * (v1 / n1) / (n1 - 1) + (v2 / n2) * (v2 / n2) / (n2 - 1).

(** Insertion sort on the reals, and linear interpolation in a sorted list
    at the fractional rank [pos]. *)
Fixpoint insert (a : R) (ys : list R) : list R :=
  match ys with
  | [] => [a]
  | b :: ys' => if decide (0 < a - b) then b :: insert a ys' else a :: ys
  end.

Definition sort (xs : list R) : list R := foldr insert [] xs.

Definition interpolate (ys : list R) (pos : R) : R :=
  let i := Z.to_nat (Int_part pos) in
  let b := nth i ys 0 in
  match ys !! S i with
  | Some next => b + (pos - IZR (Int_part pos)) * (next - b)
  | None => b
  end.

Definition ascending (ys : list R) : Prop :=
  ∀ i j a b, (i ≤ j)%nat → ys !! i = Some a → ys !! j = Some b → a <= b.
End RealStats.

(** A sample all of whose elements are equal. *)
Definition constant (xs : list R) : Prop := ∀ x y, x ∈ xs → y ∈ xs → x = y.

(** The fields through which the result of [calculateStats] exposes the
    means, the t statistic and the p-value. *)
Definition stats_fields : list string := ["t"; "p"; "m1"; "m2"].

(** A result object exposes [df] when one of its fields, besides those
    four, holds it. *)
Definition exposes_besides (fields : list string) (result : gmap string float)
    (df : float) : Prop :=
  ∃ k, (k ∉ fields) ∧ result !! k = Some df.

(** The columns of the five metrics. *)
Definition columns : list (string * nat * nat) :=
  [("Ball Size", 1, 2); ("Ball Thickness", 3, 4); ("Loop Height", 5, 6);
   ("Edge Height", 7, 8); ("BPT", 10, 11)]%nat.

(** What one field contributes to a sample: its value, or nothing when it
    does not parse. *)
Definition contribution (field : option string) : list float :=
  match parseVal field with Some v => [v] | None => [] end.

(** A metric after a row has been read: each sample extended by what its
    own column contributes. *)
Definition append_fields (row : list string) (idx1 idx2 : nat) (m : Metric) : Metric :=
  {| group1 := group1 m ++ contribution (row !! idx1);
     group2 := group2 m ++ contribution (row !! idx2);
     unit := unit m |}.

Definition not_NaN (x : float) : Prop := is_nan x = false.

(** Every element of both samples of a metric satisfies [P]. *)
Definition samples_all (P : float → Prop) (m : Metric) : Prop :=
  Forall P (group1 m) ∧ Forall P (group2 m).

(** The rows [parseCSV] reads: the lines from the sixth on, split at the
    commas, that have at least ten fields. *)
Definition data_rows (csvText : string) : list (list string) :=
  filter (λ row, 10 ≤ length row)%nat (Text.split "," <$> drop 5 (Text.split newline csvText)).

(** The unit [parseCSV] gives a metric. *)
Definition unit_of (metric : string) : string :=
  if decide (metric = "BPT"%string) then "g"%string else "um"%string.

(** The text of a list of lines, each followed by a line feed. *)
Definition unlines (lines : list string) : string :=
  foldr (λ line text, line ++ String newline text)%string EmptyString lines.

(** A number that is [NaN] or the infinity of sign [s]. *)
Definition unbounded (s : bool) (x : float) : Prop :=
  Prim2SF x = S754_infinity s ∨ Prim2SF x = S754_nan.

(** A number that is a zero or [NaN]. *)
Definition zero_or_nan (x : float) : Prop :=
  match Prim2SF x with S754_zero _ | S754_nan => True | _ => False end.

(** Dyadic numbers.  [shl z t] is [z * 2^t]; for a whole number [z] of at
    most 53 binary digits, [mantissa z] and [exponent z e] are the mantissa
    of 53 digits and the exponent of the binary64 value [z * 2^e]. *)
Module Dyadic.
Definition shl (z : positive) (t : Z) : positive := Pos.shiftl z (Z.to_N t).
Definition mantissa (z : positive) : positive := shl z (53 - Zpos (digits2_pos z)).
Definition exponent (z : positive) (e : Z) : Z := (e + Zpos (digits2_pos z) - 53)%Z.

(** A float in units of [2^-1074], the least positive float; the
    infinities lie beyond every finite float. *)
Definition units (x : spec_float) : Z :=
  match x with
  | S754_zero _ | S754_nan => 0
  | S754_infinity s => cond_Zopp s (2 ^ 2100)
  | S754_finite s m e => cond_Zopp s (Zpos m * 2 ^ (e + 1074))
  end%Z.

(** A record of a shift to the right whose mantissa is positive and has
    [d] binary digits. *)
Definition has_digits (mrs : shr_record) (d : Z) : Prop :=
  ∃ m, shr_m mrs = Zpos m ∧ Zpos (digits2_pos m) = d.
End Dyadic.

Definition float_units (x : float) : Z := Dyadic.units (Prim2SF x).

(** The quartile [c] (1, 2 or 3) of [n] sorted observations lies between
    the ranks [c * (n - 1) / 4] and the next; [weight c n] is the fraction
    of the way from the first to the second. *)
Definition weight (c n : nat) : Q := Z.of_nat (c * (n - 1) mod 4) # 4.

(** ** Rounding, as a function on whole numbers

    [position] places a record of a shift to the right among the numbers
    it can stand for: four times the mantissa, plus two for the round bit
    and one for the sticky bit.  [nearest] is the mantissa such a record
    rounds to. *)
Definition position (mrs : shr_record) : Z :=
  (4 * shr_m mrs + (if shr_r mrs then 2 else 0) + (if shr_s mrs then 1 else 0))%Z.

Definition nearest (mrs : shr_record) : Z :=
  round_nearest_even (shr_m mrs) (loc_of_shr_record mrs).

(** The float, in units of [2^-1074], to which the number [V * 2^-1140]
    rounds. *)
Definition rounded (V : Z) : Z := Dyadic.units (binary_normalize prec emax V (-1140) false).

(** The float of mantissa [M] (at most [2^53]) and exponent [E], in units
    of [2^-1074]: a mantissa of [2^53] is carried into the exponent, and an
    exponent above 971 overflows. *)
Definition finished (M E : Z) : Z :=
  (if M =? 0 then 0
   else if E + (if M =? 2 ^ 53 then 1 else 0) <=? 971 then M * 2 ^ (E + 1074)
   else 2 ^ 2100)%Z.

(** A zero or a finite number. *)
Definition is_number (x : spec_float) : Prop :=
  match x with S754_zero _ | S754_finite _ _ _ => True | _ => False end.



(** ** Inputs of the examples *)

Section Inputs.
Local Open Scope string_scope.

(** The JavaScript numbers with the sample engine for [Math.pow]. *)
Definition engine : Number float := js_number Binary64.pow_reference.

(** The five rows of preamble of the demo data. *)
Definition preamble : string :=
  String newline (String newline (String newline (String newline
    "Model,ICONN PLUS,RAPID,ICONN PLUS,RAPID,ICONN PLUS,RAPID,ICONN PLUS,RAPID,,ICONN PLUS,RAPID"))).

(** The names of the five metrics. *)
Definition metrics : list string :=
  ["Ball Size"; "Ball Thickness"; "Loop Height"; "Edge Height"; "BPT"].

(** The rows of the demo data of [loadDemoData], after the preamble. *)
Definition demo_rows : list string :=
  ["     RAPID,42,43,9,8,46,44,41,41,,4.309,4.433";
   "     ,42,43,10,9,47,46,40,40,,4.268,4.584";
   "     ,43,42,10,10,45,48,39,39,,4.368,4.256";
   "     ,42,42,10,9,48,49,45,44,,4.502,4.488";
   "     ,43,41,9,9,47,50,45,45,,4.334,4.574";
   "     ,42,41,9,10,47,46,45,44,,4.157,4.527";
   "     ,41,43,9,9,52,47,43,43,,4.368,4.342";
   "     ,42,41,10,9,48,48,46,44,,4.383,4.563";
   "     ,42,42,9,8,45,45,45,44,,4.465,4.27";
   "     ,43,43,9,8,46,45,45,42,,4.418,4.436";
   "     ,43,41,9,10,52,51,43,42,,4.56,4.549";
   "     ,42,42,9,9,53,50,45,42,,4.376,4.382";
   "     ,42,42,10,9,47,49,42,43,,4.564,4.304";
   "     ,42,42,9,10,48,48,45,44,,4.529,4.178";
   "     ,41,41,9,8,46,51,45,44,,4.25,4.293";
   "     ,42,41,9,8,47,50,43,42,,4.306,4.276";
   "     ,43,43,10,9,51,47,43,43,,4.493,4.62";
   "     ,42,43,9,10,52,46,46,42,,4.163,4.61";
   "     ,42,43,9,9,53,45,44,42,,4.346,4.35";
   "     ,42,41,9,8,52,46,44,44,,4.151,4.576";
   "     ,42,43,9,10,50,47,44,45,,4.537,4.158";
   "     ,42,43,9,10,48,47,44,45,,4.598,4.406"].

Definition dummyCSV : string :=
  foldl (λ text row, text ++ String newline row) preamble demo_rows.
End Inputs.

(** * Properties *)

(** A goal about the specification [Prim2SF x] of a float, settled by
    evaluation on each class of values and each sign. *)
Ltac by_float_cases x := by destruct (Prim2SF x) as [[]|[]| |[] ? ?].

(** ** Binary64 arithmetic *)

Section Binary64_facts.
Import Binary64.
Local Open Scope float_scope.

Lemma SFabs_round_aux s m e l :
  SFabs (binary_round_aux prec emax s m e l) = binary_round_aux prec emax false m e l.
Proof.
  unfold binary_round_aux.
  destruct (shr_fexp prec emax m e l) as [mrs e'].
  destruct (shr_fexp prec emax _ e' loc_Exact) as [mrs' e''].
  destruct (shr_m mrs'); [done | | done].
  by destruct (_ <=? _)%Z.
Qed.

Lemma SFabs_round s m e :
  SFabs (binary_round prec emax s m e) = binary_round prec emax false m e.
Proof.
  unfold binary_round. destruct (shl_align _ _ _). apply SFabs_round_aux.
Qed.

Lemma SFabs_normalize_opp z e :
  SFabs (binary_normalize prec emax (- z) e false)
  = SFabs (binary_normalize prec emax z e false).
Proof. destruct z; simpl; by rewrite ?SFabs_round. Qed.

Lemma SFadd_comm x y : SF64add x y = SF64add y x.
Proof.
  destruct x as [[]|[]| |sx mx ex], y as [[]|[]| |sy my ey]; try reflexivity.
  unfold SF64add, SFadd. by rewrite Z.min_comm, Z.add_comm.
Qed.

Lemma SFabs_sub_swap x y : SFabs (SF64sub x y) = SFabs (SF64sub y x).
Proof.
  destruct x as [[]|[]| |sx mx ex], y as [[]|[]| |sy my ey]; try reflexivity.
  unfold SF64sub, SFsub. rewrite (Z.min_comm ey ex).
  rewrite <- SFabs_normalize_opp. f_equal. f_equal. lia.
Qed.

Lemma SFabs_div x y : SFabs (SF64div x y) = SF64div (SFabs x) (SFabs y).
Proof.
  destruct x as [[]|[]| |sx mx ex], y as [[]|[]| |sy my ey]; try reflexivity.
  unfold SF64div, SFdiv, SFabs.
  destruct (SFdiv_core_binary _ _ _ _ _ _) as [[mz ez] lz].
  apply SFabs_round_aux.
Qed.

Lemma add_comm x y : x + y = y + x.
Proof. apply Prim2SF_inj. rewrite !add_spec. apply SFadd_comm. Qed.

Lemma abs_sub_swap x y : abs (x - y) = abs (y - x).
Proof. apply Prim2SF_inj. rewrite !abs_spec, !sub_spec. apply SFabs_sub_swap. Qed.

Lemma abs_div x y : abs (x / y) = abs x / abs y.
Proof. apply Prim2SF_inj. rewrite div_spec, !abs_spec, div_spec. apply SFabs_div. Qed.

(** Special values. *)

Lemma is_nan_class (x : float) :
  is_nan x = match class_of x with NaN_value => true | _ => false end.
Proof.
  unfold is_nan, class_of. rewrite FloatAxioms.eqb_spec. unfold SFeqb.
  destruct (Prim2SF x) as [s|s| |s m e]; try done; simpl.
  - by destruct s.
  - rewrite Z.compare_refl, Pos.compare_cont_refl. by destruct s.
Qed.

Lemma is_zero_class (x : float) :
  is_zero x = match class_of x with zero_value => true | _ => false end.
Proof.
  unfold is_zero, class_of. rewrite FloatAxioms.eqb_spec.
  change (Prim2SF zero) with (S754_zero false).
  by_float_cases x.
Qed.

Lemma is_infinity_class (x : float) :
  is_infinity x = match class_of x with infinite_value => true | _ => false end.
Proof.
  unfold is_infinity, class_of. rewrite FloatAxioms.eqb_spec, abs_spec.
  change (Prim2SF infinity) with (S754_infinity false).
  by_float_cases x.
Qed.

Lemma is_finite_class (x : float) :
  is_finite x
  = match class_of x with zero_value | nonzero_value => true | _ => false end.
Proof.
  unfold is_finite. rewrite is_nan_class, is_infinity_class.
  by destruct (class_of x).
Qed.

(** [x - x] is [+0] for a finite [x]. *)
Lemma float_sub_diag (x : float) : is_finite x = true → x - x = 0.
Proof.
  rewrite is_finite_class. unfold class_of. intros Hx.
  apply Prim2SF_inj. rewrite sub_spec. change (Prim2SF 0) with (S754_zero false).
  destruct (Prim2SF x) as [[]|s| |s m e]; try done.
  unfold SF64sub, SFsub. by rewrite Z.sub_diag.
Qed.

(** [|0 / y|] is [+0] unless [y] is zero or [NaN]. *)
Lemma abs_zero_div (y : float) :
  is_nan y = false → is_zero y = false → abs (0 / y) = 0.
Proof.
  rewrite is_nan_class, is_zero_class. unfold class_of. intros Hn Hz.
  apply Prim2SF_inj. rewrite abs_spec, div_spec.
  change (Prim2SF 0) with (S754_zero false).
  by_float_cases y.
Qed.

(** [1 + 0 / y] is [1] unless [y] is zero or [NaN]. *)
Lemma one_plus_zero_div (y : float) :
  is_nan y = false → is_zero y = false → 1 + 0 / y = 1.
Proof.
  rewrite is_nan_class, is_zero_class. unfold class_of. intros Hn Hz.
  apply Prim2SF_inj. rewrite add_spec, div_spec.
  change (Prim2SF 0) with (S754_zero false).
  by_float_cases y.
Qed.

Lemma eqb_infinity_finite (x : float) :
  is_finite x = true → (x =? infinity) = false ∧ (x =? neg_infinity) = false.
Proof.
  rewrite is_finite_class. unfold class_of. intros Hx. rewrite !FloatAxioms.eqb_spec.
  change (Prim2SF infinity) with (S754_infinity false).
  change (Prim2SF neg_infinity) with (S754_infinity true).
  by_float_cases x.
Qed.

(** [Math.pow(1, e)] for a finite exponent: [1], when the engine answers
    [1] in the case left to it. *)
Lemma pow_one (approx : float → float → float) (e : float) :
  is_finite e = true → approx 1 e = 1 → Binary64.pow approx 1 e = 1.
Proof.
  intros He Ha. unfold Binary64.pow.
  destruct (eqb_infinity_finite e He) as [-> ->].
  rewrite is_finite_class in He. rewrite is_nan_class, is_zero_class.
  destruct (class_of e); try done.
Qed.

(** [|x|] is never below zero. *)
Lemma abs_not_negative (x : float) : (abs x <? 0) = false.
Proof.
  rewrite FloatAxioms.ltb_spec, abs_spec. change (Prim2SF 0) with (S754_zero false).
  by_float_cases x.
Qed.

(** [|x|] is at least zero unless [x] is [NaN]. *)
Lemma abs_nonneg (x : float) : is_nan x = false → (0 <=? abs x) = true.
Proof.
  rewrite is_nan_class. unfold class_of.
  rewrite FloatAxioms.leb_spec, abs_spec. change (Prim2SF 0) with (S754_zero false).
  by_float_cases x.
Qed.

Lemma mul_zero_finite (e : float) : is_finite e = true → e * 0 = 0 ∨ e * 0 = -0.
Proof.
  rewrite is_finite_class. unfold class_of. intros He.
  destruct (Prim2SF e) as [[]|[]| |[] m x] eqn:Hp; try done.
  all: first [ left; apply Prim2SF_inj; rewrite mul_spec, Hp; reflexivity
             | right; apply Prim2SF_inj; rewrite mul_spec, Hp; reflexivity ].
Qed.

Lemma power_one (n : positive) : Pos.iter_op PrimFloat.mul n 1 = 1.
Proof.
  induction n as [n IH|n IH|]; simpl; [| |done].
  - change (1 * 1) with 1. by rewrite IH.
  - change (1 * 1) with 1. by rewrite IH.
Qed.

Lemma pow_reference_one (e : float) :
  is_finite e = true → Binary64.pow_reference 1 e = 1.
Proof.
  intros He. unfold Binary64.pow_reference.
  assert (Binary64.exp (e * Binary64.ln (abs 1)) = 1) as Hexp.
  { change (Binary64.ln (abs 1)) with 0.
    by destruct (mul_zero_finite e He) as [-> | ->]. }
  destruct (Binary64.to_Z e) as [[|n|n]|]; try done.
  - apply power_one.
  - by rewrite power_one.
Qed.

End Binary64_facts.

(** ** The shape of the result of [calculateStats] *)

Section Stats_shape.
Context {num : Type} {N : Number num}.

(** The two shapes of the result: before and past the guard on the lengths. *)
Lemma calculateStats_guard (group1 group2 : list num) :
  (length group1 < 2 ∨ length group2 < 2)%nat →
  calculateStats group1 group2 = {[ "p" := number 1; "t" := number 0 ]}.
Proof.
  intros Hn. unfold calculateStats.
  destruct (orb_true_iff (length group1 <? 2)%nat (length group2 <? 2)%nat) as [_ ->]; [done|].
  rewrite !Nat.ltb_lt. done.
Qed.

Lemma calculateStats_past_guard (group1 group2 : list num) :
  (2 ≤ length group1)%nat → (2 ≤ length group2)%nat →
  calculateStats group1 group2 =
    let m1 := calculateMean group1 in
    let m2 := calculateMean group2 in
    let v1 := calculateVariance group1 m1 in
    let v2 := calculateVariance group2 m2 in
    let n1 := of_length (length group1) in
    let n2 := of_length (length group2) in
    {[ "t" := welch_t m1 m2 (welch_se v1 v2 n1 n2);
       "p" := welch_p (welch_t m1 m2 (welch_se v1 v2 n1 n2)) (welch_df v1 v2 n1 n2);
       "m1" := m1; "m2" := m2 ]}.
Proof.
  intros H1 H2. unfold calculateStats.
  destruct (Nat.ltb_spec (length group1) 2); [lia|].
  destruct (Nat.ltb_spec (length group2) 2); [lia|]. done.
Qed.
End Stats_shape.

Section Symmetry.
Variable approx : float → float → float.
Let J := js_number approx.
Local Existing Instance J.
Local Open Scope num_scope.

Lemma welch_se_swap (v1 v2 n1 n2 : float) : welch_se v1 v2 n1 n2 = welch_se v2 v1 n2 n1.
Proof. unfold welch_se. simpl. by rewrite add_comm. Qed.

Lemma welch_df_swap (v1 v2 n1 n2 : float) : welch_df v1 v2 n1 n2 = welch_df v2 v1 n2 n1.
Proof.
  unfold welch_df. simpl.
  by rewrite (add_comm (v1 / n1)), (add_comm (_ / (n1 - _))).
Qed.

Lemma welch_t_swap (m1 m2 se : float) : welch_t m1 m2 se = welch_t m2 m1 se.
Proof. unfold welch_t. simpl. by rewrite !abs_div, abs_sub_swap. Qed.


(** C6.  [calculateStats a b] and [calculateStats b a] hold the same [t] and
    the same [p], for all arrays of JavaScript numbers (of any length, with
    any elements) and whatever the engine's [Math.pow] answers in the case
    ECMAScript leaves open. *)
Theorem calculateStats_symmetric (a b : list float) :
  calculateStats a b !! "t" = calculateStats b a !! "t"
  ∧ calculateStats a b !! "p" = calculateStats b a !! "p".
Proof.
  destruct (le_lt_dec 2 (length a)) as [Ha|Ha], (le_lt_dec 2 (length b)) as [Hb|Hb].
  2-4: rewrite !calculateStats_guard by lia; done.
  rewrite !calculateStats_past_guard by done. cbv zeta.
  rewrite (welch_se_swap _ (calculateVariance b _)), (welch_df_swap _ (calculateVariance b _)).
  rewrite (welch_t_swap (calculateMean a)).
  split; [by rewrite !lookup_insert_eq|].
  by rewrite !(lookup_insert_ne _ "t" "p"), !lookup_insert_eq.
Qed.
End Symmetry.

(** ** The engine in exact arithmetic *)

Section Exact_facts.
Import Exact RealStats.
Local Open Scope R_scope.

Lemma Q2R_lit_0 : Q2R 0 = 0. Proof. unfold Q2R; simpl; lra. Qed.
Lemma Q2R_lit_1 : Q2R 1 = 1. Proof. unfold Q2R; simpl; lra. Qed.
Lemma Q2R_lit_2 : Q2R 2 = 2. Proof. unfold Q2R; simpl; lra. Qed.
Lemma Q2R_lit_quarter : Q2R 0.25 = / 4. Proof. unfold Q2R; simpl; lra. Qed.
Lemma Q2R_lit_half : Q2R 0.5 = / 2. Proof. unfold Q2R; simpl; lra. Qed.
Lemma Q2R_lit_three_quarters : Q2R 0.75 = 3 / 4. Proof. unfold Q2R; simpl; lra. Qed.

Lemma exact_div (a b : R) : b ≠ 0 → (Real a / Real b)%num = Real (a / b).
Proof. intros Hb. simpl. unfold div. by destruct (decide (b = 0)). Qed.

Lemma exact_div_0 (a : R) : (Real a / Real 0)%num = NotReal.
Proof. simpl. unfold div. by destruct (decide (0 = 0)). Qed.

Lemma exact_sqrt (a : R) : 0 <= a → Math_sqrt (Real a) = Real (R_sqrt.sqrt a).
Proof. intros Ha. simpl. destruct (decide (a < 0)); [lra | done]. Qed.

Lemma integral_IZR (z : Z) : integral (IZR z) = Some z.
Proof.
  unfold integral. rewrite <- (Int_part_spec (IZR z) z) by lra.
  by destruct (decide (IZR z = IZR z)).
Qed.

Lemma exact_sq (a : R) : Math_pow (Real a) (number 2) = Real (a * a).
Proof.
  simpl. rewrite Q2R_lit_2. destruct (decide (2 = 0)); [lra|].
  destruct (decide (0 < a)).
  - f_equal. replace 2 with (INR 2) by (simpl; lra).
    rewrite Rpower_pow by done. simpl. lra.
  - destruct (decide (a = 0)) as [->|].
    + destruct (decide (0 < 2)); [f_equal; lra | lra].
    + rewrite (integral_IZR 2). f_equal. simpl. lra.
Qed.

Lemma exact_sum (xs : list R) (acc : R) :
  fold_left (λ a b, a + b)%num (Real <$> xs) (Real acc) = Real (acc + sum xs).
Proof.
  revert acc. induction xs as [|x xs IH]; intros acc; simpl.
  - f_equal. unfold sum. simpl. lra.
  - rewrite IH. f_equal. unfold sum. simpl. lra.
Qed.

Lemma exact_sum_sq (m : R) (xs : list R) (acc : R) :
  fold_left (λ a b, a + Math_pow (b - Real m) (number 2))%num (Real <$> xs) (Real acc)
  = Real (acc + sum_sq m xs).
Proof.
  revert acc. induction xs as [|x xs IH]; intros acc.
  - simpl. f_equal. lra.
  - cbn [fmap list_fmap fold_left]. change (Real x - Real m)%num with (Real (x - m)).
    rewrite exact_sq. change (Real acc + Real ?a)%num with (Real (acc + a)).
    rewrite IH. f_equal. simpl. lra.
Qed.

Lemma INR_length_pos {A} (xs : list A) : (1 ≤ length xs)%nat → 0 < INR (length xs).
Proof. intros Hn. apply lt_0_INR. lia. Qed.

Lemma INR_length_pred_pos {A} (xs : list A) : (2 ≤ length xs)%nat → 0 < INR (length xs) - 1.
Proof. intros Hn. apply le_INR in Hn. simpl in Hn. lra. Qed.

Lemma exact_mean (xs : list R) :
  (1 ≤ length xs)%nat → calculateMean (Real <$> xs) = Real (mean xs).
Proof.
  intros Hn. unfold calculateMean. rewrite length_fmap.
  change (number 0) with (Real (Q2R 0)). rewrite Q2R_lit_0, exact_sum.
  change (of_length (length xs)) with (Real (INR (length xs))).
  rewrite exact_div by (apply INR_length_pos in Hn; lra).
  f_equal. unfold mean. f_equal. lra.
Qed.

Lemma exact_variance (xs : list R) (m : R) :
  (2 ≤ length xs)%nat →
  calculateVariance (Real <$> xs) (Real m)
  = Real (sum_sq m xs / (INR (length xs) - 1)).
Proof.
  intros Hn. unfold calculateVariance. rewrite length_fmap.
  change (number 0) with (Real (Q2R 0)). rewrite Q2R_lit_0, exact_sum_sq.
  change (of_length (length xs) - number 1)%num with (Real (INR (length xs) - Q2R 1)).
  rewrite Q2R_lit_1.
  rewrite exact_div by (apply INR_length_pred_pos in Hn; lra).
  f_equal. f_equal. lra.
Qed.

Lemma spec_sum (xs : list R) :
  foldr (λ x acc, x + acc)%num (number 0) (Real <$> xs) = Real (sum xs).
Proof.
  induction xs as [|x xs IH].
  - simpl. by rewrite Q2R_lit_0.
  - rewrite fmap_cons. cbn [foldr]. by rewrite IH.
Qed.

Lemma spec_sum_sq (m : R) (xs : list R) :
  foldr (λ x acc, Spec.sq (x - Real m) + acc)%num (number 0) (Real <$> xs)
  = Real (sum_sq m xs).
Proof.
  induction xs as [|x xs IH].
  - simpl. by rewrite Q2R_lit_0.
  - rewrite fmap_cons. cbn [foldr]. rewrite IH. unfold Spec.sq.
    change (Real x - Real m)%num with (Real (x - m)). by rewrite exact_sq.
Qed.

Lemma spec_mean (xs : list R) :
  (1 ≤ length xs)%nat → Spec.mean (Real <$> xs) = Real (mean xs).
Proof.
  intros Hn. unfold Spec.mean, Spec.size. rewrite length_fmap, spec_sum.
  change (of_length (length xs)) with (Real (INR (length xs))).
  by rewrite exact_div by (apply INR_length_pos in Hn; lra).
Qed.

Lemma spec_variance (xs : list R) (m : R) :
  (2 ≤ length xs)%nat →
  Spec.sample_variance (Real <$> xs) (Real m)
  = Real (sum_sq m xs / (INR (length xs) - 1)).
Proof.
  intros Hn. unfold Spec.sample_variance, Spec.size.
  rewrite length_fmap, spec_sum_sq.
  change (of_length (length xs) - number 1)%num with (Real (INR (length xs) - Q2R 1)).
  rewrite Q2R_lit_1.
  by rewrite exact_div by (apply INR_length_pred_pos in Hn; lra).
Qed.

Lemma sum_sq_nonneg (m : R) (xs : list R) : 0 <= sum_sq m xs.
Proof.
  induction xs as [|x xs IH]; simpl; [lra|].
  pose proof (Rle_0_sqr (x - m)) as Hsq. unfold Rsqr in Hsq. lra.
Qed.

Lemma sum_sq_zero (m : R) (xs : list R) : sum_sq m xs = 0 → Forall (λ x, x = m) xs.
Proof.
  induction xs as [|x xs IH]; simpl; intros Hs; constructor.
  - pose proof (Rle_0_sqr (x - m)) as Hsq. unfold Rsqr in Hsq.
    pose proof (sum_sq_nonneg m xs).
    assert ((x - m) * (x - m) = 0) as Hz by lra.
    apply Rmult_integral in Hz. lra.
  - apply IH. pose proof (Rle_0_sqr (x - m)) as Hsq. unfold Rsqr in Hsq.
    pose proof (sum_sq_nonneg m xs). lra.
Qed.

Lemma sum_sq_pos (m : R) (xs : list R) : ¬ constant xs → 0 < sum_sq m xs.
Proof.
  intros Hc. pose proof (sum_sq_nonneg m xs) as Hge.
  destruct (decide (sum_sq m xs = 0)) as [Hz|Hz]; [|lra].
  exfalso. apply Hc. intros x y Hx Hy.
  apply sum_sq_zero in Hz. rewrite Forall_forall in Hz.
  by rewrite (Hz x Hx), (Hz y Hy).
Qed.

Lemma variance_nonneg (xs : list R) : (2 ≤ length xs)%nat → 0 <= variance xs.
Proof.
  intros Hn. unfold variance. apply INR_length_pred_pos in Hn.
  pose proof (sum_sq_nonneg (mean xs) xs).
  apply Rmult_le_pos; [done|]. left. by apply Rinv_0_lt_compat.
Qed.

Lemma variance_pos (xs : list R) :
  (2 ≤ length xs)%nat → ¬ constant xs → 0 < variance xs.
Proof.
  intros Hn Hc. unfold variance. apply INR_length_pred_pos in Hn.
  apply Rmult_lt_0_compat; [by apply sum_sq_pos | by apply Rinv_0_lt_compat].
Qed.

(** The constants of [calculateStats] on real arguments. *)
Lemma exact_welch_se (v1 v2 n1 n2 : R) :
  0 <= v1 → 0 <= v2 → 0 < n1 → 0 < n2 →
  welch_se (Real v1) (Real v2) (Real n1) (Real n2)
  = Real (R_sqrt.sqrt (v1 / n1 + v2 / n2)).
Proof.
  intros H1 H2 Hn1 Hn2. unfold welch_se.
  rewrite !exact_div by lra.
  change (Real ?a + Real ?b)%num with (Real (a + b)).
  apply exact_sqrt.
  assert (0 <= v1 / n1) by (apply Rmult_le_pos; [done | left; by apply Rinv_0_lt_compat]).
  assert (0 <= v2 / n2) by (apply Rmult_le_pos; [done | left; by apply Rinv_0_lt_compat]).
  lra.
Qed.

Lemma exact_welch_df (v1 v2 n1 n2 : R) :
  1 < n1 → 1 < n2 →
  welch_df (Real v1) (Real v2) (Real n1) (Real n2)
  = (Real ((v1 / n1 + v2 / n2) * (v1 / n1 + v2 / n2))
     / Real (df_denominator v1 v2 n1 n2))%num.
Proof.
  intros Hn1 Hn2. unfold welch_df.
  rewrite !exact_div by lra.
  change (Real ?a + Real ?b)%num with (Real (a + b)).
  rewrite !exact_sq.
  change (number 1) with (Real (Q2R 1)). rewrite Q2R_lit_1.
  change (Real ?a - Real ?b)%num with (Real (a - b)).
  rewrite !exact_div by lra. done.
Qed.

Lemma df_denominator_nonneg (v1 v2 n1 n2 : R) :
  1 < n1 → 1 < n2 → 0 <= df_denominator v1 v2 n1 n2.
Proof.
  intros Hn1 Hn2. unfold df_denominator.
  assert (0 < / (n1 - 1)) by (apply Rinv_0_lt_compat; lra).
  assert (0 < / (n2 - 1)) by (apply Rinv_0_lt_compat; lra).
  pose proof (Rle_0_sqr (v1 / n1)) as S1. pose proof (Rle_0_sqr (v2 / n2)) as S2.
  unfold Rsqr in S1, S2.
  assert (0 <= v1 / n1 * (v1 / n1) / (n1 - 1)) by (apply Rmult_le_pos; lra).
  assert (0 <= v2 / n2 * (v2 / n2) / (n2 - 1)) by (apply Rmult_le_pos; lra).
  lra.
Qed.

Lemma df_denominator_pos (v1 v2 n1 n2 : R) :
  1 < n1 → 1 < n2 → 0 <= v1 → 0 <= v2 → 0 < v1 / n1 + v2 / n2 →
  0 < df_denominator v1 v2 n1 n2.
Proof.
  intros Hn1 Hn2 Hv1 Hv2 Hs. unfold df_denominator.
  assert (0 < / (n1 - 1)) by (apply Rinv_0_lt_compat; lra).
  assert (0 < / (n2 - 1)) by (apply Rinv_0_lt_compat; lra).
  assert (0 < / n1) by (apply Rinv_0_lt_compat; lra).
  assert (0 < / n2) by (apply Rinv_0_lt_compat; lra).
  assert (0 <= v1 / n1) as A1 by (apply Rmult_le_pos; lra).
  assert (0 <= v2 / n2) as A2 by (apply Rmult_le_pos; lra).
  pose proof (Rle_0_sqr (v1 / n1)) as S1. pose proof (Rle_0_sqr (v2 / n2)) as S2.
  unfold Rsqr in S1, S2.
  assert (0 <= v1 / n1 * (v1 / n1) / (n1 - 1)) by (apply Rmult_le_pos; lra).
  assert (0 <= v2 / n2 * (v2 / n2) / (n2 - 1)) by (apply Rmult_le_pos; lra).
  destruct (Rle_lt_or_eq_dec _ _ A1) as [P1|Z1].
  - assert (0 < v1 / n1 * (v1 / n1) / (n1 - 1)); [|lra].
    apply Rmult_lt_0_compat; [|done]. by apply Rmult_lt_0_compat.
  - assert (0 < v2 / n2) as P2 by lra.
    assert (0 < v2 / n2 * (v2 / n2) / (n2 - 1)); [|lra].
    apply Rmult_lt_0_compat; [|done]. by apply Rmult_lt_0_compat.
Qed.

Lemma exact_welch_t (m1 m2 se : R) :
  0 <= se →
  welch_t (Real m1) (Real m2) (Real se)
  = (Math_abs (Real m1 - Real m2) / Real se)%num.
Proof.
  intros Hse. unfold welch_t.
  change (Real m1 - Real m2)%num with (Real (m1 - m2)).
  change (Math_abs (Real (m1 - m2))) with (Real (Rabs (m1 - m2))).
  destruct (decide (se = 0)) as [->|Hne].
  - by rewrite !exact_div_0.
  - rewrite !exact_div by done.
    change (Math_abs (Real ?a)) with (Real (Rabs a)). f_equal.
    unfold Rdiv. rewrite Rabs_mult, Rabs_inv. f_equal. f_equal.
    apply Rabs_pos_eq. lra.
Qed.

Lemma Rpower_ge_1 (b e : R) : 1 <= b → 0 <= e → 1 <= Rpower b e.
Proof.
  intros Hb He. rewrite <- (Rpower_O b) by lra. by apply Rle_Rpower.
Qed.

Lemma exact_pow_pos (b e : R) :
  0 < b → e ≠ 0 → Math_pow (Real b) (Real e) = Real (Rpower b e).
Proof.
  intros Hb He. simpl. destruct (decide (e = 0)); [done|].
  by destruct (decide (0 < b)).
Qed.

Lemma exact_pow_0_r (x : real) : Math_pow x (Real 0) = Real 1.
Proof. simpl. by destruct (decide (0 = 0)). Qed.

Lemma exact_pow_NotReal (e : R) : e ≠ 0 → Math_pow NotReal (Real e) = NotReal.
Proof. intros He. simpl. by destruct (decide (e = 0)). Qed.

(** [1 / Math.pow(b, e)] is [b] to the power [- e], for a defined base at
    least [1] or an undefined one. *)
Lemma reciprocal_pow (base exponent : real) :
  (base = NotReal ∨ ∃ b, base = Real b ∧ 1 <= b) →
  (number 1 / Math_pow base exponent)%num = Math_pow base (Spec.neg exponent).
Proof.
  intros Hb. change (number 1) with (Real (Q2R 1)). rewrite Q2R_lit_1.
  destruct exponent as [e|]; [|by destruct base].
  change (Spec.neg (Real e)) with (Real (- e)).
  destruct (decide (e = 0)) as [->|He].
  - rewrite Ropp_0, !exact_pow_0_r. rewrite exact_div by lra. f_equal. lra.
  - destruct Hb as [->|(b & -> & Hb)].
    + by rewrite !exact_pow_NotReal by lra.
    + rewrite !exact_pow_pos by lra.
      pose proof (exp_pos (e * ln b)) as Hpos. fold (Rpower b e) in Hpos.
      rewrite exact_div by lra. f_equal. rewrite Rpower_Ropp. lra.
Qed.

(** The base of the power in [welch_p]. *)
Lemma exact_p_base (t df : real) :
  (df = NotReal ∨ ∃ d, df = Real d ∧ 0 <= d) →
  let base := (number 1 + (t * t) / df)%num in
  base = NotReal ∨ ∃ b, base = Real b ∧ 1 <= b.
Proof.
  intros Hdf. cbv zeta. change (number 1) with (Real (Q2R 1)). rewrite Q2R_lit_1.
  destruct t as [t|]; [|by left].
  destruct Hdf as [->|(d & -> & Hd)]; [by left|].
  change (Real t * Real t)%num with (Real (t * t)).
  destruct (decide (d = 0)) as [->|Hne]; [rewrite exact_div_0; by left|].
  rewrite exact_div by done. right. eexists; split; [done|].
  pose proof (Rle_0_sqr t) as Hsq. unfold Rsqr in Hsq.
  assert (0 <= t * t / d); [|lra].
  apply Rmult_le_pos; [done|]. left. apply Rinv_0_lt_compat. lra.
Qed.

Lemma exact_welch_p (t df : real) :
  (df = NotReal ∨ ∃ d, df = Real d ∧ 0 <= d) →
  welch_p t df = Spec.p_value t df.
Proof.
  intros Hdf. unfold welch_p, Spec.p_value.
  assert (Spec.sq t = (t * t)%num) as ->.
  { destruct t as [t|]; [apply exact_sq|].
    unfold Spec.sq. change (number 2) with (Real (Q2R 2)).
    rewrite exact_pow_NotReal; [done | rewrite Q2R_lit_2; lra]. }
  apply reciprocal_pow. by apply exact_p_base.
Qed.

Lemma exact_df_range (v1 v2 n1 n2 : R) :
  1 < n1 → 1 < n2 →
  let df := welch_df (Real v1) (Real v2) (Real n1) (Real n2) in
  df = NotReal ∨ ∃ d, df = Real d ∧ 0 <= d.
Proof.
  intros Hn1 Hn2. cbv zeta. rewrite exact_welch_df by done.
  pose proof (df_denominator_nonneg v1 v2 n1 n2 Hn1 Hn2) as HD.
  destruct (decide (df_denominator v1 v2 n1 n2 = 0)) as [->|Hne].
  - left. apply exact_div_0.
  - right. rewrite exact_div by done. eexists; split; [done|].
    apply Rmult_le_pos; [apply Rle_0_sqr|]. left. apply Rinv_0_lt_compat. lra.
Qed.

(** In exact arithmetic, on two samples of at least two reals each,
    the constant [df] of [calculateStats] is the Welch–Satterthwaite value
    of the specification (with the Bessel-corrected variances), the field
    [t] is [|mean_a − mean_b| / sqrt (v_a/n_a + v_b/n_b)], and the field [p]
    is [(1 + t^2/df)^(−(df+1)/2)]: the source's [1 / Math.pow(x, e)] is [x]
    to the power [−e], and its [Math.abs(d / se)] is [|d| / se]. *)
Theorem calculateStats_welch (xs ys : list R) :
  (2 ≤ length xs)%nat → (2 ≤ length ys)%nat →
  let group_a := Real <$> xs in
  let group_b := Real <$> ys in
  let n_a := Spec.size group_a in
  let n_b := Spec.size group_b in
  let mean_a := Spec.mean group_a in
  let mean_b := Spec.mean group_b in
  let v_a := Spec.sample_variance group_a mean_a in
  let v_b := Spec.sample_variance group_b mean_b in
  let df := Spec.degrees_of_freedom v_a v_b n_a n_b in
  let t := Spec.t_statistic mean_a mean_b v_a v_b n_a n_b in
  stats_df group_a group_b = df
  ∧ calculateStats group_a group_b !! "t" = Some t
  ∧ calculateStats group_a group_b !! "p" = Some (Spec.p_value t df).
Proof.
  intros Ha Hb. cbv zeta.
  assert (1 < INR (length xs)) as Hna by (apply INR_length_pred_pos in Ha; lra).
  assert (1 < INR (length ys)) as Hnb by (apply INR_length_pred_pos in Hb; lra).
  rewrite calculateStats_past_guard by (by rewrite length_fmap).
  unfold stats_df, Spec.size. cbv zeta. rewrite !length_fmap.
  rewrite !exact_mean, !spec_mean, !exact_variance, !spec_variance by lia.
  fold (variance xs) (variance ys).
  change (of_length ?n) with (Real (INR n)).
  split; [done|].
  pose proof (variance_nonneg xs Ha). pose proof (variance_nonneg ys Hb).
  rewrite exact_welch_se by lra.
  rewrite exact_welch_t by apply sqrt_pos.
  unfold Spec.t_statistic.
  rewrite <- (exact_welch_se (variance xs) (variance ys)) by lra.
  split; [by rewrite lookup_insert_eq|].
  rewrite lookup_insert_ne, lookup_insert_eq by done. f_equal.
  apply exact_welch_p, exact_df_range; done.
Qed.

Lemma variance_zero_constant (xs : list R) :
  (2 ≤ length xs)%nat → variance xs = 0 → constant xs.
Proof.
  intros Hn Hv. destruct (decide (sum_sq (mean xs) xs = 0)) as [Hz|Hz].
  - apply sum_sq_zero in Hz. rewrite Forall_forall in Hz.
    intros x y Hx Hy. by rewrite (Hz x Hx), (Hz y Hy).
  - exfalso. unfold variance in Hv. apply INR_length_pred_pos in Hn.
    apply Rmult_integral in Hv as [Hv|Hv]; [done|].
    apply Rinv_0_lt_compat in Hn. lra.
Qed.

(** The standard error squared is positive unless both samples are
    constant. *)
Lemma se_squared_pos (xs ys : list R) :
  (2 ≤ length xs)%nat → (2 ≤ length ys)%nat → ¬ (constant xs ∧ constant ys) →
  0 < variance xs / INR (length xs) + variance ys / INR (length ys).
Proof.
  intros Ha Hb Hc.
  pose proof (variance_nonneg xs Ha) as Va. pose proof (variance_nonneg ys Hb) as Vb.
  assert (0 < / INR (length xs)) as Na by (apply Rinv_0_lt_compat, INR_length_pos; lia).
  assert (0 < / INR (length ys)) as Nb by (apply Rinv_0_lt_compat, INR_length_pos; lia).
  assert (0 <= variance xs / INR (length xs)) by (apply Rmult_le_pos; lra).
  assert (0 <= variance ys / INR (length ys)) by (apply Rmult_le_pos; lra).
  destruct (decide (variance xs = 0)) as [Za|Za].
  - destruct (decide (variance ys = 0)) as [Zb|Zb].
    + exfalso. apply Hc. split; by apply variance_zero_constant.
    + assert (0 < variance ys / INR (length ys)); [|lra].
      apply Rmult_lt_0_compat; lra.
  - assert (0 < variance xs / INR (length xs)); [|lra].
    apply Rmult_lt_0_compat; lra.
Qed.

(** The fields of the result, in real numbers, when the standard error
    is not zero. *)
Lemma exact_stats (xs ys : list R) :
  (2 ≤ length xs)%nat → (2 ≤ length ys)%nat → ¬ (constant xs ∧ constant ys) →
  let n1 := INR (length xs) in
  let n2 := INR (length ys) in
  let s := variance xs / n1 + variance ys / n2 in
  let t := Rabs ((mean xs - mean ys) / R_sqrt.sqrt s) in
  let df := s * s / df_denominator (variance xs) (variance ys) n1 n2 in
  let p := 1 / Rpower (1 + t * t / df) ((df + 1) / 2) in
  calculateStats (Real <$> xs) (Real <$> ys) !! "t" = Some (Real t)
  ∧ stats_df (Real <$> xs) (Real <$> ys) = Real df
  ∧ calculateStats (Real <$> xs) (Real <$> ys) !! "p" = Some (Real p)
  ∧ 0 < R_sqrt.sqrt s ∧ 0 < df.
Proof.
  intros Ha Hb Hc. cbv zeta.
  assert (1 < INR (length xs)) as Hna by (apply INR_length_pred_pos in Ha; lra).
  assert (1 < INR (length ys)) as Hnb by (apply INR_length_pred_pos in Hb; lra).
  pose proof (variance_nonneg xs Ha) as Va. pose proof (variance_nonneg ys Hb) as Vb.
  pose proof (se_squared_pos xs ys Ha Hb Hc) as Hs.
  pose proof (sqrt_lt_R0 _ Hs) as Hse.
  pose proof (df_denominator_pos _ _ _ _ Hna Hnb Va Vb Hs) as HD.
  set (s := variance xs / INR (length xs) + variance ys / INR (length ys)) in *.
  set (D := df_denominator _ _ _ _) in *.
  assert (0 < s * s / D) as Hdf.
  { apply Rmult_lt_0_compat; [by apply Rmult_lt_0_compat | by apply Rinv_0_lt_compat]. }
  rewrite calculateStats_past_guard by (by rewrite length_fmap).
  unfold stats_df. cbv zeta. rewrite !length_fmap.
  rewrite !exact_mean, !exact_variance by lia.
  fold (variance xs) (variance ys).
  change (of_length ?n) with (Real (INR n)).
  rewrite exact_welch_se by lra. fold s.
  rewrite exact_welch_df by done. fold s D.
  rewrite exact_div by lra.
  assert (welch_t (Real (mean xs)) (Real (mean ys)) (Real (R_sqrt.sqrt s))
          = Real (Rabs ((mean xs - mean ys) / R_sqrt.sqrt s))) as ->.
  { unfold welch_t. change (Real ?a - Real ?b)%num with (Real (a - b)).
    by rewrite exact_div by lra. }
  set (t := Rabs _).
  split; [by rewrite lookup_insert_eq|]. split; [done|].
  split; [|done].
  rewrite lookup_insert_ne, lookup_insert_eq by done. f_equal.
  unfold welch_p. change (number 1) with (Real (Q2R 1)).
  change (number 2) with (Real (Q2R 2)). rewrite Q2R_lit_1, Q2R_lit_2.
  change (Real t * Real t)%num with (Real (t * t)).
  rewrite exact_div by lra.
  change (Real ?a + Real ?b)%num with (Real (a + b)).
  rewrite exact_div by lra.
  assert (0 <= t * t / (s * s / D)) as Hq.
  { apply Rmult_le_pos; [apply Rle_0_sqr | left; by apply Rinv_0_lt_compat]. }
  rewrite exact_pow_pos by lra.
  pose proof (exp_pos ((s * s / D + 1) / 2 * ln (1 + t * t / (s * s / D)))) as Hpos.
  by rewrite exact_div by (unfold Rpower; lra).
Qed.

(** In exact arithmetic, on two samples of at least two reals each that
    are not both constant, [t], [df] and [p] are real numbers
    with [t >= 0], [df > 0] and [0 < p <= 1]. *)
Theorem calculateStats_ranges (xs ys : list R) :
  (2 ≤ length xs)%nat → (2 ≤ length ys)%nat → ¬ (constant xs ∧ constant ys) →
  ∃ t df p : R,
    calculateStats (Real <$> xs) (Real <$> ys) !! "t" = Some (Real t)
    ∧ stats_df (Real <$> xs) (Real <$> ys) = Real df
    ∧ calculateStats (Real <$> xs) (Real <$> ys) !! "p" = Some (Real p)
    ∧ 0 <= t ∧ 0 < df ∧ 0 < p <= 1.
Proof.
  intros Ha Hb Hc.
  destruct (exact_stats xs ys Ha Hb Hc) as (Ht & Hdf & Hp & Hse & Hpos).
  cbv zeta in *. eexists _, _, _. split; [exact Ht|]. split; [exact Hdf|].
  split; [exact Hp|]. split; [apply Rabs_pos|]. split; [done|].
  set (t := Rabs _). set (df := _ * _ / _) in *.
  assert (0 <= t * t / df) as Hq.
  { apply Rmult_le_pos; [apply Rle_0_sqr | left; by apply Rinv_0_lt_compat]. }
  pose proof (Rpower_ge_1 (1 + t * t / df) ((df + 1) / 2)) as Hge.
  assert (1 <= Rpower (1 + t * t / df) ((df + 1) / 2)) as H1 by (apply Hge; lra).
  split.
  - apply Rdiv_lt_0_compat; lra.
  - pose proof (Rinv_le_contravar 1 _ Rlt_0_1 H1) as Hinv.
    rewrite Rinv_1 in Hinv. unfold Rdiv. lra.
Qed.

(** In exact arithmetic, on a sample of at least two reals that is not
    constant, passed as both groups, [t] is [0] and [p] is [1]. *)
Theorem calculateStats_same_sample (xs : list R) :
  (2 ≤ length xs)%nat → ¬ constant xs →
  calculateStats (Real <$> xs) (Real <$> xs) !! "t" = Some (Real 0)
  ∧ calculateStats (Real <$> xs) (Real <$> xs) !! "p" = Some (Real 1).
Proof.
  intros Hn Hc.
  destruct (exact_stats xs xs Hn Hn) as (Ht & Hdf & Hp & Hse & Hpos); [tauto|].
  cbv zeta in *. rewrite Ht, Hp.
  assert (Rabs ((mean xs - mean xs) / R_sqrt.sqrt
            (variance xs / INR (length xs) + variance xs / INR (length xs))) = 0) as ->.
  { replace (mean xs - mean xs) with 0 by lra. unfold Rdiv. by rewrite Rmult_0_l, Rabs_R0. }
  split; [done|]. f_equal. f_equal.
  replace (1 + 0 * 0 / _) with 1 by (unfold Rdiv; lra).
  unfold Rpower. rewrite ln_1, Rmult_0_r, exp_0. lra.
Qed.
End Exact_facts.


(** ** [getQuartiles] and the store *)

Section Quartiles_store.
Context {num : Type} {N : Number num}.
Local Open Scope num_scope.

Lemma spread_fresh (data : loc) (h : heap num) : h !! (spread data h).1 = None.
Proof. simpl. apply not_elem_of_dom, is_fresh. Qed.

Lemma getQuartiles_nonempty (data : loc) (h : heap num) (arr : list num) :
  h !! data = Some arr → arr ≠ [] →
  getQuartiles (Some data) h
  = (summary_of (sort_by (λ a b, a - b) arr),
     <[fresh (dom h) := sort_by (λ a b, a - b) arr]> h).
Proof.
  intros Hd Hne. unfold getQuartiles. rewrite Hd. simpl.
  destruct (decide (length arr = 0%nat)) as [Hz|_].
  { by destruct arr. }
  rewrite alter_insert_eq, lookup_insert_eq. simpl. by rewrite Hd.
Qed.

Lemma getQuartiles_empty (data : loc) (h : heap num) :
  default [] (h !! data) = [] → getQuartiles (Some data) h = (zeros, h).
Proof.
  intros He. unfold getQuartiles. rewrite He. simpl. done.
Qed.

(** C10.  [getQuartiles] leaves its argument as it was: after the call the
    array [data] has the contents it had before, and so has every other
    array of the store (the call only adds the sorted copy). *)
Theorem getQuartiles_frame (data : loc) (h : heap num) :
  (getQuartiles (Some data) h).2 !! data = h !! data
  ∧ h ⊆ (getQuartiles (Some data) h).2.
Proof.
  destruct (decide (default [] (h !! data) = [])) as [He|Hne].
  { by rewrite getQuartiles_empty. }
  destruct (h !! data) as [arr|] eqn:Hd; [|done]. simpl in Hne.
  rewrite (getQuartiles_nonempty data h arr) by done. simpl.
  pose proof (spread_fresh data h) as Hf. simpl in Hf.
  split; [|by apply insert_subseteq].
  rewrite lookup_insert_ne; [done|]. intros Heq. rewrite Heq in Hf. congruence.
Qed.

(** The sort is done in the store, on the copy. *)
Lemma getQuartiles_sorts_copy (data : loc) (h : heap num) (arr : list num) :
  h !! data = Some arr → arr ≠ [] →
  (getQuartiles (Some data) h).2 !! fresh (dom h)
  = Some (sort_by (λ a b, a - b) arr).
Proof.
  intros Hd Hne. rewrite (getQuartiles_nonempty data h arr) by done.
  apply lookup_insert_eq.
Qed.
End Quartiles_store.

(** ** [getQuartiles] in exact arithmetic *)

Section Exact_quartiles.
Import Exact RealStats.
Local Open Scope R_scope.

Lemma exact_insert (a : R) (ys : list R) :
  insert_by (λ a b, a - b)%num (Real a) (Real <$> ys) = Real <$> insert a ys.
Proof.
  induction ys as [|b ys IH]; [done|].
  rewrite fmap_cons. cbn [insert_by insert].
  change (num_pos (Real a - Real b)%num) with (bool_decide (0 < a - b)).
  destruct (decide (0 < a - b)) as [Hlt|Hge].
  - rewrite bool_decide_eq_true_2 by done. by rewrite IH.
  - by rewrite bool_decide_eq_false_2 by done.
Qed.

Lemma exact_sort (xs : list R) :
  sort_by (λ a b, a - b)%num (Real <$> xs) = Real <$> sort xs.
Proof.
  induction xs as [|x xs IH]; [done|].
  rewrite fmap_cons. unfold sort_by, sort in *. cbn [foldr].
  by rewrite IH, exact_insert.
Qed.

Lemma length_insert_sorted (a : R) (ys : list R) : length (insert a ys) = S (length ys).
Proof.
  induction ys as [|b ys IH]; [done|]. simpl.
  destruct (decide (0 < a - b)); simpl; by rewrite ?IH.
Qed.

Lemma length_sort (xs : list R) : length (sort xs) = length xs.
Proof.
  induction xs as [|x xs IH]; [done|]. unfold sort in *. simpl.
  by rewrite length_insert_sorted, IH.
Qed.

Lemma insert_Sorted (a : R) (ys : list R) : Sorted Rle ys → Sorted Rle (insert a ys).
Proof.
  induction 1 as [|b ys Hs IH Hhd]; simpl.
  - by repeat constructor.
  - destruct (decide (0 < a - b)) as [Hlt|Hge].
    + constructor; [done|].
      destruct ys as [|c ys]; simpl.
      * constructor. lra.
      * inversion Hhd; subst. destruct (decide (0 < a - c)); constructor; lra.
    + constructor; [by constructor|]. constructor. lra.
Qed.

Lemma sort_Sorted (xs : list R) : Sorted Rle (sort xs).
Proof.
  induction xs as [|x xs IH]; [constructor|]. by apply insert_Sorted.
Qed.

Lemma Sorted_ascending (ys : list R) : Sorted Rle ys → ascending ys.
Proof.
  intros Hs. apply Sorted_StronglySorted in Hs; [|intros x y z; apply Rle_trans].
  induction Hs as [|c ys Hs IH Hall]; intros i j a b Hij Hi Hj; [done|].
  destruct i as [|i], j as [|j]; simpl in *; simplify_eq.
  - lra.
  - rewrite List.Forall_forall in Hall. apply Hall.
    apply list_elem_of_In. by eapply list_elem_of_lookup_2.
  - lia.
  - eapply IH; [|done..]. lia.
Qed.

Lemma sort_ascending (xs : list R) : ascending (sort xs).
Proof. apply Sorted_ascending, sort_Sorted. Qed.

Lemma Int_part_nonneg (p : R) : 0 <= p → (0 ≤ Int_part p)%Z.
Proof.
  intros Hp. destruct (base_Int_part p) as [_ Hlt].
  assert (IZR (-1) < IZR (Int_part p)) as H by (simpl; lra).
  apply lt_IZR in H. lia.
Qed.

Lemma Int_part_mono (p1 p2 : R) : p1 <= p2 → (Int_part p1 ≤ Int_part p2)%Z.
Proof.
  intros Hp. destruct (base_Int_part p1) as [H1 _], (base_Int_part p2) as [_ H2].
  assert (IZR (Int_part p1) < IZR (Int_part p2 + 1)) as H by (rewrite plus_IZR; lra).
  apply lt_IZR in H. lia.
Qed.

(** The index below a rank within the list. *)
Lemma rank_index (ys : list R) (p : R) :
  0 <= p <= INR (length ys) - 1 →
  (Z.to_nat (Int_part p) < length ys)%nat
  ∧ IZR (Int_part p) = INR (Z.to_nat (Int_part p)).
Proof.
  intros [H0 Hn]. pose proof (Int_part_nonneg p H0) as Hz.
  destruct (base_Int_part p) as [Hle _].
  assert (IZR (Int_part p) = INR (Z.to_nat (Int_part p))) as Heq.
  { by rewrite INR_IZR_INZ, Z2Nat.id. }
  split; [|done]. apply INR_lt. rewrite <- Heq. lra.
Qed.

Lemma exact_getValue (ys : list R) (p : R) :
  0 <= p <= INR (length ys) - 1 →
  getValue (Real <$> ys) (Real p) = Some (Real (interpolate ys p)).
Proof.
  intros Hp. destruct (rank_index ys p Hp) as [Hi _].
  pose proof (Int_part_nonneg p (proj1 Hp)) as Hz.
  unfold getValue, interpolate, read.
  change (Math_floor (Real p)) with (Real (IZR (Int_part p))).
  change (Real ?a + number 1)%num with (Real (a + Q2R 1)).
  rewrite Q2R_lit_1, <- plus_IZR.
  change (index_of (Real (IZR ?z))) with (Exact.to_index (Real (IZR z))).
  unfold Exact.to_index. rewrite !integral_IZR.
  destruct (Z.leb_spec 0 (Int_part p + 1)); [|lia].
  destruct (Z.leb_spec 0 (Int_part p)); [|lia].
  cbn [mbind option_bind].
  replace (Z.to_nat (Int_part p + 1)) with (S (Z.to_nat (Int_part p))) by lia.
  rewrite !list_lookup_fmap.
  destruct (lookup_lt_is_Some_2 ys _ Hi) as [b Hb].
  rewrite Hb. rewrite (nth_lookup_Some _ _ 0 _ Hb).
  by destruct (ys !! S _).
Qed.

Section Interpolation.
Variable ys : list R.
Hypothesis Hasc : ascending ys.

Lemma interpolate_lower (p : R) :
  0 <= p <= INR (length ys) - 1 →
  ∃ b, ys !! Z.to_nat (Int_part p) = Some b ∧ b <= interpolate ys p.
Proof.
  intros Hp. destruct (rank_index ys p Hp) as [Hi _].
  destruct (lookup_lt_is_Some_2 ys _ Hi) as [b Hb].
  exists b. split; [done|]. unfold interpolate. rewrite (nth_lookup_Some _ _ 0 _ Hb).
  destruct (ys !! S _) as [next|] eqn:Hnext; [|lra].
  assert (b <= next) by (eapply Hasc; [|done..]; lia).
  destruct (base_Int_part p).
  assert (0 <= (p - IZR (Int_part p)) * (next - b)) by (apply Rmult_le_pos; lra). lra.
Qed.

Lemma interpolate_upper (p : R) (j : nat) (c : R) :
  0 <= p <= INR (length ys) - 1 →
  (Z.to_nat (Int_part p) < j)%nat → ys !! j = Some c → interpolate ys p <= c.
Proof.
  intros Hp Hj Hc. destruct (rank_index ys p Hp) as [Hi _].
  destruct (lookup_lt_is_Some_2 ys _ Hi) as [b Hb].
  unfold interpolate. rewrite (nth_lookup_Some _ _ 0 _ Hb).
  destruct (ys !! S _) as [next|] eqn:Hnext.
  - assert (b <= next) by (eapply Hasc; [|done..]; lia).
    assert (next <= c) by (eapply Hasc; [|done..]; lia).
    destruct (base_Int_part p).
    assert ((p - IZR (Int_part p)) * (next - b) <= 1 * (next - b)).
    { apply Rmult_le_compat_r; lra. }
    lra.
  - eapply Hasc; [|done..]. lia.
Qed.

Lemma interpolate_mono (p1 p2 : R) :
  0 <= p1 → p1 <= p2 → p2 <= INR (length ys) - 1 →
  interpolate ys p1 <= interpolate ys p2.
Proof.
  intros H0 H12 Hn.
  pose proof (Int_part_mono p1 p2 H12) as Hz.
  pose proof (Int_part_nonneg p1 H0) as Hz1.
  destruct (interpolate_lower p2) as (b2 & Hb2 & Hlow); [lra|].
  destruct (decide (Int_part p1 = Int_part p2)) as [Heq|Hne].
  - unfold interpolate. rewrite Heq. rewrite (nth_lookup_Some _ _ 0 _ Hb2).
    destruct (ys !! S _) as [next|] eqn:Hnext; [|lra].
    assert (b2 <= next) by (eapply Hasc; [|done..]; lia).
    assert ((p1 - IZR (Int_part p2)) * (next - b2) <= (p2 - IZR (Int_part p2)) * (next - b2)).
    { apply Rmult_le_compat_r; lra. }
    lra.
  - etrans; [|exact Hlow]. eapply interpolate_upper; [lra| |done]. lia.
Qed.

Lemma interpolate_first (a : R) (p : R) :
  0 <= p <= INR (length ys) - 1 → ys !! 0%nat = Some a → a <= interpolate ys p.
Proof.
  intros Hp Ha. destruct (interpolate_lower p Hp) as (b & Hb & Hlow).
  etrans; [|exact Hlow]. eapply Hasc; [|done..]. lia.
Qed.

Lemma interpolate_last (c : R) (p : R) :
  0 <= p <= INR (length ys) - 1 → ys !! (length ys - 1)%nat = Some c →
  interpolate ys p <= c.
Proof.
  intros Hp Hc. destruct (rank_index ys p Hp) as [Hi _].
  destruct (decide (Z.to_nat (Int_part p) = length ys - 1)%nat) as [Heq|Hne].
  - unfold interpolate. rewrite Heq.
    rewrite (nth_lookup_Some _ _ 0 _ Hc).
    rewrite lookup_ge_None_2 by lia. lra.
  - eapply interpolate_upper; [done| |done]. lia.
Qed.
End Interpolation.

(** In exact arithmetic, on a non-empty sample of reals, the five fields of the summary are real numbers with
    [min <= q1 <= median <= q3 <= max]. *)
Theorem getQuartiles_ordered (h : heap real) (data : loc) (xs : list R) :
  h !! data = Some (Real <$> xs) → xs ≠ [] →
  ∃ min q1 median q3 max : R,
    (getQuartiles (Some data) h).1
    = Summary.make (Some (Real min)) (Some (Real q1)) (Some (Real median))
        (Some (Real q3)) (Some (Real max))
    ∧ min <= q1 ∧ q1 <= median ∧ median <= q3 ∧ q3 <= max.
Proof.
  intros Hd Hne.
  rewrite (getQuartiles_nonempty data h (Real <$> xs)) by (by destruct xs).
  cbn [fst]. rewrite exact_sort. unfold summary_of. rewrite length_fmap.
  set (ys := sort xs).
  assert (1 ≤ length ys)%nat as Hlen.
  { unfold ys. rewrite length_sort. destruct xs; [done | simpl; lia]. }
  pose proof (sort_ascending xs) as Hasc. fold ys in Hasc.
  change (of_length (length ys) - number 1)%num with (Real (INR (length ys) - Q2R 1)).
  change (Real ?a * number ?q)%num with (Real (a * Q2R q)).
  rewrite Q2R_lit_1, Q2R_lit_quarter, Q2R_lit_half, Q2R_lit_three_quarters.
  assert (0 <= INR (length ys) - 1) as Hn by (apply le_INR in Hlen; simpl in Hlen; lra).
  rewrite !exact_getValue by lra.
  rewrite !list_lookup_fmap.
  destruct (lookup_lt_is_Some_2 ys 0) as [a Ha]; [lia|].
  destruct (lookup_lt_is_Some_2 ys (length ys - 1)) as [c Hc]; [lia|].
  rewrite Ha, Hc. eexists _, _, _, _, _. split; [done|].
  split; [eapply interpolate_first; [done| lra | done]|].
  split; [apply interpolate_mono; [done|lra..]|].
  split; [apply interpolate_mono; [done|lra..]|].
  eapply interpolate_last; [done | lra | done].
Qed.
End Exact_quartiles.


(** ** The record extractor *)

Section Extractor.
Local Open Scope string_scope.

Lemma split_nonempty (sep : ascii) (s : string) : Text.split sep s ≠ [].
Proof.
  destruct s as [|c s]; simpl; [done|].
  destruct (Ascii.eqb c sep); [done|]. by destruct (Text.split sep s).
Qed.

Lemma split_no_separator (sep : ascii) (s : string) :
  Text.occurs sep s = false → Text.split sep s = [s].
Proof.
  induction s as [|c s IH]; simpl; [done|].
  intros [Hc Hs]%orb_false_iff. rewrite Hc. by rewrite IH.
Qed.

(** Appending a line to a text appends it to the lines. *)
Lemma split_append_line (sep : ascii) (s line : string) :
  Text.occurs sep line = false →
  Text.split sep (s ++ String sep line) = (Text.split sep s ++ [line])%list.
Proof.
  intros Hline. induction s as [|c s IH]; simpl.
  - by rewrite Ascii.eqb_refl, split_no_separator.
  - destruct (Ascii.eqb c sep); [by rewrite IH|].
    rewrite IH. pose proof (split_nonempty sep s).
    by destruct (Text.split sep s).
Qed.

Lemma addData_lookup (row : list string) (metric : string) (idx1 idx2 : nat)
    (parsed : gmap string Metric) :
  addData row metric idx1 idx2 parsed !! metric
  = append_fields row idx1 idx2 <$> parsed !! metric.
Proof.
  unfold addData, append_fields, contribution.
  destruct (parseVal (row !! idx1)) as [v1|], (parseVal (row !! idx2)) as [v2|];
    rewrite ?lookup_alter_eq; destruct (parsed !! metric) as [[g1 g2 u]|]; simpl;
    by rewrite ?app_nil_r.
Qed.

Lemma addData_lookup_ne (row : list string) (metric other : string) (idx1 idx2 : nat)
    (parsed : gmap string Metric) :
  metric ≠ other →
  addData row metric idx1 idx2 parsed !! other = parsed !! other.
Proof.
  intros Hne. unfold addData.
  destruct (parseVal (row !! idx1)), (parseVal (row !! idx2));
    by rewrite ?lookup_alter_ne.
Qed.

Lemma parseCSV_line_short (line : string) (parsed : gmap string Metric) :
  (length (Text.split "," line) < 10)%nat → parseCSV_line line parsed = parsed.
Proof.
  intros Hn. unfold parseCSV_line.
  by destruct (Nat.ltb_spec (length (Text.split "," line)) 10); [|lia].
Qed.

Lemma parseCSV_line_columns (line : string) (parsed : gmap string Metric)
    (metric : string) (idx1 idx2 : nat) :
  (10 ≤ length (Text.split "," line))%nat →
  (metric, idx1, idx2) ∈ columns →
  parseCSV_line line parsed !! metric
  = append_fields (Text.split "," line) idx1 idx2 <$> parsed !! metric.
Proof.
  intros Hn Hc. unfold parseCSV_line.
  destruct (Nat.ltb_spec (length (Text.split "," line)) 10); [lia|].
  unfold columns in Hc. cbv zeta.
  rewrite !elem_of_cons, elem_of_nil in Hc.
  destruct Hc as [[= -> -> ->]|[[= -> -> ->]|[[= -> -> ->]|[[= -> -> ->]|[[= -> -> ->]|[]]]]]].
  all: repeat first [ rewrite addData_lookup | rewrite addData_lookup_ne by discriminate ].
  all: done.
Qed.

Lemma parseCSV_append_line (csvText line : string) :
  Text.occurs newline line = false →
  (5 ≤ length (Text.split newline csvText))%nat →
  parseCSV (csvText ++ String newline line) = parseCSV_line line (parseCSV csvText).
Proof.
  intros Hline Hn. unfold parseCSV. fold newline.
  rewrite split_append_line by done.
  rewrite drop_app_le by done. by rewrite fold_left_app.
Qed.


Lemma parseVal_not_NaN (val : option string) (v : float) :
  parseVal val = Some v → not_NaN v.
Proof.
  unfold parseVal, isNaN, not_NaN.
  destruct (is_nan (parseFloat val)) eqn:Hnan; [done|]. by intros [= <-].
Qed.

Lemma contribution_not_NaN (val : option string) : Forall not_NaN (contribution val).
Proof.
  unfold contribution. destruct (parseVal val) as [v|] eqn:Hv; [|constructor].
  constructor; [by eapply parseVal_not_NaN | constructor].
Qed.


Lemma addData_not_NaN (row : list string) (metric : string) (idx1 idx2 : nat)
    (parsed : gmap string Metric) :
  map_Forall (λ _, samples_all not_NaN) parsed →
  map_Forall (λ _, samples_all not_NaN) (addData row metric idx1 idx2 parsed).
Proof.
  intros Hall other m Hm.
  destruct (decide (metric = other)) as [<-|Hne].
  - rewrite addData_lookup in Hm.
    destruct (parsed !! metric) as [m0|] eqn:H0; [|done].
    injection Hm as <-. destruct (Hall _ _ H0) as [H1 H2].
    split; simpl; apply Forall_app; split; auto using contribution_not_NaN.
  - rewrite addData_lookup_ne in Hm by done. by eapply Hall.
Qed.

Lemma parseCSV_line_not_NaN (line : string) (parsed : gmap string Metric) :
  map_Forall (λ _, samples_all not_NaN) parsed →
  map_Forall (λ _, samples_all not_NaN) (parseCSV_line line parsed).
Proof.
  intros Hall. unfold parseCSV_line.
  destruct (_ <? _)%nat; [done|]. cbv zeta. by repeat apply addData_not_NaN.
Qed.

(** C9, amended.  For every input text, no element of any sample of
    [parseCSV] is [NaN].  (An element may be infinite.) *)
Theorem parseCSV_not_NaN (csvText : string) :
  map_Forall (λ _, samples_all not_NaN) (parseCSV csvText).
Proof.
  unfold parseCSV. generalize (drop 5 (Text.split newline csvText)). intros lines.
  assert (map_Forall (λ _, samples_all not_NaN) parsed_init) as Hinit.
  { unfold parsed_init. repeat (apply map_Forall_insert_2; [by split|]).
    apply map_Forall_empty. }
  revert Hinit. generalize parsed_init.
  induction lines as [|line lines IH]; intros parsed Hall; simpl; [done|].
  by apply IH, parseCSV_line_not_NaN.
Qed.

Lemma addData_dom (row : list string) (metric : string) (idx1 idx2 : nat)
    (parsed : gmap string Metric) :
  dom (addData row metric idx1 idx2 parsed) = dom parsed.
Proof.
  unfold addData.
  destruct (parseVal (row !! idx1)), (parseVal (row !! idx2)); by rewrite ?dom_alter_L.
Qed.

Lemma parseCSV_line_dom (line : string) (parsed : gmap string Metric) :
  dom (parseCSV_line line parsed) = dom parsed.
Proof.
  unfold parseCSV_line. destruct (_ <? _)%nat; [done|]. cbv zeta.
  by rewrite !addData_dom.
Qed.

(** X4.  For every text, the result of [parseCSV] has exactly the five
    metrics as its keys. *)
Lemma parseCSV_metrics (csvText : string) :
  dom (parseCSV csvText) = list_to_set metrics.
Proof.
  unfold parseCSV. generalize (drop 5 (Text.split newline csvText)). intros lines.
  assert (dom parsed_init = list_to_set metrics) as <-.
  { unfold parsed_init, metrics. rewrite !dom_insert_L, dom_singleton_L. simpl. set_solver. }
  generalize parsed_init.
  induction lines as [|line lines IH]; intros parsed; simpl; [done|].
  by rewrite IH, parseCSV_line_dom.
Qed.

(** X3.  A row of fewer than ten fields, read after a text of at least five
    lines, changes nothing. *)
Lemma parseCSV_short_row (csvText line : string) :
  Text.occurs newline line = false →
  (5 ≤ length (Text.split newline csvText))%nat →
  (length (Text.split "," line) < 10)%nat →
  parseCSV (csvText ++ String newline line) = parseCSV csvText.
Proof.
  intros Hline Hn Hrow. rewrite parseCSV_append_line by done.
  by apply parseCSV_line_short.
Qed.
End Extractor.


(** ** The result object of [calculateStats] *)

Section Stats_fields.
Context {num : Type} {N : Number num}.

Lemma calculateStats_fields (group1 group2 : list num) (k : string) :
  is_Some (calculateStats group1 group2 !! k) → k ∈ stats_fields.
Proof.
  unfold stats_fields.
  destruct (le_lt_dec 2 (length group1)), (le_lt_dec 2 (length group2)).
  2-4: rewrite calculateStats_guard by lia.
  1: rewrite calculateStats_past_guard by lia; cbv zeta.
  all: rewrite !lookup_insert_is_Some', lookup_singleton_is_Some.
  all: rewrite !elem_of_cons; intuition auto.
Qed.
End Stats_fields.

Section JS_engine.
Variable approx : float → float → float.
Let J := js_number approx.
Local Existing Instance J.

(** C3.  When a group has fewer than two elements, [calculateStats]
    returns the object [{ p: 1, t: 0 }]. *)
Theorem calculateStats_degenerate (group1 group2 : list float) :
  (length group1 < 2 ∨ length group2 < 2)%nat →
  calculateStats group1 group2 = {[ "p" := 1%float; "t" := 0%float ]}.
Proof. intros Hn. by rewrite calculateStats_guard. Qed.

(** C2, amended.  On two groups of at least two elements, the result has
    exactly the four fields [t], [p], [m1] and [m2]: the two means, the t
    statistic and the p-value, which is computed from the constant [df];
    [df] itself is no field of the result. *)
Theorem calculateStats_exposes (group1 group2 : list float) :
  (2 ≤ length group1)%nat → (2 ≤ length group2)%nat →
  let m1 := calculateMean group1 in
  let m2 := calculateMean group2 in
  let v1 := calculateVariance group1 m1 in
  let v2 := calculateVariance group2 m2 in
  let n1 := of_length (length group1) in
  let n2 := of_length (length group2) in
  let t := welch_t m1 m2 (welch_se v1 v2 n1 n2) in
  let result := calculateStats group1 group2 in
  dom result = list_to_set stats_fields
  ∧ result !! "m1" = Some m1 ∧ result !! "m2" = Some m2
  ∧ result !! "t" = Some t
  ∧ result !! "p" = Some (welch_p t (stats_df group1 group2)).
Proof.
  intros H1 H2. cbv zeta. rewrite calculateStats_past_guard by done. cbv zeta.
  split; [rewrite !dom_insert_L, dom_singleton_L; simpl; set_solver|].
  split; [by rewrite !lookup_insert_ne, lookup_insert_eq by done|].
  split; [by rewrite !lookup_insert_ne, lookup_singleton_eq by done|].
  split; [by rewrite lookup_insert_eq|].
  by rewrite lookup_insert_ne, lookup_insert_eq by done.
Qed.

(** X2.  On JavaScript numbers the field [t] is never negative: [t < 0] is
    false for all arrays (and [t] may be [NaN]). *)
Lemma calculateStats_t_not_negative (group1 group2 : list float) :
  ∃ t, calculateStats group1 group2 !! "t" = Some t ∧ (t <? 0)%float = false.
Proof.
  destruct (le_lt_dec 2 (length group1)) as [H1|H1], (le_lt_dec 2 (length group2)) as [H2|H2].
  2-4: rewrite calculateStats_guard by lia; by eexists.
  rewrite calculateStats_past_guard by done. cbv zeta.
  eexists. split; [by rewrite lookup_insert_eq|]. apply abs_not_negative.
Qed.
End JS_engine.

(** ** Inputs on which claims of the specification fail *)

Section Failing_inputs.
Local Open Scope string_scope.

(** C2, as stated, fails: on [[1, 2]] and [[3, 5]] no field of the result
    besides [t], [p], [m1] and [m2] holds the degrees of freedom. *)
Lemma calculateStats_hides_df :
  ¬ exposes_besides stats_fields
      (calculateStats (N := engine) [1; 2]%float [3; 5]%float)
      (stats_df (N := engine) [1; 2]%float [3; 5]%float).
Proof.
  intros (k & Hk & Hdf). apply Hk.
  apply (calculateStats_fields (N := engine) [1; 2]%float [3; 5]%float).
  by rewrite Hdf.
Qed.



(** The same, whatever the engine's [Math.pow]. *)
Lemma calculateStats_zero_variance_any (approx : float → float → float) :
  calculateStats (N := js_number approx) [1; 1]%float [1; 1]%float
  = {[ "t" := nan; "p" := nan; "m1" := 1%float; "m2" := 1%float ]}.
Proof. by vm_compute. Qed.

(** C5, as stated, fails: on the constant sample [[5, 5, 5]] passed as both
    groups, [t] and [p] are [NaN]. *)
Lemma calculateStats_same_constant :
  let result := calculateStats (N := engine) [5; 5; 5]%float [5; 5; 5]%float in
  result !! "t" = Some nan ∧ result !! "p" = Some nan
  ∧ (nan =? 0)%float = false ∧ (nan =? 1)%float = false.
Proof. by vm_compute. Qed.

(** C7, as stated, fails: on the sample [[2^1023, −2^1023]] of finite
    numbers the difference of the two elements overflows, and [q1], [median]
    and [q3] are [Infinity], above [max]. *)
Lemma getQuartiles_overflow :
  let sample := [0x1p1023; -0x1p1023]%float in
  let result := (getQuartiles (N := engine) (Some 1%positive) {[ 1%positive := sample ]}).1 in
  Forall (λ x, is_finite x = true) sample
  ∧ Summary.q1 result = Some infinity
  ∧ Summary.median result = Some infinity
  ∧ Summary.q3 result = Some infinity
  ∧ Summary.max result = Some 0x1p1023%float
  ∧ (infinity <=? 0x1p1023)%float = false.
Proof. vm_compute. repeat split; by repeat constructor. Qed.

(** C9, as stated, fails: the fields [Infinity], [1e999] and [-Infinity]
    parse to infinite numbers, which [isNaN] lets through. *)
Lemma parseCSV_infinite :
  let csvText := preamble ++ String newline ",Infinity,1e999,9,8,46,44,41,41,,4.309,-Infinity" in
  group1 <$> parseCSV csvText !! "Ball Size" = Some [infinity]
  ∧ group2 <$> parseCSV csvText !! "Ball Size" = Some [infinity]
  ∧ group2 <$> parseCSV csvText !! "BPT" = Some [neg_infinity]
  ∧ is_finite infinity = false ∧ is_finite neg_infinity = false.
Proof. by vm_compute. Qed.
End Failing_inputs.

(** ** The same sample twice, in binary64 *)

Section JS_same_sample.
Variable approx : float → float → float.
Hypothesis approx_one : ∀ e, is_finite e = true → approx 1 e = 1%float.
Let J := js_number approx.
Local Existing Instance J.

(** X1.  On JavaScript numbers, a sample of at least two elements passed as
    both groups gives [t = 0] and [p = 1] when its mean is finite, the
    standard error and [df] are neither zero nor [NaN], and [(df + 1) / 2]
    is finite, for an engine whose [Math.pow(1, y)] is [1]. *)
Lemma calculateStats_same_sample_js (s : list float) :
  (2 ≤ length s)%nat →
  let m := calculateMean s in
  let v := calculateVariance s m in
  let n := of_length (length s) in
  let se := welch_se v v n n in
  let df := welch_df v v n n in
  is_finite m = true →
  is_nan se = false → is_zero se = false →
  is_nan df = false → is_zero df = false →
  is_finite ((df + 1) / 2)%float = true →
  calculateStats s s = {[ "t" := 0%float; "p" := 1%float; "m1" := m; "m2" := m ]}.
Proof.
  intros Hn. cbv zeta. intros Hm Hse1 Hse2 Hdf1 Hdf2 He.
  rewrite calculateStats_past_guard by done. cbv zeta.
  unfold welch_t, welch_p.
  change (@num_sub _ J) with PrimFloat.sub. change (@num_div _ J) with PrimFloat.div.
  change (@num_add _ J) with PrimFloat.add. change (@num_mul _ J) with PrimFloat.mul.
  change (@Math_abs _ J) with PrimFloat.abs.
  change (@Math_pow _ J) with (Binary64.pow approx).
  change (@number _ J 1%Q) with 1%float. change (@number _ J 2%Q) with 2%float.
  rewrite float_sub_diag by done. rewrite abs_zero_div by done.
  change (0 * 0)%float with 0%float.
  rewrite one_plus_zero_div by done.
  rewrite pow_one by auto. done.
Qed.

End JS_same_sample.

(** ** Samples with a number that is not finite, in binary64 *)

Section Not_finite.
Import Binary64.
Local Open Scope float_scope.

(** Rounding keeps a mantissa that is not negative so. *)
Lemma shr_1_nonneg (mrs : shr_record) : (0 ≤ shr_m mrs)%Z → (0 ≤ shr_m (shr_1 mrs))%Z.
Proof. destruct mrs as [[|[p|p|]|p] r s]; simpl; lia. Qed.

Lemma iter_shr_1_nonneg (p : positive) (mrs : shr_record) :
  (0 ≤ shr_m mrs)%Z → (0 ≤ shr_m (SpecFloat.iter_pos shr_1 p mrs))%Z.
Proof.
  revert mrs. induction p as [p IH|p IH|]; intros mrs Hm; simpl.
  - by apply IH, IH, shr_1_nonneg.
  - by apply IH, IH.
  - by apply shr_1_nonneg.
Qed.

Lemma shr_fexp_nonneg (m e : Z) (l : location) :
  (0 ≤ m)%Z → (0 ≤ shr_m (shr_fexp prec emax m e l).1)%Z.
Proof.
  intros Hm. unfold shr_fexp, shr.
  assert (0 ≤ shr_m (shr_record_of_loc m l))%Z as Hr by (by destruct l as [|[]]).
  destruct (_ - e)%Z; [done | | done]. by apply iter_shr_1_nonneg.
Qed.

(** The sign of a rounded number is the sign given. *)
Lemma binary_round_aux_sign s m e l :
  (0 ≤ m)%Z →
  match binary_round_aux prec emax s m e l with
  | S754_zero s' | S754_infinity s' | S754_finite s' _ _ => s' = s
  | S754_nan => False
  end.
Proof.
  intros Hm. unfold binary_round_aux.
  pose proof (shr_fexp_nonneg m e l Hm) as H1.
  destruct (shr_fexp prec emax m e l) as [mrs e']. cbn [fst] in H1.
  assert (0 ≤ round_nearest_even (shr_m mrs) (loc_of_shr_record mrs))%Z as H2.
  { unfold round_nearest_even. destruct (loc_of_shr_record mrs) as [|[]]; [done| |done|lia].
    destruct (Z.even _); lia. }
  pose proof (shr_fexp_nonneg _ e' loc_Exact H2) as H3.
  destruct (shr_fexp prec emax _ e' loc_Exact) as [mrs' e'']. cbn [fst] in H3.
  destruct (shr_m mrs'); [done | | lia].
  by destruct (_ <=? _)%Z.
Qed.

Lemma binary_round_sign s m e :
  match binary_round prec emax s m e with
  | S754_zero s' | S754_infinity s' | S754_finite s' _ _ => s' = s
  | S754_nan => False
  end.
Proof. unfold binary_round. destruct (shl_align _ _ _). by apply binary_round_aux_sign. Qed.

(** The length of an array, as a number, is not negative and not [NaN]. *)
Lemma of_nat_sign (n : nat) :
  match Prim2SF (of_nat n) with
  | S754_zero s | S754_infinity s | S754_finite s _ _ => s = false
  | S754_nan => False
  end.
Proof.
  unfold of_nat. destruct n as [|n]; [done|].
  change (binary_normalize prec emax (Z.of_nat (S n)) 0 false)
    with (binary_round prec emax false (Pos.of_succ_nat n) 0).
  pose proof (binary_round_sign false (Pos.of_succ_nat n) 0) as Hr.
  destruct (binary_round prec emax false (Pos.of_succ_nat n) 0) as [[]|[]| |[] m e];
    try done.
  unfold SF2Prim. rewrite Z_ldexp_spec, of_uint63_spec.
  destruct (Uint63.to_Z (Uint63.of_Z (Z.pos m))) as [|p|p] eqn:Hz;
    cbn [binary_normalize SFldexp].
  - done.
  - pose proof (binary_round_sign false p 0) as H1.
    destruct (binary_round prec emax false p 0) as [[]|[]| |[] m' e']; try done.
    cbn [SFldexp]. apply binary_round_sign.
  - pose proof (Uint63.to_Z_bounded (Uint63.of_Z (Z.pos m))). lia.
Qed.

Lemma unbounded_not_finite (x : float) :
  is_finite x = false → ∃ s, unbounded s x.
Proof.
  rewrite is_finite_class. unfold class_of, unbounded.
  destruct (Prim2SF x) as [s|s| |s m e]; try done; intros _.
  - exists s. by left.
  - exists false. by right.
Qed.

Lemma unbounded_add_l (s : bool) (a b : float) : unbounded s a → unbounded s (a + b).
Proof.
  unfold unbounded. rewrite add_spec.
  intros [-> | ->]; destruct s, (Prim2SF b) as [[]|[]| |[] m e]; auto.
Qed.

Lemma unbounded_add_r (s : bool) (a b : float) : unbounded s b → unbounded s (a + b).
Proof.
  unfold unbounded. rewrite add_spec.
  intros [-> | ->]; destruct s, (Prim2SF a) as [[]|[]| |[] m e]; auto.
Qed.

Lemma unbounded_div_length (s : bool) (a : float) (n : nat) :
  unbounded s a → unbounded s (a / of_nat n).
Proof.
  unfold unbounded. rewrite div_spec. pose proof (of_nat_sign n) as Hn.
  intros [-> | ->]; destruct s, (Prim2SF (of_nat n)) as [[]|[]| |[] m e]; auto; done.
Qed.

Lemma unbounded_sub (s : bool) (a b : float) :
  unbounded s a → unbounded s b → a - b = nan.
Proof.
  unfold unbounded. intros Ha Hb. apply Prim2SF_inj. rewrite sub_spec.
  destruct Ha as [-> | ->], Hb as [-> | ->]; by destruct s.
Qed.

Lemma nan_add_l (x : float) : nan + x = nan.
Proof. apply Prim2SF_inj. rewrite add_spec. by_float_cases x. Qed.

Lemma nan_add_r (x : float) : x + nan = nan.
Proof. apply Prim2SF_inj. rewrite add_spec. by_float_cases x. Qed.

Lemma nan_div_l (x : float) : nan / x = nan.
Proof. apply Prim2SF_inj. rewrite div_spec. by_float_cases x. Qed.

Lemma nan_div_r (x : float) : x / nan = nan.
Proof. apply Prim2SF_inj. rewrite div_spec. by_float_cases x. Qed.

Lemma is_nan_eq (x : float) : is_nan x = true → x = nan.
Proof.
  rewrite is_nan_class. unfold class_of. intros Hx.
  apply Prim2SF_inj. by destruct (Prim2SF x).
Qed.

Variable approx : float → float → float.
Let J := js_number approx.
Local Existing Instance J.

(** A sum that has met [NaN] or an infinity is [NaN] or that infinity. *)
Lemma sum_unbounded (s : bool) (arr : list float) (acc : float) :
  unbounded s acc ∨ Exists (unbounded s) arr →
  unbounded s (fold_left (λ a b, a + b) arr acc).
Proof.
  revert acc. induction arr as [|b arr IH]; intros acc [Hacc|Hex]; simpl.
  - done.
  - by apply Exists_nil in Hex.
  - apply IH. left. by apply unbounded_add_l.
  - apply IH. apply Exists_cons in Hex as [Hb|Hex]; [left; by apply unbounded_add_r | by right].
Qed.

Lemma mean_unbounded (s : bool) (arr : list float) :
  Exists (unbounded s) arr → unbounded s (calculateMean arr).
Proof.
  intros Hex. unfold calculateMean.
  apply (unbounded_div_length s _ (length arr)), sum_unbounded. by right.
Qed.

Lemma sum_sq_nan (s : bool) (arr : list float) (mean acc : float) :
  unbounded s mean →
  acc = nan ∨ Exists (unbounded s) arr →
  fold_left (λ a b, a + Binary64.pow approx (b - mean) 2) arr acc = nan.
Proof.
  intros Hm. revert acc. induction arr as [|b arr IH]; intros acc [Hacc|Hex]; simpl.
  - done.
  - by apply Exists_nil in Hex.
  - apply IH. left. by rewrite Hacc, nan_add_l.
  - apply Exists_cons in Hex as [Hb|Hex]; [|apply IH; by right].
    apply IH. left. rewrite (unbounded_sub s b mean Hb Hm).
    change (Binary64.pow approx nan 2) with nan. apply nan_add_r.
Qed.

Lemma variance_nan (s : bool) (arr : list float) :
  Exists (unbounded s) arr → calculateVariance arr (calculateMean arr) = nan.
Proof.
  intros Hex. unfold calculateVariance.
  change (fold_left _ arr (number 0))
    with (fold_left (λ a b, a + Binary64.pow approx (b - calculateMean arr) 2) arr 0).
  rewrite (sum_sq_nan s) by (auto using mean_unbounded). apply nan_div_l.
Qed.

Lemma welch_nan (m1 m2 v1 v2 n1 n2 : float) :
  v1 = nan ∨ v2 = nan →
  welch_t m1 m2 (welch_se v1 v2 n1 n2) = nan
  ∧ welch_p (welch_t m1 m2 (welch_se v1 v2 n1 n2)) (welch_df v1 v2 n1 n2) = nan.
Proof.
  intros Hv.
  assert (v1 / n1 + v2 / n2 = nan) as Hs.
  { destruct Hv as [-> | ->]; by rewrite nan_div_l, ?nan_add_l, ?nan_add_r. }
  assert (welch_t m1 m2 (welch_se v1 v2 n1 n2) = nan) as ->.
  { unfold welch_t, welch_se.
    change (Math_abs ((m1 - m2)%num / Math_sqrt (v1 / n1 + v2 / n2)%num)%num)
      with (abs ((m1 - m2) / sqrt (v1 / n1 + v2 / n2))).
    rewrite Hs. change (sqrt nan) with nan. by rewrite nan_div_r. }
  split; [done|].
  assert (welch_df v1 v2 n1 n2 = nan) as ->.
  { unfold welch_df.
    change (Math_pow (v1 / n1 + v2 / n2)%num (number 2))
      with (Binary64.pow approx (v1 / n1 + v2 / n2) 2).
    rewrite Hs. change (Binary64.pow approx nan 2) with nan.
    apply nan_div_l. }
  reflexivity.
Qed.

(** X5.  On JavaScript numbers, for two groups of at least two elements:
    when either group holds an infinity or [NaN], the variance of that
    group is [NaN], and with it [t] and [p], whatever the engine's
    [Math.pow]. *)
Theorem calculateStats_not_finite (group1 group2 : list float) :
  (2 ≤ length group1)%nat → (2 ≤ length group2)%nat →
  Exists (λ x, is_finite x = false) (group1 ++ group2) →
  calculateStats group1 group2 !! "t" = Some nan
  ∧ calculateStats group1 group2 !! "p" = Some nan.
Proof.
  intros H1 H2 Hex.
  rewrite calculateStats_past_guard by done. cbv zeta.
  rewrite lookup_insert_eq, lookup_insert_ne, lookup_insert_eq by done.
  assert (calculateVariance group1 (calculateMean group1) = nan
          ∨ calculateVariance group2 (calculateMean group2) = nan) as Hv.
  { apply Exists_app in Hex as [Hex|Hex]; [left | right].
    all: apply Exists_exists in Hex as (x & Hx & Hnf).
    all: destruct (unbounded_not_finite x Hnf) as [s Hs].
    all: apply (variance_nan s), Exists_exists; eauto. }
  destruct (welch_nan (calculateMean group1) (calculateMean group2) _ _
              (of_length (length group1)) (of_length (length group2)) Hv) as [-> ->].
  done.
Qed.

(** Zeros and [NaN]. *)

Lemma zero_or_nan_zero (x : float) : is_zero x = true → zero_or_nan x.
Proof.
  rewrite is_zero_class. unfold class_of, zero_or_nan. by destruct (Prim2SF x).
Qed.

Lemma zero_or_nan_div (x y : float) : zero_or_nan x → zero_or_nan (x / y).
Proof.
  unfold zero_or_nan. rewrite div_spec.
  destruct (Prim2SF x) as [[]|[]| |[] ? ?]; try done; by_float_cases y.
Qed.

Lemma zero_or_nan_add (x y : float) : zero_or_nan x → zero_or_nan y → zero_or_nan (x + y).
Proof.
  unfold zero_or_nan. rewrite add_spec.
  destruct (Prim2SF x) as [[]|[]| |[] ? ?]; try done; by_float_cases y.
Qed.

Lemma zero_or_nan_sqrt (x : float) : zero_or_nan x → zero_or_nan (sqrt x).
Proof. unfold zero_or_nan. rewrite sqrt_spec. by_float_cases x. Qed.

Lemma zero_or_nan_pow (x : float) :
  zero_or_nan x → zero_or_nan (Binary64.pow approx x 2).
Proof.
  unfold zero_or_nan at 1. intros Hx. unfold Binary64.pow.
  change (is_nan 2) with false. change (is_zero 2) with false.
  change (0 <? 2) with true. change (is_odd_integral 2) with false. cbv iota.
  rewrite is_nan_class, is_zero_class, !FloatAxioms.eqb_spec.
  unfold class_of.
  change (Prim2SF infinity) with (S754_infinity false).
  change (Prim2SF neg_infinity) with (S754_infinity true).
  destruct (Prim2SF x) as [[]|[]| |[] ? ?]; try done; by destruct (get_sign x).
Qed.

Lemma zero_or_nan_quotient (x y : float) : zero_or_nan x → zero_or_nan y → x / y = nan.
Proof.
  unfold zero_or_nan. intros Hx Hy. apply Prim2SF_inj. rewrite div_spec.
  destruct (Prim2SF x) as [[]|[]| |[] ? ?]; try done;
    destruct (Prim2SF y) as [[]|[]| |[] ? ?]; done.
Qed.

Lemma abs_div_zero_or_nan (x y : float) : zero_or_nan y → is_finite (abs (x / y)) = false.
Proof.
  unfold zero_or_nan. intros Hy. rewrite is_finite_class. unfold class_of.
  rewrite abs_spec, div_spec.
  destruct (Prim2SF y) as [[]|[]| |[] ? ?]; try done; by_float_cases x.
Qed.

(** X6.  On JavaScript numbers, when the variances of two groups of at
    least two elements are both zero, [p] is [NaN] and [t] is [NaN] or
    [Infinity], however far apart the two means are and whatever the
    engine's [Math.pow]. *)
Theorem calculateStats_zero_variances (group1 group2 : list float) :
  (2 ≤ length group1)%nat → (2 ≤ length group2)%nat →
  is_zero (calculateVariance group1 (calculateMean group1)) = true →
  is_zero (calculateVariance group2 (calculateMean group2)) = true →
  calculateStats group1 group2 !! "p" = Some nan
  ∧ ∃ t, calculateStats group1 group2 !! "t" = Some t ∧ is_finite t = false.
Proof.
  intros H1 H2 Hv1%zero_or_nan_zero Hv2%zero_or_nan_zero.
  rewrite calculateStats_past_guard by done. cbv zeta.
  rewrite lookup_insert_eq, lookup_insert_ne, lookup_insert_eq by done.
  set (v1 := calculateVariance group1 _) in *. set (v2 := calculateVariance group2 _) in *.
  set (n1 := of_length (length group1)). set (n2 := of_length (length group2)).
  pose proof (zero_or_nan_div v1 n1 Hv1) as Hq1.
  pose proof (zero_or_nan_div v2 n2 Hv2) as Hq2.
  pose proof (zero_or_nan_add _ _ Hq1 Hq2) as Hs.
  assert (welch_df v1 v2 n1 n2 = nan) as ->.
  { unfold welch_df. apply zero_or_nan_quotient.
    - by apply zero_or_nan_pow.
    - apply zero_or_nan_add; by apply zero_or_nan_div, zero_or_nan_pow. }
  split; [reflexivity|].
  eexists. split; [reflexivity|].
  unfold welch_t, welch_se. by apply abs_div_zero_or_nan, zero_or_nan_sqrt.
Qed.
End Not_finite.

(** ** Changes of unit and equal means, in exact arithmetic *)

Section Exact_invariance.
Import Exact RealStats.
Local Open Scope R_scope.










End Exact_invariance.

(** ** The sorted copy of [getQuartiles] *)

Section Quartiles_any.
Context {num : Type} {N : Number num}.
Local Open Scope num_scope.

Lemma insert_by_Permutation (cmp : num → num → num) (a : num) (l : list num) :
  insert_by cmp a l ≡ₚ a :: l.
Proof.
  induction l as [|b l IH]; [done|]. simpl.
  destruct (num_pos (cmp a b)); [|done].
  rewrite IH. apply Permutation_swap.
Qed.

Lemma sort_by_Permutation (cmp : num → num → num) (l : list num) : sort_by cmp l ≡ₚ l.
Proof.
  induction l as [|a l IH]; [done|]. unfold sort_by in *. simpl.
  by rewrite insert_by_Permutation, IH.
Qed.

Lemma sort_by_replicate (cmp : num → num → num) (c : num) (n : nat) :
  num_pos (cmp c c) = false → sort_by cmp (replicate n c) = replicate n c.
Proof.
  intros Hc. induction n as [|n IH]; [done|].
  unfold sort_by in *. cbn [replicate foldr]. rewrite IH.
  destruct n as [|n]; [done|]. simpl. by rewrite Hc.
Qed.

(** [getQuartiles] only adds to the store. *)
Lemma getQuartiles_extends (data : option loc) (h : heap num) :
  h ⊆ (getQuartiles data h).2.
Proof.
  destruct data as [data|]; [|done].
  destruct (decide (default [] (h !! data) = [])) as [He|Hne].
  { by rewrite getQuartiles_empty. }
  destruct (h !! data) as [arr|] eqn:Hd; [|done]. simpl in Hne.
  rewrite (getQuartiles_nonempty data h arr) by done. simpl.
  apply insert_subseteq, not_elem_of_dom, is_fresh.
Qed.

(** X9.  On a non-empty array, for every number type and whatever the
    elements are ([NaN] and the infinities included), [getQuartiles] adds
    one array to the store, a permutation of its argument, and [min] and
    [max] are the first and the last element of that array: two of the
    observations. *)
Theorem getQuartiles_observations (data : loc) (h : heap num) (arr : list num) :
  h !! data = Some arr → arr ≠ [] →
  ∃ sorted lo hi,
    sorted ≡ₚ arr
    ∧ (getQuartiles (Some data) h).2 = <[fresh (dom h) := sorted]> h
    ∧ Summary.min (getQuartiles (Some data) h).1 = Some lo
    ∧ Summary.max (getQuartiles (Some data) h).1 = Some hi
    ∧ head sorted = Some lo ∧ last sorted = Some hi
    ∧ lo ∈ arr ∧ hi ∈ arr.
Proof.
  intros Hd Hne. rewrite (getQuartiles_nonempty data h arr) by done.
  pose proof (sort_by_Permutation (λ a b, a - b) arr) as Hp.
  set (sorted := sort_by _ arr) in *.
  assert (0 < length sorted)%nat as Hlen.
  { rewrite Hp. destruct arr; [done | simpl; lia]. }
  destruct (lookup_lt_is_Some_2 sorted 0) as [lo Hlo]; [lia|].
  destruct (lookup_lt_is_Some_2 sorted (length sorted - 1)) as [hi Hhi]; [lia|].
  exists sorted, lo, hi. cbn [fst snd summary_of Summary.min Summary.max].
  split; [done|]. split; [done|]. split; [done|]. split; [done|].
  split; [by rewrite head_lookup|]. split; [by rewrite last_lookup, Nat.sub_1_r in *|].
  split; rewrite <- Hp; by eapply list_elem_of_lookup_2.
Qed.
End Quartiles_any.

(** ** The order statistics, in exact arithmetic *)

Section Exact_order.
Import Exact RealStats.
Local Open Scope R_scope.



#[local] Instance Rle_transitive : Transitive Rle := Rle_trans.
#[local] Instance Rle_antisymm : AntiSymm eq Rle := Rle_antisym.












End Exact_order.

(** ** The samples of [parseCSV] *)

Section Extractor_rows.
Local Open Scope string_scope.

Lemma parseCSV_lines_columns (lines : list string) (parsed : gmap string Metric)
    (metric : string) (idx1 idx2 : nat) (m : Metric) :
  (metric, idx1, idx2) ∈ columns →
  parsed !! metric = Some m →
  let rows := filter (λ row, 10 ≤ length row)%nat (Text.split "," <$> lines) in
  fold_left (λ parsed line, parseCSV_line line parsed) lines parsed !! metric
  = Some {| group1 := group1 m ++ (rows ≫= λ row, contribution (row !! idx1));
            group2 := group2 m ++ (rows ≫= λ row, contribution (row !! idx2));
            unit := unit m |}.
Proof.
  intros Hc. cbv zeta. revert parsed m.
  induction lines as [|line lines IH]; intros parsed m Hm.
  - simpl. rewrite Hm, !app_nil_r. by destruct m.
  - cbn [fold_left]. rewrite fmap_cons, filter_cons.
    destruct (decide (10 ≤ length (Text.split "," line))%nat) as [Hrow|Hrow].
    + erewrite IH;
        [|by rewrite (parseCSV_line_columns line parsed metric idx1 idx2 Hrow Hc), Hm].
      simpl. by rewrite <- !app_assoc.
    + rewrite parseCSV_line_short by lia. by apply IH.
Qed.

Lemma parsed_init_columns (metric : string) (idx1 idx2 : nat) :
  (metric, idx1, idx2) ∈ columns →
  parsed_init !! metric = Some {| group1 := []; group2 := []; unit := unit_of metric |}.
Proof.
  unfold columns. rewrite !elem_of_cons, elem_of_nil.
  intros [[= -> -> ->]|[[= -> -> ->]|[[= -> -> ->]|[[= -> -> ->]|[[= -> -> ->]|[]]]]]]; done.
Qed.

Lemma parseCSV_metric (csvText : string) (metric : string) (idx1 idx2 : nat) :
  (metric, idx1, idx2) ∈ columns →
  parseCSV csvText !! metric
  = Some {| group1 := data_rows csvText ≫= (λ row, contribution (row !! idx1));
            group2 := data_rows csvText ≫= (λ row, contribution (row !! idx2));
            unit := unit_of metric |}.
Proof.
  intros Hc. unfold parseCSV, data_rows.
  by rewrite (parseCSV_lines_columns _ _ _ _ _ _ Hc (parsed_init_columns _ _ _ Hc)).
Qed.

(** X12.  For every text, each sample of each of the five metrics is what
    the metric's column contributes in the rows read (the lines from the
    sixth on with at least ten fields), in the order of the rows; the unit
    of the metric is the initial one. *)
Theorem parseCSV_samples (csvText : string) :
  Forall (λ '(metric, idx1, idx2),
            parseCSV csvText !! metric
            = Some {| group1 := data_rows csvText ≫= (λ row, contribution (row !! idx1));
                      group2 := data_rows csvText ≫= (λ row, contribution (row !! idx2));
                      unit := unit_of metric |})
         columns.
Proof.
  apply Forall_forall. intros [[metric idx1] idx2] Hc. by apply parseCSV_metric.
Qed.

Lemma split_line (sep : ascii) (line rest : string) :
  Text.occurs sep line = false →
  Text.split sep (line ++ String sep rest) = line :: Text.split sep rest.
Proof.
  induction line as [|c line IH]; simpl.
  - by rewrite Ascii.eqb_refl.
  - intros [Hc Hs]%orb_false_iff. rewrite Hc. by rewrite IH.
Qed.

Lemma string_app_assoc (a b c : string) : (a ++ b) ++ c = a ++ (b ++ c).
Proof.
  induction a as [|x a IH]; [done|].
  change (String x ((a ++ b) ++ c) = String x (a ++ (b ++ c))). by rewrite IH.
Qed.

Lemma split_unlines (lines : list string) (rest : string) :
  Forall (λ line, Text.occurs newline line = false) lines →
  Text.split newline (unlines lines ++ rest) = (lines ++ Text.split newline rest)%list.
Proof.
  induction 1 as [|line lines Hline _ IH]; [done|].
  cbn [unlines foldr]. fold (unlines lines).
  rewrite string_app_assoc.
  change (String newline (unlines lines) ++ rest) with (String newline (unlines lines ++ rest)).
  by rewrite split_line, IH.
Qed.

(** X13.  The first five lines of the text are never read: two texts that
    differ in their first five lines only give the same result. *)
Theorem parseCSV_header (header1 header2 : list string) (body : string) :
  length header1 = 5%nat → length header2 = 5%nat →
  Forall (λ line, Text.occurs newline line = false) header1 →
  Forall (λ line, Text.occurs newline line = false) header2 →
  parseCSV (unlines header1 ++ body) = parseCSV (unlines header2 ++ body).
Proof.
  intros H1 H2 F1 F2. unfold parseCSV.
  rewrite !split_unlines by done.
  by rewrite !drop_app_length' by done.
Qed.

(** X14.  A text without a row to read (no line from the sixth on has ten
    fields; the empty text, for one) gives the initial object: five
    metrics with empty samples. *)
Theorem parseCSV_no_rows (csvText : string) :
  data_rows csvText = [] → parseCSV csvText = parsed_init.
Proof.
  unfold data_rows, parseCSV.
  generalize parsed_init. induction (drop 5 (Text.split newline csvText)) as [|line lines IH].
  { done. }
  intros parsed. rewrite fmap_cons, filter_cons. cbn [fold_left].
  destruct (decide _) as [Hrow|Hrow]; [done|]. intros Hnil.
  rewrite parseCSV_line_short by lia. by apply IH.
Qed.

Lemma contribution_parsed (val : option string) :
  isNaN (parseFloat val) = false → contribution val = [parseFloat val].
Proof. intros Hv. unfold contribution, parseVal. by rewrite Hv. Qed.
End Extractor_rows.

(** ** The components in exact arithmetic *)

Section Ten_fields.
Local Open Scope string_scope.

Lemma bind_nil_all {A B} (f : A → list B) (l : list A) :
  Forall (λ x, f x = []) l → l ≫= f = [].
Proof. induction 1 as [|x l Hx _ IH]; [done|]. cbn [mbind list_bind] in *. by rewrite Hx, IH. Qed.

(** X24.  A row of exactly ten fields passes the guard on the length of
    a row but has no column 10 or 11: when no row has more than ten
    fields, the metric BPT gets no observation. *)
Theorem parseCSV_ten_fields (csvText : string) :
  Forall (λ row, length row ≤ 10)%nat (data_rows csvText) →
  parseCSV csvText !! "BPT" = Some {| group1 := []; group2 := []; unit := "g" |}.
Proof.
  intros Hrows.
  rewrite (parseCSV_metric csvText "BPT" 10 11) by (unfold columns; set_solver).
  rewrite !bind_nil_all; [done|..].
  all: eapply Forall_impl; [exact Hrows|]; intros row Hrow; simpl in Hrow.
  all: by rewrite lookup_ge_None_2 by lia.
Qed.
End Ten_fields.

Section Exact_affine_quartiles.
Import Exact RealStats.
Local Open Scope R_scope.




End Exact_affine_quartiles.


Section Exact_components.
Import Exact RealStats.
Local Open Scope R_scope.





End Exact_components.

(** ** The components on JavaScript numbers *)

(** ** Whole numbers and quarters in binary64

    The arithmetic [getQuartiles] does on the length of an array, the
    positions [(n - 1) * 0.25], [(n - 1) * 0.5] and [(n - 1) * 0.75], their
    integer parts and what is left of them, is exact: no operation of it
    rounds, for an array of fewer than [2^32] elements. *)

Section Exact_rounding.
Import Binary64 Dyadic.
Local Open Scope Z_scope.

(** The digits of a positive number. *)
Lemma digits2_pos_iter (m : positive) (k : positive) :
  digits2_pos (Pos.iter xO m k) = (digits2_pos m + k)%positive.
Proof.
  induction k as [|k IH] using Pos.peano_ind.
  - simpl. lia.
  - rewrite Pos.iter_succ. cbn [digits2_pos]. rewrite IH. lia.
Qed.

Lemma iter_xO_mul (m k : positive) : Zpos (Pos.iter xO m k) = Zpos m * 2 ^ Zpos k.
Proof.
  induction k as [|k IH] using Pos.peano_ind.
  - simpl. lia.
  - rewrite Pos.iter_succ, Pos2Z.inj_xO, IH, Pos2Z.inj_succ, Z.pow_succ_r by lia. lia.
Qed.

Lemma digits2_pos_bounds (m : positive) :
  2 ^ (Zpos (digits2_pos m) - 1) <= Zpos m < 2 ^ Zpos (digits2_pos m).
Proof.
  induction m as [m IH|m IH|]; cbn [digits2_pos]; [| |simpl; lia].
  all: rewrite Pos2Z.inj_succ; replace (Z.succ (Zpos (digits2_pos m)) - 1)
         with (Z.succ (Zpos (digits2_pos m) - 1)) by lia.
  all: rewrite !Z.pow_succ_r by lia; lia.
Qed.

Lemma digits2_pos_below (m : positive) (d : Z) :
  0 <= d → Zpos m < 2 ^ d → Zpos (digits2_pos m) <= d.
Proof.
  intros Hd Hm. destruct (Z.le_gt_cases (Zpos (digits2_pos m)) d) as [|Hlt]; [done|].
  pose proof (digits2_pos_bounds m) as [Hlow _].
  assert (2 ^ d <= 2 ^ (Zpos (digits2_pos m) - 1)) by (apply Z.pow_le_mono_r; lia). lia.
Qed.

Lemma shl_0 (z : positive) : shl z 0 = z.
Proof. done. Qed.

Lemma shl_pos (z p : positive) : shl z (Zpos p) = Pos.iter xO z p.
Proof. done. Qed.

Lemma shl_mul (z : positive) (t : Z) : 0 <= t → Zpos (shl z t) = Zpos z * 2 ^ t.
Proof.
  intros Ht. destruct t as [|p|p]; [rewrite shl_0, Z.pow_0_r; lia| |lia].
  rewrite shl_pos. apply iter_xO_mul.
Qed.

Lemma shl_digits (z : positive) (t : Z) :
  0 <= t → Zpos (digits2_pos (shl z t)) = Zpos (digits2_pos z) + t.
Proof.
  intros Ht. destruct t as [|p|p]; [rewrite shl_0; lia| |lia].
  rewrite shl_pos, digits2_pos_iter. lia.
Qed.

Lemma shl_shl (z : positive) (t u : Z) : 0 <= t → 0 <= u → shl (shl z t) u = shl z (t + u).
Proof.
  intros Ht Hu. apply Pos2Z.inj. rewrite !shl_mul, Z.pow_add_r by lia. lia.
Qed.

(** A shift to the right of a mantissa with that many zeros at its end is exact. *)
Lemma iter_shr_1_exact (p : positive) (m : positive) :
  SpecFloat.iter_pos shr_1 p
    {| shr_m := Zpos (Pos.iter xO m p); shr_r := false; shr_s := false |}
  = {| shr_m := Zpos m; shr_r := false; shr_s := false |}.
Proof.
  revert m. induction p as [p IH|p IH|]; intros m.
  - cbn [SpecFloat.iter_pos]. 
    replace (Pos.iter xO m p~1) with (xO (Pos.iter xO (Pos.iter xO m p) p)).
    2:{ simpl. done. }
    cbn [shr_1 orb]. by rewrite !IH.
  - cbn [SpecFloat.iter_pos].
    replace (Pos.iter xO m p~0) with (Pos.iter xO (Pos.iter xO m p) p) by done.
    by rewrite !IH.
  - done.
Qed.

Lemma mantissa_digits (z : positive) :
  Zpos (digits2_pos z) <= 53 → digits2_pos (mantissa z) = 53%positive.
Proof. intros Hd. unfold mantissa. apply Pos2Z.inj. rewrite shl_digits by lia. lia. Qed.

Lemma binary_round_aux_normal (s : bool) (m : positive) (e : Z) :
  digits2_pos m = 53%positive → -1074 <= e <= 971 →
  binary_round_aux prec emax s (Zpos m) e loc_Exact = S754_finite s m e.
Proof.
  intros Hd He. unfold binary_round_aux, shr_fexp. cbn [Zdigits2 shr_record_of_loc].
  rewrite Hd.
  assert (fexp prec emax (53 + e) - e = 0) as ->.
  { unfold fexp, SpecFloat.emin, prec, emax. lia. }
  cbn [shr shr_m loc_of_shr_record round_nearest_even Zdigits2 shr_record_of_loc].
  rewrite Hd.
  assert (fexp prec emax (53 + e) - e = 0) as ->.
  { unfold fexp, SpecFloat.emin, prec, emax. lia. }
  cbn [shr shr_m]. unfold prec, emax.
  destruct (Z.leb_spec e (1024 - 53)); [done|lia].
Qed.

Lemma binary_round_aux_shifted (s : bool) (m p : positive) (e : Z) :
  digits2_pos m = 53%positive → -1074 <= e + Zpos p <= 971 →
  binary_round_aux prec emax s (Zpos (Pos.iter xO m p)) e loc_Exact
  = S754_finite s m (e + Zpos p).
Proof.
  intros Hd He.
  unfold binary_round_aux. unfold shr_fexp at 1.
  cbn [Zdigits2 shr_record_of_loc]. rewrite digits2_pos_iter, Hd.
  assert (fexp prec emax (Zpos (53 + p) + e) - e = Zpos p) as ->.
  { unfold fexp, SpecFloat.emin, prec, emax. lia. }
  cbn [shr]. rewrite iter_shr_1_exact.
  cbn [shr_m loc_of_shr_record round_nearest_even].
  unfold shr_fexp. cbn [Zdigits2 shr_record_of_loc]. rewrite Hd.
  assert (fexp prec emax (53 + (e + Zpos p)) - (e + Zpos p) = 0) as ->.
  { unfold fexp, SpecFloat.emin, prec, emax. lia. }
  cbn [shr shr_m]. unfold prec, emax.
  destruct (Z.leb_spec (e + Zpos p) (1024 - 53)); [done|lia].
Qed.

(** Rounding [z * 2^t * 2^e], for [z] of at most 53 digits, is exact. *)
Lemma binary_round_aux_exact (s : bool) (z : positive) (t e : Z) :
  Zpos (digits2_pos z) <= 53 → 53 - Zpos (digits2_pos z) <= t →
  -1074 <= exponent z (e + t) <= 971 →
  binary_round_aux prec emax s (Zpos (shl z t)) e loc_Exact
  = S754_finite s (mantissa z) (exponent z (e + t)).
Proof.
  intros Hd Ht He. unfold exponent in *.
  destruct (decide (t = 53 - Zpos (digits2_pos z))) as [->|Hne].
  - fold (mantissa z). rewrite binary_round_aux_normal; [f_equal; lia| |lia].
    by apply mantissa_digits.
  - replace t with ((53 - Zpos (digits2_pos z)) + (t - (53 - Zpos (digits2_pos z)))) at 1 by lia.
    rewrite <-shl_shl by lia. fold (mantissa z).
    destruct (t - (53 - Zpos (digits2_pos z))) as [|p|p] eqn:Hp; [lia| |lia].
    rewrite shl_pos, binary_round_aux_shifted; [f_equal; lia| |lia].
    by apply mantissa_digits.
Qed.

Lemma binary_round_exact (s : bool) (z : positive) (t e : Z) :
  Zpos (digits2_pos z) <= 53 → 0 <= t →
  -1074 <= exponent z (e + t) <= 971 →
  binary_round prec emax s (shl z t) e = S754_finite s (mantissa z) (exponent z (e + t)).
Proof.
  intros Hd Ht He. unfold binary_round, shl_align.
  rewrite shl_digits by done.
  assert (fexp prec emax (Zpos (digits2_pos z) + t + e) = exponent z (e + t)) as ->.
  { unfold exponent in *. unfold fexp, SpecFloat.emin, prec, emax. lia. }
  destruct (exponent z (e + t) - e) as [|p|p] eqn:Hp.
  - apply binary_round_aux_exact; unfold exponent in *; [done|lia|done].
  - apply binary_round_aux_exact; unfold exponent in *; [done|lia|done].
  - rewrite <-shl_pos, shl_shl by lia.
    replace (exponent z (e + t)) with (exponent z (exponent z (e + t) + (t + Zpos p))) at 2
      by (unfold exponent in *; lia).
    apply binary_round_aux_exact; unfold exponent in *; [done|lia|lia].
Qed.

(** Numbers of at most 53 digits are floats. *)
Lemma Prim2SF_of_Z (z : positive) :
  Zpos (digits2_pos z) <= 53 →
  Prim2SF (of_Z (Zpos z)) = S754_finite false (mantissa z) (exponent z 0).
Proof.
  intros Hd. unfold of_Z. cbn [binary_normalize].
  pose proof (binary_round_exact false z 0 0 Hd) as Hr. rewrite shl_0 in Hr.
  pose proof (digits2_pos_bounds z).
  rewrite Hr by (unfold exponent; lia).
  apply Prim2SF_SF2Prim. unfold valid_binary, bounded, canonical_mantissa.
  rewrite mantissa_digits by done.
  unfold exponent, fexp, SpecFloat.emin, prec, emax.
  apply andb_true_intro. split; [apply Z.eqb_eq|apply Z.leb_le]; lia.
Qed.

Lemma digits2_pos_above (m : positive) (d : Z) :
  2 ^ d <= Zpos m → d + 1 <= Zpos (digits2_pos m).
Proof.
  intros Hm. destruct (Z.le_gt_cases (d + 1) (Zpos (digits2_pos m))) as [|Hlt]; [done|].
  pose proof (digits2_pos_bounds m) as [_ Hup].
  assert (2 ^ Zpos (digits2_pos m) <= 2 ^ d) by (apply Z.pow_le_mono_r; lia). lia.
Qed.

Lemma Prim2SF_of_Z_0 : Prim2SF (of_Z 0) = S754_zero false.
Proof. done. Qed.

Lemma Prim2SF_number_1 : Prim2SF (Binary64.of_Q 1) = S754_finite false (mantissa 1) (exponent 1 0).
Proof. done. Qed.

(** Two floats brought to a common exponent. *)
Lemma shl_align_grid (z : positive) (E ez : Z) :
  Zpos (digits2_pos z) <= 53 → ez <= exponent z E →
  Zpos (shl_align (mantissa z) (exponent z E) ez).1 = Zpos (shl z (E - ez)).
Proof.
  intros Hd He. unfold shl_align.
  destruct (ez - exponent z E) as [|d|d] eqn:Hs; [|lia|]; cbn [fst].
  - unfold mantissa. do 2 f_equal. unfold exponent in *. lia.
  - rewrite <-shl_pos. unfold mantissa. rewrite shl_shl by lia.
    do 2 f_equal. unfold exponent in *. lia.
Qed.

(** Sums and differences of multiples of [2^E] are exact where they have at
    most 53 digits. *)
Lemma SFadd_grid (a b : positive) (E : Z) :
  Zpos (digits2_pos (a + b)) <= 53 → -1000 <= E <= 900 →
  SFadd prec emax (S754_finite false (mantissa a) (exponent a E))
                  (S754_finite false (mantissa b) (exponent b E))
  = S754_finite false (mantissa (a + b)) (exponent (a + b) E).
Proof.
  intros Hd HE. unfold SFadd. cbn [cond_Zopp].
  pose proof (digits2_pos_bounds a) as Ha. pose proof (digits2_pos_bounds b) as Hb.
  pose proof (digits2_pos_bounds (a + b)) as Hab.
  assert (Zpos (digits2_pos a) <= Zpos (digits2_pos (a + b))) as Hda
    by (apply digits2_pos_below; lia).
  assert (Zpos (digits2_pos b) <= Zpos (digits2_pos (a + b))) as Hdb
    by (apply digits2_pos_below; lia).
  set (ez := Z.min (exponent a E) (exponent b E)).
  assert (E - 53 < ez <= E) as Hez by (unfold ez, exponent; lia).
  rewrite !shl_align_grid by (unfold ez; lia).
  assert (Zpos (shl a (E - ez)) + Zpos (shl b (E - ez)) = Zpos (shl (a + b) (E - ez))) as ->.
  { rewrite !shl_mul by lia. lia. }
  cbn [binary_normalize]. rewrite binary_round_exact; [|done|lia|unfold exponent; lia].
  f_equal. unfold exponent. lia.
Qed.

Lemma SFsub_grid (a b : positive) (E : Z) :
  Zpos (digits2_pos a) <= 53 → (b < a)%positive → -1000 <= E <= 900 →
  SFsub prec emax (S754_finite false (mantissa a) (exponent a E))
                  (S754_finite false (mantissa b) (exponent b E))
  = S754_finite false (mantissa (a - b)) (exponent (a - b) E).
Proof.
  intros Hd Hlt HE. unfold SFsub. cbn [cond_Zopp].
  pose proof (digits2_pos_bounds a) as Ha. pose proof (digits2_pos_bounds b) as Hb.
  pose proof (digits2_pos_bounds (a - b)) as Hab.
  assert (Zpos (digits2_pos b) <= Zpos (digits2_pos a)) as Hdb
    by (apply digits2_pos_below; lia).
  assert (Zpos (digits2_pos (a - b)) <= Zpos (digits2_pos a)) as Hdab
    by (apply digits2_pos_below; lia).
  set (ez := Z.min (exponent a E) (exponent b E)).
  assert (E - 53 < ez <= E) as Hez by (unfold ez, exponent; lia).
  rewrite !shl_align_grid by (unfold ez; lia).
  assert (Zpos (shl a (E - ez)) - Zpos (shl b (E - ez)) = Zpos (shl (a - b) (E - ez))) as ->.
  { rewrite !shl_mul by lia. nia. }
  cbn [binary_normalize]. rewrite binary_round_exact; [|lia|lia|unfold exponent; lia].
  f_equal. unfold exponent. lia.
Qed.

(** The same float on a finer grid. *)
Lemma mantissa_shl (z : positive) (t : Z) :
  0 <= t → Zpos (digits2_pos z) + t <= 53 → mantissa (shl z t) = mantissa z.
Proof.
  intros Ht Hd. unfold mantissa. rewrite shl_shl, shl_digits by (rewrite ?shl_digits; lia).
  f_equal. lia.
Qed.

Lemma exponent_shl (z : positive) (t E : Z) :
  0 <= t → exponent (shl z t) (E - t) = exponent z E.
Proof. intros Ht. unfold exponent. rewrite shl_digits by done. lia. Qed.

(** One less and one more than a whole number. *)
Lemma of_Z_pred (n : Z) :
  1 <= n < 2 ^ 53 → (of_Z n - Binary64.of_Q 1)%float = of_Z (n - 1).
Proof.
  intros Hn. destruct n as [|n|n]; [lia| |lia].
  destruct (decide (n = 1%positive)) as [->|Hn1]; [done|].
  assert (Zpos n - 1 = Zpos (n - 1)) as -> by lia.
  assert (Zpos (digits2_pos n) <= 53) as Hd by (apply digits2_pos_below; lia).
  assert (Zpos (digits2_pos (n - 1)) <= 53) as Hd' by (apply digits2_pos_below; lia).
  apply Prim2SF_inj.
  rewrite sub_spec, !Prim2SF_of_Z, Prim2SF_number_1 by done.
  apply SFsub_grid; [done|lia|lia].
Qed.

Lemma of_Z_succ (i : Z) :
  0 <= i < 2 ^ 53 - 1 → (of_Z i + Binary64.of_Q 1)%float = of_Z (i + 1).
Proof.
  intros Hi. destruct i as [|i|i]; [done| |lia].
  assert (Zpos i + 1 = Zpos (i + 1)) as -> by lia.
  assert (Zpos (digits2_pos i) <= 53) as Hd by (apply digits2_pos_below; lia).
  assert (Zpos (digits2_pos (i + 1)) <= 53) as Hd' by (apply digits2_pos_below; lia).
  apply Prim2SF_inj.
  rewrite add_spec, !Prim2SF_of_Z, Prim2SF_number_1 by done.
  apply SFadd_grid; [done|lia].
Qed.

(** The product of a whole number and a float is exact where it has at most
    53 digits. *)
Lemma of_Z_mul (k c : positive) (E : Z) (y : float) :
  Prim2SF y = S754_finite false (mantissa c) (exponent c E) →
  Zpos (digits2_pos (k * c)) <= 53 → -1000 <= E <= 0 →
  Prim2SF (of_Z (Zpos k) * y)%float
  = S754_finite false (mantissa (k * c)) (exponent (k * c) E).
Proof.
  intros Hy Hd HE.
  pose proof (digits2_pos_bounds k) as Hk. pose proof (digits2_pos_bounds c) as Hc.
  pose proof (digits2_pos_bounds (k * c)) as Hkc.
  assert (Zpos (digits2_pos k) + Zpos (digits2_pos c) - 1 <= Zpos (digits2_pos (k * c))) as Hlow.
  { pose proof (digits2_pos_above (k * c) (Zpos (digits2_pos k) - 1 + (Zpos (digits2_pos c) - 1))) as H.
    rewrite Z.pow_add_r in H by lia. rewrite Pos2Z.inj_mul in H.
    assert (2 ^ (Zpos (digits2_pos k) - 1) * 2 ^ (Zpos (digits2_pos c) - 1) <= Zpos k * Zpos c)
      by (apply Z.mul_le_mono_nonneg; lia). lia. }
  assert (Zpos (digits2_pos k) <= Zpos (digits2_pos (k * c))) as Hdk.
  { apply digits2_pos_below; [lia|]. rewrite Pos2Z.inj_mul in Hkc. nia. }
  assert (Zpos (digits2_pos c) <= Zpos (digits2_pos (k * c))) as Hdc.
  { apply digits2_pos_below; [lia|]. rewrite Pos2Z.inj_mul in Hkc. nia. }
  rewrite mul_spec, Prim2SF_of_Z, Hy by lia.
  unfold SF64mul, SFmul. cbn [xorb].
  assert ((mantissa k * mantissa c)%positive
          = shl (k * c) (106 - Zpos (digits2_pos k) - Zpos (digits2_pos c))) as ->.
  { apply Pos2Z.inj. unfold mantissa.
    rewrite Pos2Z.inj_mul, !shl_mul, Pos2Z.inj_mul by lia.
    replace (106 - Zpos (digits2_pos k) - Zpos (digits2_pos c))
      with ((53 - Zpos (digits2_pos k)) + (53 - Zpos (digits2_pos c))) by lia.
    rewrite Z.pow_add_r by lia. lia. }
  rewrite binary_round_aux_exact; [|done|lia|unfold exponent; lia].
  f_equal. unfold exponent. lia.
Qed.

(** The integer part of a float below [2^53], by [Math.floor]. *)
Lemma floor_exact (z : positive) (E : Z) (x : float) :
  Prim2SF x = S754_finite false (mantissa z) (exponent z E) →
  Zpos (digits2_pos z) <= 53 → E < 0 →
  floor x = of_Z (Z.shiftr (Zpos z) (- E)).
Proof.
  intros Hx Hd HE. unfold floor. rewrite Hx.
  destruct (Z.leb_spec 0 (exponent z E)) as [He|He]; [unfold exponent in He; lia|].
  unfold floor_finite, of_Z. do 2 f_equal.
  unfold mantissa, exponent. rewrite !Z.shiftr_div_pow2, shl_mul by lia.
  replace (- (E + Zpos (digits2_pos z) - 53)) with ((53 - Zpos (digits2_pos z)) + - E) by lia.
  rewrite Z.pow_add_r, (Z.mul_comm (Zpos z)) by lia.
  rewrite Z.div_mul_cancel_l; [done| |]; apply Z.pow_nonzero; lia.
Qed.

(** A whole number of at most 53 digits is read back from its float. *)
Lemma to_Z_of_Z (i : Z) : 0 <= i < 2 ^ 53 → to_Z (of_Z i) = Some i.
Proof.
  intros Hi. destruct i as [|z|z]; [done| |lia].
  assert (Zpos (digits2_pos z) <= 53) as Hd by (apply digits2_pos_below; lia).
  unfold to_Z. rewrite Prim2SF_of_Z by done. unfold exponent, mantissa.
  destruct (Z.leb_spec 0 (0 + Zpos (digits2_pos z) - 53)) as [He|He].
  - replace (53 - Zpos (digits2_pos z)) with 0 by lia.
    replace (0 + Zpos (digits2_pos z) - 53) with 0 by lia.
    by rewrite shl_0, Z.shiftl_0_r.
  - rewrite Z.shiftr_div_pow2, Z.shiftl_mul_pow2, shl_mul by lia.
    replace (- (0 + Zpos (digits2_pos z) - 53)) with (53 - Zpos (digits2_pos z)) by lia.
    rewrite Z.div_mul by (apply Z.pow_nonzero; lia).
    by rewrite Z.eqb_refl.
Qed.

Lemma to_index_of_Z (i : Z) : 0 <= i < 2 ^ 53 → to_index (of_Z i) = Some (Z.to_nat i).
Proof.
  intros Hi. unfold to_index. rewrite to_Z_of_Z by done.
  destruct (Z.leb_spec 0 i); [done|lia].
Qed.

Lemma SFsub_diag (m : positive) (e : Z) :
  SFsub prec emax (S754_finite false m e) (S754_finite false m e) = S754_zero false.
Proof.
  unfold SFsub, shl_align. cbn [cond_Zopp]. by rewrite Z.min_id, Z.sub_diag.
Qed.

(** The quarters, as floats. *)
Lemma Prim2SF_quarters (r : Z) :
  0 <= r < 4 →
  Prim2SF (Binary64.of_Q (r # 4))
  = match r with
    | Zpos p => S754_finite false (mantissa p) (exponent p (-2))
    | _ => S754_zero false
    end.
Proof.
  intros Hr. assert (r = 0 ∨ r = 1 ∨ r = 2 ∨ r = 3) as [->|[->|[->| ->]]] by lia; done.
Qed.

(** The position [(n - 1) * c/4] of a quartile in an array of [n] elements:
    its integer part, the rank after it and its fractional part are
    computed without rounding. *)
Lemma quartile_position (n : nat) (c : positive) (y : float) :
  (1 ≤ n)%nat → Z.of_nat n < 2 ^ 32 → (c <= 3)%positive →
  Prim2SF y = S754_finite false (mantissa c) (exponent c (-2)) →
  let pos := ((of_nat n - Binary64.of_Q 1) * y)%float in
  let z := Zpos c * (Z.of_nat n - 1) in
  floor pos = of_Z (z / 4)
  ∧ (floor pos + Binary64.of_Q 1)%float = of_Z (z / 4 + 1)
  ∧ (pos - floor pos)%float = Binary64.of_Q (z mod 4 # 4).
Proof.
  intros Hn Hn32 Hc Hy pos z.
  assert (2 ^ 32 < 2 ^ 53) as Hpow by done.
  assert (2 ^ 32 = 4294967296) as H32 by done.
  assert (pos = (of_Z (Z.of_nat n - 1) * y)%float) as Hpos.
  { unfold pos. change (of_nat n) with (of_Z (Z.of_nat n)). by rewrite of_Z_pred by lia. }
  assert (0 <= z < 3 * 4294967296) as Hz by (unfold z; nia).
  assert (0 <= z / 4 < 2 ^ 53 - 1) as Hi.
  { split; [apply Z.div_pos; lia|].
    apply Z.div_lt_upper_bound; [lia|]. change (2 ^ 53) with 9007199254740992. lia. }
  assert (Prim2SF pos
          = match z with
            | Zpos p => S754_finite false (mantissa p) (exponent p (-2))
            | _ => S754_zero false
            end
          ∧ floor pos = of_Z (z / 4)) as [Hp Hfloor].
  { rewrite Hpos. unfold z. destruct (Z.of_nat n - 1) as [|k|k] eqn:Hk; [|clear Hpos|lia].
    { rewrite Z.mul_0_r.
      assert (Prim2SF (of_Z 0 * y) = S754_zero false) as H0
        by (by rewrite mul_spec, Hy, Prim2SF_of_Z_0).
      split; [done|]. unfold floor. rewrite H0. by apply Prim2SF_inj. }
    assert (Zpos (digits2_pos (k * c)) <= 53) as Hd.
    { apply digits2_pos_below; [lia|]. change (2 ^ 53) with 9007199254740992. lia. }
    pose proof (of_Z_mul k c (-2) y Hy Hd ltac:(lia)) as Hm.
    replace (Zpos c * Zpos k) with (Zpos (k * c)) by lia. split; [done|].
    rewrite (floor_exact (k * c) (-2)) by (done || lia).
    by rewrite Z.shiftr_div_pow2. }
  split; [done|]. rewrite Hfloor. split; [by apply of_Z_succ|].
  apply Prim2SF_inj. rewrite sub_spec, Hp, Prim2SF_quarters by (apply Z.mod_pos_bound; lia).
  pose proof (Z.div_mod z 4 ltac:(done)) as Hdm.
  pose proof (Z.mod_pos_bound z 4 ltac:(done)) as Hmod.
  destruct z as [|zp|zp] eqn:Hzp; [done| |lia].
  assert (Zpos (digits2_pos zp) <= 53) as Hd.
  { apply digits2_pos_below; [lia|]. change (2 ^ 53) with 9007199254740992. lia. }
  destruct (Zpos zp / 4) as [|ip|ip] eqn:Hip; [|clear Hi|lia].
  { rewrite Prim2SF_of_Z_0. rewrite Z.mul_0_r, Z.add_0_l in Hdm. by rewrite <-Hdm. }
  assert (Zpos (digits2_pos ip) + 2 <= 53) as Hdi.
  { pose proof (digits2_pos_below ip 51 ltac:(done)) as H.
    change (2 ^ 51) with 2251799813685248 in H. lia. }
  rewrite Prim2SF_of_Z by lia.
  rewrite <-(mantissa_shl ip 2), <-(exponent_shl ip 2 0) by lia.
  change (0 - 2) with (-2).
  assert (Zpos (shl ip 2) = 4 * Zpos ip) as Hs by (rewrite shl_mul by lia; lia).
  destruct (Zpos zp mod 4) as [|r|r] eqn:Hr; [|clear Hmod|lia].
  { assert (zp = shl ip 2) as -> by lia. apply SFsub_diag. }
  rewrite SFsub_grid by lia.
  by assert ((zp - shl ip 2)%positive = r) as -> by lia.
Qed.

End Exact_rounding.


Section JS_quartiles.
Import Binary64 Dyadic.
Variable approx : float → float → float.
Let J : Number float := js_number approx.
Local Existing Instance J.
Local Open Scope num_scope.

Lemma getValue_quartile (sorted : list float) (c : nat) :
  sorted ≠ [] → (Z.of_nat (length sorted) < 2 ^ 32)%Z → (1 ≤ c ≤ 3)%nat →
  getValue sorted ((of_length (length sorted) - number 1) * number (Z.of_nat c # 4))
  = let i := (c * (length sorted - 1) / 4)%nat in
    match sorted !! S i with
    | Some next =>
        b ← sorted !! i; Some (b + number (weight c (length sorted)) * (next - b))
    | None => sorted !! i
    end.
Proof.
  intros Hne Hlen Hc.
  assert (1 ≤ length sorted)%nat as Hn by (destruct sorted; [done|simpl; lia]).
  assert (Prim2SF (Binary64.of_Q (Z.of_nat c # 4))
          = S754_finite false (mantissa (Pos.of_nat c)) (exponent (Pos.of_nat c) (-2))) as Hy.
  { assert (c = 1 ∨ c = 2 ∨ c = 3)%nat as [->|[->| ->]] by lia; done. }
  assert (Pos.of_nat c <= 3)%positive as Hc3
    by (assert (c = 1 ∨ c = 2 ∨ c = 3)%nat as [->|[->| ->]] by lia; done).
  destruct (quartile_position (length sorted) (Pos.of_nat c) _ Hn Hlen Hc3 Hy)
    as (Hfloor & Hsucc & Hrest).
  assert (Zpos (Pos.of_nat c) * (Z.of_nat (length sorted) - 1)
          = Z.of_nat (c * (length sorted - 1)))%Z as Hz.
  { assert (c = 1 ∨ c = 2 ∨ c = 3)%nat as [->|[->| ->]] by lia;
      cbn [Pos.of_nat Pos.succ]; lia. }
  rewrite Hz in Hfloor, Hsucc, Hrest.
  change 4%Z with (Z.of_nat 4) in Hfloor, Hsucc, Hrest at 1.
  rewrite <-Nat2Z.inj_div in Hfloor, Hsucc. rewrite <-Nat2Z.inj_mod in Hrest.
  set (i := (c * (length sorted - 1) / 4)%nat) in *.
  assert (2 ^ 32 < 2 ^ 53)%Z as Hpow by done.
  assert (i ≤ length sorted - 1)%nat as Hi.
  { unfold i. apply Nat.Div0.div_le_upper_bound. nia. }
  unfold getValue, read.
  change (Math_floor ?x) with (floor x). change (index_of ?x) with (to_index x).
  change (@num_add float J) with PrimFloat.add. change (@num_sub float J) with PrimFloat.sub.
  change (@num_mul float J) with PrimFloat.mul.
  change (@number float J) with Binary64.of_Q.
  change (@of_length float J) with Binary64.of_nat.
  rewrite Hsucc, Hrest, Hfloor.
  rewrite !to_index_of_Z by lia.
  replace (Z.to_nat (Z.of_nat i + 1)) with (S i) by lia. rewrite Nat2Z.id.
  cbn [mbind option_bind]. done.
Qed.

Lemma quarters_literals :
  (number 0.25 : float) = number (Z.of_nat 1 # 4) ∧ (number 0.5 : float) = number (Z.of_nat 2 # 4)
  ∧ (number 0.75 : float) = number (Z.of_nat 3 # 4).
Proof. done. Qed.

(** The summary of a non-empty array, by ranks. *)
Lemma summary_of_ranks (sorted : list float) :
  sorted ≠ [] → (Z.of_nat (length sorted) < 2 ^ 32)%Z →
  let value c :=
    let i := (c * (length sorted - 1) / 4)%nat in
    match sorted !! S i with
    | Some next =>
        b ← sorted !! i; Some (b + number (weight c (length sorted)) * (next - b))
    | None => sorted !! i
    end in
  summary_of sorted
  = Summary.make (sorted !! 0%nat) (value 1%nat) (value 2%nat) (value 3%nat)
      (sorted !! (length sorted - 1)%nat).
Proof.
  intros Hne Hlen. cbv zeta. unfold summary_of.
  destruct quarters_literals as (-> & -> & ->).
  by rewrite !getValue_quartile by (done || lia).
Qed.

(** Every field of the summary of a non-empty array is a number. *)
Lemma getQuartiles_defined (data : loc) (h : heap float) (arr : list float) :
  h !! data = Some arr → arr ≠ [] → (Z.of_nat (length arr) < 2 ^ 32)%Z →
  ∃ min q1 median q3 max,
    (getQuartiles (Some data) h).1
    = Summary.make (Some min) (Some q1) (Some median) (Some q3) (Some max).
Proof.
  intros Hd Hne Hlen. rewrite (getQuartiles_nonempty data h arr) by done. cbn [fst].
  pose proof (sort_by_Permutation (λ a b, a - b) arr) as Hp.
  set (sorted := sort_by _ arr) in *.
  assert (length sorted = length arr) as Hl by (by rewrite Hp).
  assert (sorted ≠ []) as Hs by (intros H; rewrite H in Hl; by destruct arr).
  rewrite summary_of_ranks by (done || lia). cbv zeta.
  assert (0 < length sorted)%nat as Hpos by (destruct sorted; [done|simpl; lia]).
  assert (∀ c, (1 ≤ c ≤ 3)%nat → is_Some (sorted !! (c * (length sorted - 1) / 4)%nat)) as Hb.
  { intros c Hc. apply lookup_lt_is_Some_2.
    apply Nat.le_lt_trans with (length sorted - 1)%nat; [|lia].
    apply Nat.Div0.div_le_upper_bound. nia. }
  destruct (lookup_lt_is_Some_2 sorted 0) as [lo Hlo]; [lia|].
  destruct (lookup_lt_is_Some_2 sorted (length sorted - 1)) as [hi Hhi]; [lia|].
  destruct (Hb 1%nat) as [b1 H1]; [lia|]. destruct (Hb 2%nat) as [b2 H2]; [lia|].
  destruct (Hb 3%nat) as [b3 H3]; [lia|].
  rewrite Hlo, Hhi, H1, H2, H3. cbn [mbind option_bind].
  destruct (sorted !! S _), (sorted !! S _), (sorted !! S _); by eexists _, _, _, _, _.
Qed.

(** X22.  On JavaScript numbers, for an array of at least two numbers
    without [NaN] (fewer than [2^32], as every JavaScript array; the
    infinities included), the quartile [c] ([q1], [median], [q3] for 1, 2,
    3) is read at the rank [c * (n - 1) / 4] of the sorted copy, an integer
    division, and the rank after it, and is [b + w * (next - b)] for the two
    elements [b] and [next] found there and the weight [w], a quarter of
    the remainder of that division: the positions are computed without
    rounding. *)
Theorem getQuartiles_interpolation (data : loc) (h : heap float) (arr : list float) :
  h !! data = Some arr → (2 ≤ length arr)%nat → (Z.of_nat (length arr) < 2 ^ 32)%Z →
  Forall not_NaN arr →
  let sorted := sort_by (λ a b, a - b) arr in
  let summary := (getQuartiles (Some data) h).1 in
  Forall (λ '(c, field),
      ∃ b next,
        sorted !! (c * (length arr - 1) / 4)%nat = Some b
        ∧ sorted !! S (c * (length arr - 1) / 4) = Some next
        ∧ field = Some (b + number (weight c (length arr)) * (next - b)))
    [(1%nat, Summary.q1 summary); (2%nat, Summary.median summary);
     (3%nat, Summary.q3 summary)].
Proof.
  intros Hd Hn Hlen _. cbv zeta.
  assert (arr ≠ []) as Hne by (intros ->; simpl in Hn; lia).
  rewrite (getQuartiles_nonempty data h arr) by done. cbn [fst].
  pose proof (sort_by_Permutation (λ a b, a - b) arr) as Hp.
  set (sorted := sort_by _ arr) in *.
  assert (length sorted = length arr) as Hl by (by rewrite Hp).
  assert (sorted ≠ []) as Hs by (intros H; rewrite H in Hl; simpl in Hl; lia).
  rewrite summary_of_ranks by (done || lia). cbv zeta.
  cbn [Summary.q1 Summary.median Summary.q3]. rewrite Hl.
  assert (∀ c, (1 ≤ c ≤ 3)%nat → (S (c * (length arr - 1) / 4) < length sorted)%nat) as Hb.
  { intros c Hc. rewrite Hl.
    assert (c * (length arr - 1) / 4 < length arr - 1)%nat; [|lia].
    apply Nat.Div0.div_lt_upper_bound. nia. }
  repeat first [apply Forall_nil_2 | apply Forall_cons_2].
  all: match goal with |- context [(?c * _ / 4)%nat] =>
         pose proof (Hb c ltac:(lia)) as Hc end.
  all: destruct (lookup_lt_is_Some_2 sorted _ Hc) as [next Hnext].
  all: destruct (lookup_lt_is_Some_2 sorted _ (Nat.lt_succ_l _ _ Hc)) as [b Hbase].
  all: exists b, next; by rewrite Hnext, Hbase.
Qed.

(** X23.  On JavaScript numbers, the five fields of the summary of an
    array of one number are that number, whichever it is. *)
Theorem getQuartiles_single (data : loc) (h : heap float) (x : float) :
  h !! data = Some [x] →
  (getQuartiles (Some data) h).1
  = Summary.make (Some x) (Some x) (Some x) (Some x) (Some x).
Proof.
  intros Hd. rewrite (getQuartiles_nonempty data h [x]) by done. cbn [fst].
  change (sort_by _ [x]) with [x].
  by rewrite summary_of_ranks.
Qed.
End JS_quartiles.


(** ** The order of binary64 and the sort of [getQuartiles]

    The comparator [(a, b) => a - b] orders numbers that are not [NaN] as
    [<] does: a difference is positive exactly when its first operand is
    the greater, and is zero only when the operands are equal. *)

Section Float_order.
Import Binary64 Dyadic.
Local Open Scope Z_scope.

Lemma bounded_finite (m : positive) (e : Z) :
  bounded prec emax m e = true →
  Zpos (digits2_pos m) <= 53 ∧ -1074 <= e <= 971
  ∧ (-1074 < e → Zpos (digits2_pos m) = 53).
Proof.
  unfold bounded, canonical_mantissa, fexp, SpecFloat.emin, prec, emax.
  intros [H1 H2]%andb_prop. apply Z.eqb_eq in H1. apply Z.leb_le in H2. lia.
Qed.

Lemma pow2_pos (a : Z) : 0 <= a → 0 < 2 ^ a.
Proof. intros. apply Z.pow_pos_nonneg; lia. Qed.

Lemma units_finite_bounds (m : positive) (e : Z) :
  bounded prec emax m e = true → 0 < Zpos m * 2 ^ (e + 1074) < 2 ^ 2100.
Proof.
  intros (Hd & He & _)%bounded_finite.
  pose proof (digits2_pos_bounds m) as [_ Hm].
  pose proof (pow2_pos (e + 1074) ltac:(lia)).
  split; [lia|].
  assert (2 ^ Zpos (digits2_pos m) <= 2 ^ 53) by (apply Z.pow_le_mono_r; lia).
  assert (2 ^ (e + 1074) <= 2 ^ 2045) by (apply Z.pow_le_mono_r; lia).
  replace (2 ^ 2100) with (2 ^ 53 * 2 ^ 2045 * 4) by (by rewrite <-Z.pow_add_r by lia).
  assert (0 < 2 ^ 53) by (by apply pow2_pos). nia.
Qed.

(** Floats of greater exponent are greater. *)
Lemma units_exponent_lt (m1 m2 : positive) (e1 e2 : Z) :
  bounded prec emax m1 e1 = true → bounded prec emax m2 e2 = true → e1 < e2 →
  Zpos m1 * 2 ^ (e1 + 1074) < Zpos m2 * 2 ^ (e2 + 1074).
Proof.
  intros (Hd1 & He1 & _)%bounded_finite (Hd2 & He2 & Hn2)%bounded_finite Hlt.
  pose proof (digits2_pos_bounds m1) as [_ Hm1].
  pose proof (digits2_pos_bounds m2) as [Hm2 _].
  rewrite Hn2 in Hm2 by lia.
  assert (2 ^ Zpos (digits2_pos m1) <= 2 ^ 53) by (apply Z.pow_le_mono_r; lia).
  replace (e2 + 1074) with ((e1 + 1074) + (e2 - e1)) by lia.
  rewrite (Z.pow_add_r 2 (e1 + 1074) (e2 - e1)) by lia.
  pose proof (pow2_pos (e1 + 1074) ltac:(lia)).
  assert (2 ^ 1 <= 2 ^ (e2 - e1)) by (apply Z.pow_le_mono_r; lia).
  change (2 ^ 1) with 2 in *. change (2 ^ (53 - 1)) with 4503599627370496 in *.
  change (2 ^ 53) with 9007199254740992 in *.
  assert (Zpos m1 < Zpos m2 * 2 ^ (e2 - e1)) as Hm by nia.
  rewrite (Z.mul_comm (2 ^ (e1 + 1074))), Z.mul_assoc.
  by apply Z.mul_lt_mono_pos_r.
Qed.

Lemma SFcompare_units (x y : spec_float) :
  valid_binary x = true → valid_binary y = true →
  x ≠ S754_nan → y ≠ S754_nan →
  SFcompare x y = Some (units x ?= units y).
Proof.
  assert (0 < 2 ^ 2100) as Hinf by (by apply pow2_pos).
  intros Hx Hy Hnx Hny.
  assert (∀ a b c, (match c with
                    | Eq => a = b | Lt => a < b | Gt => b < a
                    end) → Some c = Some (a ?= b)) as Hcmp.
  { intros a b [] H; f_equal; symmetry;
      [by apply Z.compare_eq_iff|by apply Z.compare_lt_iff|apply Z.compare_gt_iff; lia]. }
  destruct x as [sx|sx| |sx mx ex], y as [sy|sy| |sy my ey]; try done;
    cbn [SpecFloat.valid_binary] in Hx, Hy;
    try (pose proof (units_finite_bounds _ _ Hx) as Bx);
    try (pose proof (units_finite_bounds _ _ Hy) as By);
    cbn [SFcompare units]; set (big := 2 ^ 2100) in *; clearbody big;
    try (repeat match goal with s : bool |- _ => destruct s end;
         apply Hcmp; cbn [cond_Zopp]; lia).
  assert (0 < 2 ^ (ey + 1074)) as Hp by (apply pow2_pos; apply bounded_finite in Hy; lia).
  change (Pos.compare_cont Eq mx my) with (mx ?= my)%positive.
  destruct sx, sy; cbn [cond_Zopp]; [|apply Hcmp; lia..|].
  - destruct (Z.compare_spec ex ey) as [->|Hlt|Hgt].
    + destruct (Pos.compare_spec mx my) as [->|Hl|Hg]; cbn [CompOpp]; apply Hcmp; nia.
    + pose proof (units_exponent_lt _ _ _ _ Hx Hy Hlt). apply Hcmp. lia.
    + pose proof (units_exponent_lt _ _ _ _ Hy Hx Hgt). apply Hcmp. lia.
  - destruct (Z.compare_spec ex ey) as [->|Hlt|Hgt].
    + destruct (Pos.compare_spec mx my) as [->|Hl|Hg]; apply Hcmp; nia.
    + pose proof (units_exponent_lt _ _ _ _ Hx Hy Hlt). apply Hcmp. lia.
    + pose proof (units_exponent_lt _ _ _ _ Hy Hx Hgt). apply Hcmp. lia.
Qed.

(** Shifting a mantissa to the right by fewer places than it has digits
    leaves a positive mantissa. *)
Lemma shr_1_digits (mrs : shr_record) (d : Z) :
  1 < d → has_digits mrs d → has_digits (shr_1 mrs) (d - 1).
Proof.
  intros Hd (m & Hm & Hdm). destruct mrs as [z r s]. cbn [shr_m] in Hm. subst z.
  destruct m as [m|m|]; cbn [digits2_pos] in Hdm; [| |simpl in Hdm; lia].
  all: exists m; split; [done|lia].
Qed.

Lemma iter_shr_1_digits (p : positive) (mrs : shr_record) (d : Z) :
  Zpos p < d → has_digits mrs d → has_digits (SpecFloat.iter_pos shr_1 p mrs) (d - Zpos p).
Proof.
  revert mrs d. induction p as [p IH|p IH|]; intros mrs d Hp Hm; cbn [SpecFloat.iter_pos].
  - replace (d - Zpos p~1) with (d - 1 - Zpos p - Zpos p) by lia.
    apply IH; [lia|]. apply IH; [lia|]. apply shr_1_digits; [lia|done].
  - replace (d - Zpos p~0) with (d - Zpos p - Zpos p) by lia.
    apply IH; [lia|]. by apply IH; [lia|].
  - apply shr_1_digits; [lia|done].
Qed.

Lemma shr_fexp_positive (m : positive) (e : Z) (l : location) :
  -1074 <= e →
  (∃ m', shr_m (shr_fexp prec emax (Zpos m) e l).1 = Zpos m')
  ∧ -1074 <= (shr_fexp prec emax (Zpos m) e l).2.
Proof.
  intros He. unfold shr_fexp, shr. cbn [Zdigits2].
  assert (has_digits (shr_record_of_loc (Zpos m) l) (Zpos (digits2_pos m))) as Hm
    by (exists m; by destruct l as [|[]]).
  destruct (fexp prec emax (Zpos (digits2_pos m) + e) - e) as [|p|p] eqn:Hp; cbn [fst snd].
  - split; [|done]. destruct Hm as (m' & ? & _). by exists m'.
  - assert (Zpos p < Zpos (digits2_pos m)) as Hlt
      by (unfold fexp, SpecFloat.emin, prec, emax in Hp; lia).
    destruct (iter_shr_1_digits p _ _ Hlt Hm) as (m' & ? & _).
    split; [by exists m'|lia].
  - split; [|done]. destruct Hm as (m' & ? & _). by exists m'.
Qed.

(** A number that is not zero does not round to zero. *)
Lemma binary_round_aux_not_zero (s : bool) (m : positive) (e : Z) (l : location) :
  -1074 <= e →
  match binary_round_aux prec emax s (Zpos m) e l with
  | S754_finite s' _ _ | S754_infinity s' => s' = s
  | _ => False
  end.
Proof.
  intros He. unfold binary_round_aux.
  destruct (shr_fexp_positive m e l He) as [[m1 H1] He1].
  destruct (shr_fexp prec emax (Zpos m) e l) as [mrs1 e1]. cbn [fst snd] in *.
  rewrite H1.
  assert (∃ m2, round_nearest_even (Zpos m1) (loc_of_shr_record mrs1) = Zpos m2) as [m2 ->].
  { unfold round_nearest_even. destruct (loc_of_shr_record mrs1) as [|[]]; eauto.
    destruct (Z.even _); eauto. }
  destruct (shr_fexp_positive m2 e1 loc_Exact He1) as [[m3 H3] _].
  destruct (shr_fexp prec emax (Zpos m2) e1 loc_Exact) as [mrs3 e3]. cbn [fst snd] in *.
  rewrite H3. by destruct (_ <=? _).
Qed.

Lemma binary_round_not_zero (s : bool) (m : positive) (e : Z) :
  -1074 <= e →
  match binary_round prec emax s m e with
  | S754_finite s' _ _ | S754_infinity s' => s' = s
  | _ => False
  end.
Proof.
  intros He. unfold binary_round, shl_align.
  destruct (fexp prec emax (Zpos (digits2_pos m) + e) - e) eqn:Hp;
    apply binary_round_aux_not_zero; [done..|].
  unfold fexp, SpecFloat.emin, prec, emax. lia.
Qed.

Lemma shl_align_units (m : positive) (e ez : Z) :
  -1074 <= ez <= e →
  Zpos (shl_align m e ez).1 * 2 ^ (ez + 1074) = Zpos m * 2 ^ (e + 1074).
Proof.
  intros He. unfold shl_align.
  destruct (ez - e) as [|d|d] eqn:Hd; cbn [fst]; [by replace ez with e by lia|lia|].
  rewrite iter_xO_mul. replace (e + 1074) with (Zpos d + (ez + 1074)) by lia.
  rewrite (Z.pow_add_r 2 (Zpos d) (ez + 1074)) by lia. ring.
Qed.

(** The sign of a difference: [x - y > 0] exactly when [y < x]. *)
Lemma SFsub_positive (x y : spec_float) :
  valid_binary x = true → valid_binary y = true → x ≠ S754_nan → y ≠ S754_nan →
  SFltb (S754_zero false) (SF64sub x y) = (units y <? units x).
Proof.
  intros Hx Hy Hnx Hny.
  assert (0 < 2 ^ 2100) as Hbig by (by apply pow2_pos).
  assert (∀ r, match r with
               | S754_finite s' _ _ | S754_infinity s' => s' = false
               | _ => False
               end → SFltb (S754_zero false) r = true) as Hpos.
  { by intros [| [] | | [] ? ?]. }
  assert (∀ r, match r with
               | S754_finite s' _ _ | S754_infinity s' => s' = true
               | _ => False
               end → SFltb (S754_zero false) r = false) as Hneg.
  { by intros [| [] | | [] ? ?]. }
  destruct x as [sx|sx| |sx mx ex], y as [sy|sy| |sy my ey]; try done;
    cbn [SpecFloat.valid_binary] in Hx, Hy;
    try (pose proof (units_finite_bounds _ _ Hx) as Bx);
    try (pose proof (units_finite_bounds _ _ Hy) as By);
    unfold SF64sub; cbn [SFsub units]; set (big := 2 ^ 2100) in *.
  all: try (clearbody big; repeat match goal with s : bool |- _ => destruct s end;
            cbn [cond_Zopp negb SFltb SFcompare]; symmetry;
            first [apply Z.ltb_lt; lia | apply Z.ltb_ge; lia]).
  clearbody big.
  pose proof (bounded_finite _ _ Hx) as (_ & Hex & _).
  pose proof (bounded_finite _ _ Hy) as (_ & Hey & _).
  set (ez := Z.min ex ey).
  pose proof (shl_align_units mx ex ez ltac:(unfold ez; lia)) as Hax.
  pose proof (shl_align_units my ey ez ltac:(unfold ez; lia)) as Hay.
  assert (0 < 2 ^ (ez + 1074)) as Hp by (apply pow2_pos; unfold ez; lia).
  set (ax := Zpos (shl_align mx ex ez).1) in *. set (ay := Zpos (shl_align my ey ez).1) in *.
  set (ux := Zpos mx * 2 ^ (ex + 1074)) in *. set (uy := Zpos my * 2 ^ (ey + 1074)) in *.
  set (P := 2 ^ (ez + 1074)) in *.
  assert (-1074 <= ez) as Hez by (unfold ez; lia).
  destruct (cond_Zopp sx ax - cond_Zopp sy ay) as [|d|d] eqn:Hd; cbn [binary_normalize].
  - symmetry. apply Z.ltb_ge. destruct sx, sy; cbn [cond_Zopp] in *; nia.
  - rewrite Hpos by (by apply binary_round_not_zero).
    symmetry. apply Z.ltb_lt. destruct sx, sy; cbn [cond_Zopp] in *; nia.
  - rewrite Hneg by (by apply binary_round_not_zero).
    symmetry. apply Z.ltb_ge. destruct sx, sy; cbn [cond_Zopp] in *; nia.
Qed.

(** A difference of finite floats is zero only when they are equal. *)
Lemma SFsub_zero (x y : spec_float) :
  valid_binary x = true → valid_binary y = true →
  match x, y with
  | (S754_zero _ | S754_finite _ _ _), (S754_zero _ | S754_finite _ _ _) =>
      units x = units y → ∃ s, SF64sub x y = S754_zero s
  | _, _ => True
  end.
Proof.
  intros Hx Hy.
  destruct x as [sx|sx| |sx mx ex], y as [sy|sy| |sy my ey]; try done;
    cbn [SpecFloat.valid_binary] in Hx, Hy;
    try (pose proof (units_finite_bounds _ _ Hx) as Bx);
    try (pose proof (units_finite_bounds _ _ Hy) as By);
    unfold SF64sub; cbn [SFsub units]; set (big := 2 ^ 2100) in *; clearbody big.
  - intros _. destruct sx, sy; eauto.
  - destruct sy; cbn [cond_Zopp]; lia.
  - destruct sx; cbn [cond_Zopp]; lia.
  - intros Hu.
    pose proof (bounded_finite _ _ Hx) as (_ & Hex & _).
    pose proof (bounded_finite _ _ Hy) as (_ & Hey & _).
    set (ez := Z.min ex ey).
    pose proof (shl_align_units mx ex ez ltac:(unfold ez; lia)) as Hax.
    pose proof (shl_align_units my ey ez ltac:(unfold ez; lia)) as Hay.
    assert (0 < 2 ^ (ez + 1074)) as Hp by (apply pow2_pos; unfold ez; lia).
    set (ax := Zpos (shl_align mx ex ez).1) in *. set (ay := Zpos (shl_align my ey ez).1) in *.
    set (ux := Zpos mx * 2 ^ (ex + 1074)) in *. set (uy := Zpos my * 2 ^ (ey + 1074)) in *.
    set (P := 2 ^ (ez + 1074)) in *.
    assert (cond_Zopp sx ax - cond_Zopp sy ay = 0) as ->
      by (destruct sx, sy; cbn [cond_Zopp] in *; nia).
    by exists false.
Qed.

Lemma not_NaN_Prim2SF (x : float) : not_NaN x → Prim2SF x ≠ S754_nan.
Proof.
  unfold not_NaN. rewrite is_nan_class. unfold class_of. by destruct (Prim2SF x).
Qed.

Lemma sub_positive (a b : float) :
  not_NaN a → not_NaN b → (0 <? a - b)%float = (float_units b <? float_units a).
Proof.
  intros Ha%not_NaN_Prim2SF Hb%not_NaN_Prim2SF.
  rewrite ltb_spec, sub_spec. change (Prim2SF 0) with (S754_zero false).
  apply SFsub_positive; auto using Prim2SF_valid.
Qed.

Lemma leb_units (a b : float) :
  not_NaN a → not_NaN b → (a <=? b)%float = (float_units a <=? float_units b).
Proof.
  intros Ha%not_NaN_Prim2SF Hb%not_NaN_Prim2SF.
  rewrite leb_spec. unfold SFleb, float_units, Z.leb.
  rewrite SFcompare_units by auto using Prim2SF_valid.
  by destruct (_ ?= _).
Qed.

Lemma eqb_units (a b : float) :
  not_NaN a → not_NaN b → (a =? b)%float = (float_units a =? float_units b).
Proof.
  intros Ha%not_NaN_Prim2SF Hb%not_NaN_Prim2SF.
  rewrite FloatAxioms.eqb_spec, Z.eqb_compare. unfold SFeqb, float_units.
  by rewrite SFcompare_units by auto using Prim2SF_valid.
Qed.

Lemma finite_not_NaN (x : float) : is_finite x = true → not_NaN x.
Proof. unfold not_NaN. rewrite is_finite_class, is_nan_class. by destruct (class_of x). Qed.

(** [b - a === 0] exactly when [a] and [b] are equal, for finite numbers:
    no difference of two distinct numbers rounds to zero. *)
Lemma sub_eqb_zero (a b : float) :
  is_finite a = true → is_finite b = true →
  (b - a =? 0)%float = (float_units a =? float_units b).
Proof.
  intros Ha Hb.
  pose proof (finite_not_NaN a Ha) as Hna. pose proof (finite_not_NaN b Hb) as Hnb.
  destruct (Z.eqb_spec (float_units a) (float_units b)) as [Heq|Hne].
  - rewrite is_finite_class in Ha, Hb. unfold class_of in Ha, Hb.
    pose proof (SFsub_zero (Prim2SF b) (Prim2SF a) (Prim2SF_valid b) (Prim2SF_valid a)) as Hz.
    rewrite FloatAxioms.eqb_spec, sub_spec. change (Prim2SF 0) with (S754_zero false).
    unfold float_units in Heq.
    destruct (Prim2SF a), (Prim2SF b); try done;
      destruct (Hz (eq_sym Heq)) as [sz ->]; by destruct sz.
  - assert ((0 <? b - a)%float = true ∨ (0 <? a - b)%float = true) as Hpos.
    { rewrite !sub_positive by done.
      destruct (Z.ltb_spec (float_units a) (float_units b)); [by left|right].
      apply Z.ltb_lt. lia. }
    rewrite FloatAxioms.eqb_spec, sub_spec. change (Prim2SF 0) with (S754_zero false).
    pose proof (SFabs_sub_swap (Prim2SF b) (Prim2SF a)) as Habs.
    destruct Hpos as [H|H]; rewrite ltb_spec, sub_spec in H;
      change (Prim2SF 0) with (S754_zero false) in H.
    + by destruct (SF64sub (Prim2SF b) (Prim2SF a)) as [[]|[]| |[] ? ?].
    + destruct (SF64sub (Prim2SF b) (Prim2SF a)) as [[]|[]| |[] ? ?],
        (SF64sub (Prim2SF a) (Prim2SF b)) as [[]|[]| |[] ? ?]; done.
Qed.
End Float_order.


(** ** Rounding is monotone

    The sum, the difference and the quotient of two floats and a quarter,
    a half or three quarters of a float are the exact result, rounded; the
    rounding is a monotone function that leaves the floats where they
    are. *)

Section Rounding.
Import Binary64 Dyadic.
Local Open Scope Z_scope.

(** Iterated shifts. *)
Lemma iter_pos_comm {A} (f : A → A) (p : positive) (x : A) :
  SpecFloat.iter_pos f p (f x) = f (SpecFloat.iter_pos f p x).
Proof.
  revert x. induction p as [p IH|p IH|]; intros x; cbn [SpecFloat.iter_pos]; [|by rewrite !IH|done].
  by rewrite !IH.
Qed.

Lemma iter_pos_succ {A} (f : A → A) (p : positive) (x : A) :
  SpecFloat.iter_pos f (Pos.succ p) x = f (SpecFloat.iter_pos f p x).
Proof.
  revert x. induction p as [p IH|p IH|]; intros x.
  - change (Pos.succ (xI p)) with (xO (Pos.succ p)). cbn [SpecFloat.iter_pos].
    by rewrite !IH, !iter_pos_comm.
  - change (Pos.succ (xO p)) with (xI p). cbn [SpecFloat.iter_pos].
    by rewrite !iter_pos_comm.
  - done.
Qed.

Lemma iter_pos_add {A} (f : A → A) (p q : positive) (x : A) :
  SpecFloat.iter_pos f (p + q) x = SpecFloat.iter_pos f q (SpecFloat.iter_pos f p x).
Proof.
  induction q as [|q IH] using Pos.peano_ind.
  - by rewrite Pos.add_1_r, iter_pos_succ.
  - by rewrite Pos.add_succ_r, !iter_pos_succ, IH.
Qed.

(** A shift halves the mantissa and keeps the order of the positions. *)
Lemma shr_1_m (mrs : shr_record) : 0 <= shr_m mrs → shr_m (shr_1 mrs) = shr_m mrs / 2.
Proof.
  destruct mrs as [[|[m|m|]|m] r s]; cbn [shr_m shr_1]; intros Hm; [done| | |done|lia].
  - rewrite Pos2Z.inj_xI. apply Z.div_unique with 1; lia.
  - rewrite Pos2Z.inj_xO. apply Z.div_unique with 0; lia.
Qed.

Lemma shr_1_position (mrs : shr_record) :
  0 <= shr_m mrs →
  position (shr_1 mrs)
  = 2 * shr_m mrs + (if shr_r mrs || shr_s mrs then 1 else 0).
Proof.
  destruct mrs as [[|[m|m|]|m] r s]; unfold position; cbn [shr_m shr_r shr_s shr_1];
    intros Hm; try lia; destruct r, s; cbn [orb]; lia.
Qed.

Lemma shr_1_mono (a b : shr_record) :
  0 <= shr_m a → 0 <= shr_m b → position a <= position b →
  position (shr_1 a) <= position (shr_1 b).
Proof.
  intros Ha Hb. rewrite !shr_1_position by done. unfold position.
  destruct (shr_r a), (shr_s a), (shr_r b), (shr_s b); cbn [orb]; lia.
Qed.

Lemma iter_shr_1_m (p : positive) (mrs : shr_record) :
  0 <= shr_m mrs → shr_m (SpecFloat.iter_pos shr_1 p mrs) = shr_m mrs / 2 ^ Zpos p.
Proof.
  intros Hm. induction p as [|p IH] using Pos.peano_ind.
  - cbn [SpecFloat.iter_pos]. by rewrite shr_1_m.
  - assert (0 < 2 ^ Zpos p) by (apply Z.pow_pos_nonneg; lia).
    rewrite iter_pos_succ, shr_1_m by (rewrite IH; apply Z.div_pos; lia).
    rewrite IH, Pos2Z.inj_succ, Z.pow_succ_r, Z.div_div by lia. f_equal. lia.
Qed.

Lemma iter_shr_1_mono (p : positive) (a b : shr_record) :
  0 <= shr_m a → 0 <= shr_m b → position a <= position b →
  position (SpecFloat.iter_pos shr_1 p a) <= position (SpecFloat.iter_pos shr_1 p b).
Proof.
  intros Ha Hb Hab. induction p as [|p IH] using Pos.peano_ind.
  - by apply shr_1_mono.
  - rewrite !iter_pos_succ. apply shr_1_mono; [| |done].
    all: assert (0 < 2 ^ Zpos p) by (apply Z.pow_pos_nonneg; lia).
    all: rewrite iter_shr_1_m by done; apply Z.div_pos; lia.
Qed.

(** Rounding to nearest, ties to even, keeps the order of the positions. *)
Lemma nearest_bounds (mrs : shr_record) : shr_m mrs <= nearest mrs <= shr_m mrs + 1.
Proof.
  destruct mrs as [m [] []]; unfold nearest; cbn; try lia.
  destruct (Z.even m); lia.
Qed.

Lemma nearest_mono (a b : shr_record) : position a <= position b → nearest a <= nearest b.
Proof.
  destruct a as [ma ra sa], b as [mb rb sb]. unfold position, nearest. cbn [shr_m shr_r shr_s].
  intros Hab.
  destruct (decide (ma = mb)) as [->|Hne].
  - destruct ra, sa, rb, sb; cbn; try lia; destruct (Z.even mb); lia.
  - assert (ma + 1 <= mb) by (destruct ra, sa, rb, sb; lia).
    pose proof (nearest_bounds {| shr_m := ma; shr_r := ra; shr_s := sa |}) as Ha.
    pose proof (nearest_bounds {| shr_m := mb; shr_r := rb; shr_s := sb |}) as Hb.
    unfold nearest in Ha, Hb. cbn [shr_m] in Ha, Hb. lia.
Qed.

Lemma digits2_pos_mono (a b : positive) :
  (a <= b)%positive → Zpos (digits2_pos a) <= Zpos (digits2_pos b).
Proof.
  intros Hab. apply digits2_pos_below; [lia|].
  pose proof (digits2_pos_bounds b). lia.
Qed.

Lemma fexp_ge (z : Z) : -1074 <= fexp prec emax z ∧ z - 53 <= fexp prec emax z.
Proof. unfold fexp, SpecFloat.emin, prec, emax. lia. Qed.

(** The mantissa left by the first shift of a rounding. *)
Lemma shifted_bounds (V : positive) (p : Z) :
  0 < p → Zpos (digits2_pos V) - 53 <= p →
  0 <= Zpos V / 2 ^ p < 2 ^ 53
  ∧ (p = Zpos (digits2_pos V) - 53 → 2 ^ 52 <= Zpos V / 2 ^ p).
Proof.
  intros Hp Hd. pose proof (digits2_pos_bounds V) as [Hlo Hhi].
  assert (0 < 2 ^ p) by (apply Z.pow_pos_nonneg; lia).
  split; [split; [apply Z.div_pos; lia|]|].
  - apply Z.div_lt_upper_bound; [lia|]. rewrite <-Z.pow_add_r by lia.
    eapply Z.lt_le_trans; [exact Hhi|]. apply Z.pow_le_mono_r; lia.
  - intros ->. apply Z.div_le_lower_bound; [lia|]. rewrite <-Z.pow_add_r by lia.
    by replace (Zpos (digits2_pos V) - 53 + 52) with (Zpos (digits2_pos V) - 1) by lia.
Qed.

(** The result of a rounding that shifts to the right. *)
Lemma round_aux_units (s : bool) (V : positive) (e : Z) :
  let E := fexp prec emax (Zpos (digits2_pos V) + e) in
  e < E →
  units (binary_round_aux prec emax s (Zpos V) e loc_Exact)
  = cond_Zopp s
      (finished
         (nearest (SpecFloat.iter_pos shr_1 (Z.to_pos (E - e))
                     {| shr_m := Zpos V; shr_r := false; shr_s := false |}))
         E).
Proof.
  intros E HE.
  pose proof (fexp_ge (Zpos (digits2_pos V) + e)) as [HE1 HE2]. fold E in HE1, HE2.
  unfold binary_round_aux. unfold shr_fexp at 1. cbn [Zdigits2 shr_record_of_loc]. fold E.
  destruct (E - e) as [|p|p] eqn:Hp; [lia| |lia]. cbn [shr Z.to_pos].
  replace (e + Zpos p) with E by lia.
  set (mrs := SpecFloat.iter_pos shr_1 p _).
  fold (nearest mrs).
  assert (0 <= nearest mrs <= 2 ^ 53) as HM.
  { pose proof (nearest_bounds mrs). unfold mrs in *.
    rewrite iter_shr_1_m in * by (cbn; lia). cbn [shr_m] in *.
    pose proof (shifted_bounds V (Zpos p) ltac:(lia) ltac:(lia)) as [? _]. lia. }
  unfold finished, shr_fexp. cbn [shr_record_of_loc].
  destruct (nearest mrs) as [|M|M] eqn:HMeq; [| |lia].
  - cbn [Zdigits2]. pose proof (fexp_ge (0 + E)).
    assert (fexp prec emax (0 + E) - E <= 0) as Hle
      by (unfold fexp, SpecFloat.emin, prec, emax; lia).
    destruct (fexp prec emax (0 + E) - E); [| lia |]; cbn [shr fst snd shr_m]; by destruct s.
  - cbn [Zdigits2]. change (Zpos M =? 0) with false. cbv iota.
    destruct (Z.eqb_spec (Zpos M) (2 ^ 53)) as [HM53|HM53].
    + assert (Zpos (digits2_pos M) = 54) as ->.
      { pose proof (digits2_pos_above M 53 ltac:(lia)).
        pose proof (digits2_pos_below M 54 ltac:(lia) ltac:(rewrite HM53; done)). lia. }
      assert (fexp prec emax (54 + E) - E = 1) as ->
        by (unfold fexp, SpecFloat.emin, prec, emax; lia).
      assert (M = 4503599627370496~0)%positive as -> by lia.
      cbn [shr SpecFloat.iter_pos shr_1 fst snd shr_m].
      unfold prec, emax. change (1024 - 53) with 971.
      destruct (Z.leb_spec (E + 1) 971); cbn [units]; [|done].
      f_equal. replace (E + 1 + 1074) with (Z.succ (E + 1074)) by lia.
      rewrite Z.pow_succ_r by lia. lia.
    + assert (Zpos (digits2_pos M) <= 53) as HdM.
      { apply digits2_pos_below; lia. }
      assert (fexp prec emax (Zpos (digits2_pos M) + E) - E <= 0) as Hle
        by (unfold fexp, SpecFloat.emin, prec, emax; lia).
      destruct (fexp prec emax (Zpos (digits2_pos M) + E) - E); [| lia |];
        cbn [shr fst snd shr_m]; rewrite Z.add_0_r;
        unfold prec, emax; change (1024 - 53) with 971;
        by destruct (Z.leb_spec E 971).
Qed.

Lemma finished_bounds (M E : Z) :
  0 <= M <= 2 ^ 53 → -1074 <= E → 0 <= finished M E <= 2 ^ 2100.
Proof.
  intros HM HE. unfold finished.
  assert (0 < 2 ^ 2100) by (by apply Z.pow_pos_nonneg).
  destruct (Z.eqb_spec M 0); [lia|].
  destruct (Z.leb_spec (E + (if M =? 2 ^ 53 then 1 else 0)) 971) as [Hle|]; [|lia].
  assert (0 < 2 ^ (E + 1074)) by (apply Z.pow_pos_nonneg; lia).
  split; [nia|].
  assert (2 ^ (E + 1074) <= 2 ^ 2045) by (apply Z.pow_le_mono_r; destruct (M =? 2 ^ 53); lia).
  replace (2 ^ 2100) with (2 ^ 53 * 2 ^ 2045 * 4) by (by rewrite <-Z.pow_add_r by lia).
  assert (0 < 2 ^ 53) by done. nia.
Qed.

Lemma finished_mono (M1 M2 E : Z) :
  0 <= M1 <= M2 → M2 <= 2 ^ 53 → -1074 <= E → finished M1 E <= finished M2 E.
Proof.
  intros HM1 HM2 HE.
  pose proof (finished_bounds M1 E ltac:(lia) HE) as B1.
  pose proof (finished_bounds M2 E ltac:(lia) HE) as B2.
  unfold finished in *.
  assert (0 < 2 ^ (E + 1074)) by (apply Z.pow_pos_nonneg; lia).
  destruct (Z.eqb_spec M1 0); [lia|]. destruct (Z.eqb_spec M2 0); [lia|].
  destruct (Z.eqb_spec M1 (2 ^ 53)), (Z.eqb_spec M2 (2 ^ 53)); try lia.
  - destruct (Z.leb_spec (E + 1) 971); lia.
  - destruct (Z.leb_spec (E + 0) 971), (Z.leb_spec (E + 1) 971); try lia. nia.
  - destruct (Z.leb_spec (E + 0) 971); [nia|lia].
Qed.

(** Across exponents: a float of a lower exponent is below one of a higher
    exponent whose mantissa has all its digits. *)
Lemma finished_exponent (M1 M2 E1 E2 : Z) :
  0 <= M1 <= 2 ^ 53 → 2 ^ 52 <= M2 <= 2 ^ 53 → -1074 <= E1 < E2 →
  finished M1 E1 <= finished M2 E2.
Proof.
  intros HM1 HM2 HE.
  pose proof (finished_bounds M1 E1 ltac:(lia) ltac:(lia)) as B1.
  pose proof (finished_bounds M2 E2 ltac:(lia) ltac:(lia)) as B2.
  unfold finished in *.
  assert (0 < 2 ^ (E1 + 1074)) by (apply Z.pow_pos_nonneg; lia).
  assert (2 * 2 ^ (E1 + 1074) <= 2 ^ (E2 + 1074)).
  { rewrite <-Z.pow_succ_r by lia. apply Z.pow_le_mono_r; lia. }
  change (2 ^ 52) with 4503599627370496 in *. change (2 ^ 53) with 9007199254740992 in *.
  destruct (Z.eqb_spec M1 0); [lia|]. destruct (Z.eqb_spec M2 0); [lia|].
  destruct (Z.leb_spec (E2 + (if M2 =? 9007199254740992 then 1 else 0)) 971) as [H2|H2].
  - destruct (Z.leb_spec (E1 + (if M1 =? 9007199254740992 then 1 else 0)) 971) as [H1|H1].
    + nia.
    + destruct (M1 =? _), (M2 =? _); lia.
  - lia.
Qed.

(** Rounding is monotone: at one exponent, below that of every float. *)
Lemma round_aux_mono (V1 V2 : positive) (e : Z) :
  e < -1074 → (V1 <= V2)%positive →
  units (binary_round_aux prec emax false (Zpos V1) e loc_Exact)
  <= units (binary_round_aux prec emax false (Zpos V2) e loc_Exact).
Proof.
  intros He HV.
  pose proof (fexp_ge (Zpos (digits2_pos V1) + e)) as [HE1 HE1'].
  pose proof (fexp_ge (Zpos (digits2_pos V2) + e)) as [HE2 HE2'].
  rewrite !round_aux_units by lia. cbn [cond_Zopp].
  set (E1 := fexp prec emax (Zpos (digits2_pos V1) + e)) in *.
  set (E2 := fexp prec emax (Zpos (digits2_pos V2) + e)) in *.
  pose proof (digits2_pos_mono V1 V2 HV) as Hd.
  assert (E1 <= E2) as HE by (unfold E1, E2, fexp, SpecFloat.emin, prec, emax; lia).
  set (m1 := SpecFloat.iter_pos shr_1 (Z.to_pos (E1 - e)) _).
  set (m2 := SpecFloat.iter_pos shr_1 (Z.to_pos (E2 - e)) _).
  assert (shr_m m1 = Zpos V1 / 2 ^ (E1 - e)) as Hm1.
  { unfold m1. rewrite iter_shr_1_m by (cbn; lia). cbn [shr_m]. by rewrite Z2Pos.id by lia. }
  assert (shr_m m2 = Zpos V2 / 2 ^ (E2 - e)) as Hm2.
  { unfold m2. rewrite iter_shr_1_m by (cbn; lia). cbn [shr_m]. by rewrite Z2Pos.id by lia. }
  pose proof (shifted_bounds V1 (E1 - e) ltac:(lia) ltac:(lia)) as [B1 _].
  pose proof (shifted_bounds V2 (E2 - e) ltac:(lia) ltac:(lia)) as [B2 B2'].
  pose proof (nearest_bounds m1) as N1. pose proof (nearest_bounds m2) as N2.
  destruct (decide (E1 = E2)) as [Heq|Hne].
  - rewrite <-Heq. apply finished_mono; [|lia|lia].
    split; [lia|]. apply nearest_mono. unfold m1, m2. rewrite <-Heq.
    apply iter_shr_1_mono; unfold position; cbn [shr_m shr_r shr_s]; lia.
  - apply finished_exponent; [lia| |lia].
    assert (E2 = Zpos (digits2_pos V2) + e - 53) as HE2eq
      by (unfold E1, E2, fexp, SpecFloat.emin, prec, emax in *; lia).
    specialize (B2' ltac:(lia)). lia.
Qed.

(** The same number written with a longer mantissa rounds to the same
    float. *)
Lemma round_aux_scale (s : bool) (m : positive) (e k : Z) :
  0 <= k → e <= fexp prec emax (Zpos (digits2_pos m) + e) →
  binary_round_aux prec emax s (Zpos (shl m k)) (e - k) loc_Exact
  = binary_round_aux prec emax s (Zpos m) e loc_Exact.
Proof.
  intros Hk He. destruct k as [|k|k]; [by rewrite shl_0, Z.sub_0_r| |lia].
  unfold binary_round_aux. unfold shr_fexp at 1 3. cbn [Zdigits2 shr_record_of_loc].
  rewrite shl_digits by lia.
  replace (Zpos (digits2_pos m) + Zpos k + (e - Zpos k)) with (Zpos (digits2_pos m) + e) by lia.
  set (E := fexp prec emax (Zpos (digits2_pos m) + e)) in *.
  rewrite shl_pos.
  destruct (E - e) as [|p|p] eqn:Hp; [| |lia].
  - replace (E - (e - Zpos k)) with (Zpos k) by lia. cbn [shr].
    rewrite iter_shr_1_exact. by replace (e - Zpos k + Zpos k) with e by lia.
  - replace (E - (e - Zpos k)) with (Zpos (k + p)) by lia. cbn [shr].
    rewrite iter_pos_add, iter_shr_1_exact.
    by replace (e - Zpos k + Zpos (k + p)) with (e + Zpos p) by lia.
Qed.

Lemma binary_round_scaled (s : bool) (m : positive) (e : Z) :
  -1140 <= e →
  binary_round prec emax s m e
  = binary_round_aux prec emax s (Zpos (shl m (e + 1140))) (-1140) loc_Exact.
Proof.
  intros He. unfold binary_round, shl_align.
  pose proof (fexp_ge (Zpos (digits2_pos m) + e)) as [HE _].
  set (E := fexp prec emax (Zpos (digits2_pos m) + e)) in *.
  destruct (E - e) as [|p|p] eqn:Hp.
  - rewrite <-(round_aux_scale s m e (e + 1140)) by (fold E; lia).
    by replace (e - (e + 1140)) with (-1140) by lia.
  - rewrite <-(round_aux_scale s m e (e + 1140)) by (fold E; lia).
    by replace (e - (e + 1140)) with (-1140) by lia.
  - rewrite <-shl_pos.
    rewrite <-(round_aux_scale s (shl m (Zpos p)) E (E + 1140)).
    + rewrite shl_shl by lia.
      replace (E - (E + 1140)) with (-1140) by lia.
      by replace (Zpos p + (E + 1140)) with (e + 1140) by lia.
    + lia.
    + rewrite shl_digits by lia.
      replace (Zpos (digits2_pos m) + Zpos p + E) with (Zpos (digits2_pos m) + e) by lia.
      fold E. lia.
Qed.

Lemma binary_normalize_scaled (M e : Z) :
  -1140 <= e →
  binary_normalize prec emax M e false
  = binary_normalize prec emax (M * 2 ^ (e + 1140)) (-1140) false.
Proof.
  intros He. assert (0 < 2 ^ (e + 1140)) by (apply Z.pow_pos_nonneg; lia).
  destruct M as [|m|m].
  - done.
  - replace (Zpos m * 2 ^ (e + 1140)) with (Zpos (shl m (e + 1140)))
      by (rewrite shl_mul by lia; done).
    cbn [binary_normalize]. rewrite (binary_round_scaled false m e He).
    rewrite (binary_round_scaled false (shl m (e + 1140)) (-1140)) by lia.
    change (-1140 + 1140) with 0. by rewrite shl_0.
  - replace (Zneg m * 2 ^ (e + 1140)) with (Zneg (shl m (e + 1140)))
      by (rewrite <-!Pos2Z.opp_pos, shl_mul by lia; lia).
    cbn [binary_normalize]. rewrite (binary_round_scaled true m e He).
    rewrite (binary_round_scaled true (shl m (e + 1140)) (-1140)) by lia.
    change (-1140 + 1140) with 0. by rewrite shl_0.
Qed.

(** A float rounds to itself. *)
Lemma binary_round_bounded (s : bool) (m : positive) (e : Z) :
  bounded prec emax m e = true → binary_round prec emax s m e = S754_finite s m e.
Proof.
  intros Hb. pose proof Hb as [Hc Hle]%andb_prop.
  unfold canonical_mantissa in Hc. apply Z.eqb_eq in Hc.
  unfold binary_round, shl_align. rewrite Hc, Z.sub_diag.
  unfold binary_round_aux, shr_fexp. cbn [Zdigits2 shr_record_of_loc].
  rewrite Hc, Z.sub_diag. cbn [shr shr_m loc_of_shr_record round_nearest_even Zdigits2].
  rewrite Hc, Z.sub_diag. cbn [shr shr_m]. by rewrite Hle.
Qed.

Lemma rounded_units (x : spec_float) :
  valid_binary x = true →
  match x with S754_zero _ | S754_finite _ _ _ => rounded (2 ^ 66 * units x) = units x | _ => True end.
Proof.
  intros Hx. destruct x as [s|s| |s m e]; try done.
  cbn [SpecFloat.valid_binary] in Hx.
  pose proof (bounded_finite m e Hx) as (_ & He & _).
  unfold rounded. cbn [units].
  replace (2 ^ 66 * cond_Zopp s (Zpos m * 2 ^ (e + 1074)))
    with (cond_Zopp s (Zpos m) * 2 ^ (e + 1140)).
  2:{ replace (e + 1140) with (66 + (e + 1074)) by lia. rewrite Z.pow_add_r by lia.
      destruct s; cbn [cond_Zopp]; lia. }
  rewrite <-binary_normalize_scaled by lia.
  destruct s.
  - change (cond_Zopp true (Zpos m)) with (Zneg m).
    change (binary_normalize prec emax (Zneg m) e false) with (binary_round prec emax true m e).
    by rewrite binary_round_bounded.
  - change (binary_normalize prec emax (cond_Zopp false (Zpos m)) e false)
      with (binary_round prec emax false m e).
    by rewrite binary_round_bounded.
Qed.

Lemma rounded_pos (V : positive) :
  rounded (Zpos V) = units (binary_round_aux prec emax false (Zpos V) (-1140) loc_Exact)
  ∧ rounded (Zneg V) = - units (binary_round_aux prec emax false (Zpos V) (-1140) loc_Exact)
  ∧ 0 <= units (binary_round_aux prec emax false (Zpos V) (-1140) loc_Exact).
Proof.
  unfold rounded. cbn [binary_normalize].
  rewrite !(binary_round_scaled _ V (-1140)) by lia. change (-1140 + 1140) with 0.
  rewrite shl_0.
  pose proof (fexp_ge (Zpos (digits2_pos V) + -1140)) as [HE HE'].
  rewrite !round_aux_units by lia. cbn [cond_Zopp].
  split; [done|]. split; [done|].
  set (E := fexp prec emax (Zpos (digits2_pos V) + -1140)) in *.
  set (mrs := SpecFloat.iter_pos shr_1 _ _).
  pose proof (nearest_bounds mrs) as HN.
  assert (shr_m mrs = Zpos V / 2 ^ (E - -1140)) as Hm.
  { unfold mrs. rewrite iter_shr_1_m by (cbn; lia). cbn [shr_m]. by rewrite Z2Pos.id by lia. }
  pose proof (shifted_bounds V (E - -1140) ltac:(lia) ltac:(lia)) as [B _].
  apply finished_bounds; lia.
Qed.

Lemma rounded_mono (V1 V2 : Z) : V1 <= V2 → rounded V1 <= rounded V2.
Proof.
  intros HV.
  assert (rounded 0 = 0) as H0 by done.
  destruct V1 as [|v1|v1], V2 as [|v2|v2]; try lia; rewrite ?H0.
  - by destruct (rounded_pos v2) as (-> & _ & ?).
  - destruct (rounded_pos v1) as (-> & _ & _), (rounded_pos v2) as (-> & _ & _).
    apply round_aux_mono; lia.
  - destruct (rounded_pos v1) as (_ & -> & ?). lia.
  - destruct (rounded_pos v1) as (_ & -> & ?), (rounded_pos v2) as (-> & _ & ?). lia.
  - destruct (rounded_pos v1) as (_ & -> & _), (rounded_pos v2) as (_ & -> & _).
    apply Z.opp_le_mono. rewrite !Z.opp_involutive. apply round_aux_mono; lia.
Qed.

(** Sums, differences and quarters of finite floats: the exact result,
    rounded. *)
Lemma units_opp (s : bool) (m : positive) (e : Z) :
  units (S754_finite (negb s) m e) = - units (S754_finite s m e).
Proof. destruct s; cbn [units cond_Zopp negb]; lia. Qed.

Lemma SFadd_rounded (x y : spec_float) :
  valid_binary x = true → valid_binary y = true → is_number x → is_number y →
  units (SF64add x y) = rounded (2 ^ 66 * (units x + units y)).
Proof.
  intros Hx Hy Nx Ny. unfold SF64add.
  destruct x as [sx|sx| |sx mx ex], y as [sy|sy| |sy my ey]; try done; cbn [SFadd].
  - replace (units (S754_zero sx) + units (S754_zero sy)) with 0 by done.
    by destruct sx, sy.
  - change (units (S754_zero sx)) with 0. rewrite Z.add_0_l.
    symmetry. apply (rounded_units _ Hy).
  - change (units (S754_zero sy)) with 0. rewrite Z.add_0_r.
    symmetry. apply (rounded_units _ Hx).
  - cbn [SpecFloat.valid_binary] in Hx, Hy.
    pose proof (bounded_finite _ _ Hx) as (_ & Hex & _).
    pose proof (bounded_finite _ _ Hy) as (_ & Hey & _).
    set (ez := Z.min ex ey).
    pose proof (shl_align_units mx ex ez ltac:(unfold ez; lia)) as Hax.
    pose proof (shl_align_units my ey ez ltac:(unfold ez; lia)) as Hay.
    unfold rounded. rewrite (binary_normalize_scaled _ ez) by (unfold ez; lia).
    do 2 f_equal. cbn [units].
    replace (ez + 1140) with (66 + (ez + 1074)) by lia.
    rewrite Z.pow_add_r by (unfold ez; lia).
    destruct sx, sy; cbn [cond_Zopp]; lia.
Qed.

Lemma SFsub_rounded (x y : spec_float) :
  valid_binary x = true → valid_binary y = true → is_number x → is_number y →
  units (SF64sub x y) = rounded (2 ^ 66 * (units x - units y)).
Proof.
  intros Hx Hy Nx Ny. unfold SF64sub.
  destruct x as [sx|sx| |sx mx ex], y as [sy|sy| |sy my ey]; try done; cbn [SFsub].
  - replace (units (S754_zero sx) - units (S754_zero sy)) with 0 by done.
    by destruct sx, sy.
  - change (units (S754_zero sx)) with 0. rewrite Z.sub_0_l, <-units_opp.
    symmetry. apply (rounded_units (S754_finite (negb sy) my ey) Hy).
  - change (units (S754_zero sy)) with 0. rewrite Z.sub_0_r.
    symmetry. apply (rounded_units _ Hx).
  - cbn [SpecFloat.valid_binary] in Hx, Hy.
    pose proof (bounded_finite _ _ Hx) as (_ & Hex & _).
    pose proof (bounded_finite _ _ Hy) as (_ & Hey & _).
    set (ez := Z.min ex ey).
    pose proof (shl_align_units mx ex ez ltac:(unfold ez; lia)) as Hax.
    pose proof (shl_align_units my ey ez ltac:(unfold ez; lia)) as Hay.
    unfold rounded. rewrite (binary_normalize_scaled _ ez) by (unfold ez; lia).
    do 2 f_equal. cbn [units].
    replace (ez + 1140) with (66 + (ez + 1074)) by lia.
    rewrite Z.pow_add_r by (unfold ez; lia).
    destruct sx, sy; cbn [cond_Zopp]; lia.
Qed.

Lemma SFmul_quarter_rounded (c : Z) (y : spec_float) :
  0 <= c < 4 → valid_binary y = true → is_number y →
  units (SF64mul (Prim2SF (Binary64.of_Q (c # 4))) y) = rounded (c * 2 ^ 64 * units y).
Proof.
  intros Hc Hy Ny. rewrite Prim2SF_quarters by done. unfold SF64mul.
  destruct c as [|c|c]; [| |lia].
  { destruct y; try done; by cbn. }
  destruct y as [sy|sy| |sy my ey]; try done; cbn [SFmul].
  cbn [SpecFloat.valid_binary] in Hy.
  pose proof (bounded_finite _ _ Hy) as (_ & Hey & _).
  assert (Zpos (digits2_pos c) <= 53) as Hdc by (apply digits2_pos_below; lia).
  pose proof (mantissa_digits c Hdc) as Hdm.
  pose proof (digits2_pos_bounds c) as Bc.
  assert (53 <= Zpos (digits2_pos (mantissa c * my))) as Hd.
  { pose proof (digits2_pos_bounds (mantissa c)) as [Hlo _]. rewrite Hdm in Hlo.
    pose proof (digits2_pos_above (mantissa c * my) 52) as H. rewrite Pos2Z.inj_mul in H.
    change (2 ^ (53 - 1)) with (2 ^ 52) in Hlo. nia. }
  cbn [xorb].
  set (e := exponent c (-2) + ey).
  assert (-1140 <= e) as He by (unfold e, exponent; lia).
  rewrite <-(round_aux_scale sy (mantissa c * my) e (e + 1140)).
  2: lia.
  2:{ pose proof (fexp_ge (Zpos (digits2_pos (mantissa c * my)) + e)). lia. }
  replace (e - (e + 1140)) with (-1140) by lia.
  unfold rounded.
  assert (Zpos c * 2 ^ 64 * units (S754_finite sy my ey)
          = cond_Zopp sy (Zpos (shl (mantissa c * my) (e + 1140)))) as ->.
  { cbn [units]. rewrite shl_mul, Pos2Z.inj_mul by lia. unfold mantissa.
    rewrite shl_mul by lia. unfold e, exponent.
    replace (-2 + Zpos (digits2_pos c) - 53 + ey + 1140)
      with ((ey + 1074) + (11 + Zpos (digits2_pos c))) by lia.
    rewrite (Z.pow_add_r 2 (ey + 1074)) by lia.
    assert (2 ^ (53 - Zpos (digits2_pos c)) * 2 ^ (11 + Zpos (digits2_pos c)) = 2 ^ 64) as H64
      by (rewrite <-Z.pow_add_r by lia; f_equal; lia).
    destruct sy; cbn [cond_Zopp]; nia. }
  set (P := shl (mantissa c * my) (e + 1140)).
  destruct sy; cbn [xorb].
  - change (binary_normalize prec emax (cond_Zopp true (Zpos P)) (-1140) false)
      with (binary_round prec emax true P (-1140)).
    rewrite (binary_round_scaled true _ (-1140)) by lia. change (-1140 + 1140) with 0.
    by rewrite shl_0.
  - change (binary_normalize prec emax (cond_Zopp false (Zpos P)) (-1140) false)
      with (binary_round prec emax false P (-1140)).
    rewrite (binary_round_scaled false _ (-1140)) by lia. change (-1140 + 1140) with 0.
    by rewrite shl_0.
Qed.

(** The whole numbers of units that are floats: [z * 2^t] for [z] of at
    most 53 digits, below the overflow. *)
Lemma rounded_representable (z : positive) (t : Z) :
  Zpos (digits2_pos z) <= 53 → 0 <= t → t + Zpos (digits2_pos z) <= 2098 →
  rounded (2 ^ 66 * (Zpos z * 2 ^ t)) = Zpos z * 2 ^ t.
Proof.
  intros Hd Ht Hmax.
  destruct (Z.le_gt_cases (t + Zpos (digits2_pos z)) 53) as [Hsub|Hnorm].
  - assert (bounded prec emax (shl z t) (-1074) = true) as Hb.
    { unfold bounded, canonical_mantissa. apply andb_true_intro.
      split; [apply Z.eqb_eq|by apply Z.leb_le].
      pose proof (shl_digits z t Ht) as Hs. rewrite Hs.
      unfold fexp, SpecFloat.emin, prec, emax. lia. }
    pose proof (rounded_units (S754_finite false (shl z t) (-1074)) Hb) as Hr.
    cbn [units cond_Zopp] in Hr. change (-1074 + 1074) with 0 in Hr.
    rewrite Z.pow_0_r, Z.mul_1_r, shl_mul in Hr by lia. exact Hr.
  - set (e := t + Zpos (digits2_pos z) - 53 - 1074).
    assert (bounded prec emax (mantissa z) e = true) as Hb.
    { unfold bounded, canonical_mantissa. apply andb_true_intro.
      rewrite (mantissa_digits z Hd).
      split; [apply Z.eqb_eq|apply Z.leb_le];
        unfold e, fexp, SpecFloat.emin, prec, emax; lia. }
    pose proof (rounded_units (S754_finite false (mantissa z) e) Hb) as Hr.
    cbn [units cond_Zopp] in Hr.
    assert (Zpos (mantissa z) * 2 ^ (e + 1074) = Zpos z * 2 ^ t) as Heq.
    { unfold mantissa. rewrite shl_mul by lia. rewrite <-Z.mul_assoc, <-Z.pow_add_r by (unfold e; lia).
      do 2 f_equal. unfold e. lia. }
    by rewrite Heq in Hr.
Qed.

Lemma units_finite_max (m : positive) (e : Z) :
  bounded prec emax m e = true → Zpos m * 2 ^ (e + 1074) <= (2 ^ 53 - 1) * 2 ^ 2045.
Proof.
  intros (Hd & He & _)%bounded_finite.
  pose proof (digits2_pos_bounds m) as [_ Hm].
  assert (2 ^ Zpos (digits2_pos m) <= 2 ^ 53) by (apply Z.pow_le_mono_r; lia).
  assert (0 < 2 ^ (e + 1074) <= 2 ^ 2045)
    by (split; [apply Z.pow_pos_nonneg; lia|apply Z.pow_le_mono_r; lia]).
  set (P := 2 ^ 2045) in *. set (Q := 2 ^ (e + 1074)) in *.
  change (2 ^ 53) with 9007199254740992 in *. nia.
Qed.

(** A quarter, a half or three quarters of the rounded difference of two
    floats is at most their difference. *)
Lemma quarter_below (d c : Z) :
  0 <= d → 0 <= c <= 3 →
  let D := rounded (2 ^ 66 * d) in
  D <= (2 ^ 53 - 1) * 2 ^ 2045 → rounded (2 ^ 66 * D) = D →
  rounded (c * 2 ^ 64 * D) <= d.
Proof.
  intros Hd Hc D Hfin Hidem.
  assert (0 <= D) as HD0.
  { change 0 with (rounded 0) at 1. apply rounded_mono. lia. }
  assert (rounded (c * 2 ^ 64 * D) <= D) as HyD.
  { rewrite <-Hidem at 2. apply rounded_mono.
    change (2 ^ 66) with (4 * 2 ^ 64). assert (0 < 2 ^ 64) by done. nia. }
  destruct (Z.le_gt_cases D d) as [HDd|HdD]; [lia|].
  destruct d as [|dp|dp]; [unfold D in HdD; change (rounded (2 ^ 66 * 0)) with 0 in HdD; lia| |lia].
  set (dd := Zpos (digits2_pos dp)).
  pose proof (digits2_pos_bounds dp) as [Hlo Hhi]. fold dd in Hlo, Hhi.
  destruct (Z.le_gt_cases dd 53) as [Hsmall|Hbig].
  { exfalso. pose proof (rounded_representable dp 0 Hsmall ltac:(lia) ltac:(fold dd; lia)) as Hr.
    rewrite Z.pow_0_r, Z.mul_1_r in Hr. unfold D in HdD. lia. }
  set (kk := dd - 53).
  pose proof (shifted_bounds dp kk ltac:(unfold kk; lia) ltac:(fold dd; unfold kk; lia))
    as [Bz Bz'].
  specialize (Bz' eq_refl).
  set (zq := Zpos dp / 2 ^ kk) in *.
  assert (0 < 2 ^ kk) as Hpk by (apply Z.pow_pos_nonneg; unfold kk; lia).
  pose proof (Z.div_mod (Zpos dp) (2 ^ kk) ltac:(lia)) as Hdm.
  pose proof (Z.mod_pos_bound (Zpos dp) (2 ^ kk) Hpk) as Hmod.
  fold zq in Hdm.
  assert (dd <= 2098) as Hdd.
  { destruct (Z.le_gt_cases dd 2098) as [|Hgt]; [done|exfalso].
    assert (2 ^ 2098 <= 2 ^ (dd - 1)) by (apply Z.pow_le_mono_r; lia).
    assert ((2 ^ 53 - 1) * 2 ^ 2045 < 2 ^ 2098)
      by (replace (2 ^ 2098) with (2 ^ 53 * 2 ^ 2045) by (by rewrite <-Z.pow_add_r by lia);
          assert (0 < 2 ^ 2045) by (by apply Z.pow_pos_nonneg); lia).
    lia. }
  change (2 ^ 52) with 4503599627370496 in *. change (2 ^ 53) with 9007199254740992 in *.
  destruct zq as [|z|z] eqn:Hzq; [lia| |lia].
  assert (Zpos (digits2_pos z) <= 53) as Hdz
    by (apply digits2_pos_below; [lia|]; change (2 ^ 53) with 9007199254740992; lia).
  (* the float below [d] *)
  pose proof (rounded_representable z kk Hdz ltac:(lia) ltac:(unfold kk; lia)) as HG.
  (* the float above [d] *)
  assert (D <= (Zpos z + 1) * 2 ^ kk) as Hup.
  { destruct (decide (Zpos z + 1 = 9007199254740992)) as [Hcarry|Hnc].
    - destruct (decide (kk = 2045)) as [Hk|Hk].
      + exfalso. rewrite Hk in *. lia.
      + pose proof (rounded_representable 1 (53 + kk) ltac:(done) ltac:(lia)
                      ltac:(change (Zpos (digits2_pos 1)) with 1; unfold kk in *; lia)) as Hr.
        rewrite Z.mul_1_l in Hr. rewrite Hcarry.
        replace (9007199254740992 * 2 ^ kk) with (2 ^ (53 + kk))
          by (by rewrite Z.pow_add_r by lia).
        rewrite <-Hr. apply rounded_mono.
        rewrite Z.pow_add_r by lia. change (2 ^ 53) with 9007199254740992.
        assert (0 < 2 ^ 66) by done. nia.
    - assert (Zpos z + 1 = Zpos (z + 1)) as Hz1 by lia.
      assert (Zpos (digits2_pos (z + 1)) <= 53) as Hdz1
        by (apply digits2_pos_below; [lia|]; change (2 ^ 53) with 9007199254740992; lia).
      pose proof (rounded_representable (z + 1) kk Hdz1 ltac:(lia) ltac:(unfold kk; lia)) as Hr.
      rewrite Hz1, <-Hr. apply rounded_mono.
      assert (0 < 2 ^ 66) by done. nia. }
  apply Z.le_trans with (Zpos z * 2 ^ kk); [|lia].
  rewrite <-HG. apply rounded_mono.
  change (2 ^ 66) with (4 * 2 ^ 64). assert (0 < 2 ^ 64) by done.
  assert (3 * D <= 4 * (Zpos z * 2 ^ kk)) by nia. nia.
Qed.
End Rounding.

Section Float_rounding.
Import Binary64 Dyadic.
Local Open Scope Z_scope.

Lemma finite_is_number (x : float) : is_finite x = true ↔ is_number (Prim2SF x).
Proof.
  rewrite is_finite_class. unfold class_of, is_number. by destruct (Prim2SF x).
Qed.

Lemma number_units_max (x : spec_float) :
  valid_binary x = true → is_number x →
  - ((2 ^ 53 - 1) * 2 ^ 2045) <= units x <= (2 ^ 53 - 1) * 2 ^ 2045.
Proof.
  intros Hx Nx. assert (0 < (2 ^ 53 - 1) * 2 ^ 2045) by done.
  destruct x as [s|s| |s m e]; try done; cbn [units].
  pose proof (units_finite_max m e Hx). pose proof (units_finite_bounds m e Hx).
  destruct s; cbn [cond_Zopp]; lia.
Qed.

(** A result that is not [NaN] and lies between two floats is a float. *)
Lemma units_is_number (x : spec_float) :
  x ≠ S754_nan → - 2 ^ 2100 < units x < 2 ^ 2100 → is_number x.
Proof. destruct x as [s|[]| |s m e]; try done; cbn [units cond_Zopp]; lia. Qed.

Lemma SFadd_not_nan (x y : spec_float) : is_number x → is_number y → SF64add x y ≠ S754_nan.
Proof.
  destruct x as [sx|sx| |sx mx ex], y as [sy|sy| |sy my ey]; try done; unfold SF64add; cbn [SFadd].
  - by destruct sx, sy.
  - intros _ _. destruct (_ + _) as [|p|p]; cbn [binary_normalize]; [done|..].
    + pose proof (binary_round_sign false p (Z.min ex ey)). by destruct (binary_round _ _ _ _ _).
    + pose proof (binary_round_sign true p (Z.min ex ey)). by destruct (binary_round _ _ _ _ _).
Qed.

Lemma SFsub_not_nan (x y : spec_float) : is_number x → is_number y → SF64sub x y ≠ S754_nan.
Proof.
  destruct x as [sx|sx| |sx mx ex], y as [sy|sy| |sy my ey]; try done; unfold SF64sub; cbn [SFsub].
  - by destruct sx, sy.
  - intros _ _. destruct (_ - _) as [|p|p]; cbn [binary_normalize]; [done|..].
    + pose proof (binary_round_sign false p (Z.min ex ey)). by destruct (binary_round _ _ _ _ _).
    + pose proof (binary_round_sign true p (Z.min ex ey)). by destruct (binary_round _ _ _ _ _).
Qed.

Lemma SFmul_not_nan (x y : spec_float) : is_number x → is_number y → SF64mul x y ≠ S754_nan.
Proof.
  destruct x as [sx|sx| |sx mx ex], y as [sy|sy| |sy my ey]; try done; unfold SF64mul; cbn [SFmul].
  intros _ _.
  pose proof (binary_round_aux_sign (xorb sx sy) (Zpos (mx * my)) (ex + ey) loc_Exact ltac:(lia)).
  by destruct (binary_round_aux _ _ _ _ _ _).
Qed.

Lemma quarter_is_number (c : Z) : 0 <= c < 4 → is_number (Prim2SF (Binary64.of_Q (c # 4))).
Proof. intros Hc. rewrite Prim2SF_quarters by done. by destruct c. Qed.

(** The interpolation [b + w * (next - b)] of [getValue] between two finite
    numbers [b <= next] whose difference is finite, for a weight [w] of
    0, 1/4, 1/2 or 3/4: it lies between [b] and [next]. *)
Lemma interpolation_between (b next : float) (c : Z) :
  is_finite b = true → is_finite next = true → is_finite (next - b) = true →
  float_units b <= float_units next → 0 <= c < 4 →
  let Q := (b + Binary64.of_Q (c # 4) * (next - b))%float in
  is_finite Q = true ∧ float_units b <= float_units Q <= float_units next.
Proof.
  intros Hb Hn HD Hle Hc Q.
  apply finite_is_number in Hb, Hn, HD.
  pose proof (Prim2SF_valid b) as Vb. pose proof (Prim2SF_valid next) as Vn.
  pose proof (Prim2SF_valid (next - b)) as VD.
  pose proof (Prim2SF_valid (Binary64.of_Q (c # 4) * (next - b))) as Vy.
  pose proof (Prim2SF_valid Q) as VQ.
  pose proof (number_units_max _ Vb Hb) as Bb. pose proof (number_units_max _ Vn Hn) as Bn.
  pose proof (number_units_max _ VD HD) as BD.
  pose proof (rounded_units _ Vb) as Ib. pose proof (rounded_units _ Vn) as In.
  pose proof (rounded_units _ VD) as ID.
  unfold float_units in *.
  set (Ub := units (Prim2SF b)) in *. set (Un := units (Prim2SF next)) in *.
  assert (rounded (2 ^ 66 * Ub) = Ub) as Ib' by (by destruct (Prim2SF b)).
  assert (rounded (2 ^ 66 * Un) = Un) as In' by (by destruct (Prim2SF next)).
  assert (rounded (2 ^ 66 * units (Prim2SF (next - b))) = units (Prim2SF (next - b))) as ID'
    by (by destruct (Prim2SF (next - b))).
  clear Ib In ID.
  assert (units (Prim2SF (next - b)) = rounded (2 ^ 66 * (Un - Ub))) as HUD.
  { rewrite sub_spec in *. by apply SFsub_rounded. }
  set (y := (Binary64.of_Q (c # 4) * (next - b))%float) in *.
  assert (units (Prim2SF y) = rounded (c * 2 ^ 64 * units (Prim2SF (next - b)))) as HUy.
  { unfold y. rewrite mul_spec. by apply SFmul_quarter_rounded. }
  assert (0 <= units (Prim2SF (next - b))) as HD0.
  { rewrite HUD. change 0 with (rounded 0) at 1. apply rounded_mono. lia. }
  assert (0 <= units (Prim2SF y)) as Hy0.
  { rewrite HUy. change 0 with (rounded 0) at 1. apply rounded_mono.
    assert (0 < 2 ^ 64) by done. nia. }
  assert (units (Prim2SF y) <= units (Prim2SF (next - b))) as HyD.
  { rewrite HUy. rewrite <-ID' at 2. apply rounded_mono.
    change (2 ^ 66) with (4 * 2 ^ 64). assert (0 < 2 ^ 64) by done. nia. }
  assert (units (Prim2SF y) <= Un - Ub) as Hyd.
  { rewrite HUy, HUD. apply quarter_below; [lia|lia| |]; rewrite <-HUD; [lia|done]. }
  assert (2 ^ 2100 = 2 ^ 53 * 2 ^ 2045 * 4) as Hbig by (by rewrite <-!Z.pow_add_r by lia).
  assert (0 < 2 ^ 2045) as H2045 by (by apply Z.pow_pos_nonneg).
  assert (is_number (Prim2SF y)) as Ny.
  { apply units_is_number.
    - unfold y. rewrite mul_spec. apply SFmul_not_nan; [by apply quarter_is_number|done].
    - set (P := 2 ^ 2045) in *. set (B := 2 ^ 2100) in *. lia. }
  assert (units (Prim2SF Q) = rounded (2 ^ 66 * (Ub + units (Prim2SF y)))) as HUQ.
  { unfold Q. fold y. rewrite add_spec. by apply SFadd_rounded. }
  assert (Ub <= units (Prim2SF Q) <= Un) as HQ.
  { rewrite HUQ. split.
    - apply Z.le_trans with (rounded (2 ^ 66 * Ub)); [lia|]. apply rounded_mono. lia.
    - apply Z.le_trans with (rounded (2 ^ 66 * Un)); [|lia]. apply rounded_mono. lia. }
  split; [|done].
  apply finite_is_number, units_is_number.
  - unfold Q. fold y. rewrite add_spec. by apply SFadd_not_nan.
  - set (P := 2 ^ 2045) in *. set (B := 2 ^ 2100) in *. lia.
Qed.

(** With the same two neighbours, a greater weight gives a greater
    value. *)
Lemma interpolation_mono (b next : float) (c1 c2 : Z) :
  is_finite b = true → is_finite next = true → is_finite (next - b) = true →
  float_units b <= float_units next → 0 <= c1 <= c2 → c2 < 4 →
  float_units (b + Binary64.of_Q (c1 # 4) * (next - b))%float
  <= float_units (b + Binary64.of_Q (c2 # 4) * (next - b))%float.
Proof.
  intros Hb Hn HD Hle Hc1 Hc2.
  destruct (interpolation_between b next c1 Hb Hn HD Hle ltac:(lia)) as [F1 _].
  destruct (interpolation_between b next c2 Hb Hn HD Hle ltac:(lia)) as [F2 _].
  apply finite_is_number in Hb, Hn, HD.
  pose proof (Prim2SF_valid b) as Vb. pose proof (Prim2SF_valid (next - b)) as VD.
  unfold float_units.
  set (y1 := (Binary64.of_Q (c1 # 4) * (next - b))%float).
  set (y2 := (Binary64.of_Q (c2 # 4) * (next - b))%float).
  assert (0 <= units (Prim2SF (next - b))) as HD0.
  { rewrite sub_spec. rewrite SFsub_rounded by (done || apply Prim2SF_valid).
    change 0 with (rounded 0) at 1. apply rounded_mono. unfold float_units in Hle. lia. }
  assert (units (Prim2SF y1) <= units (Prim2SF y2)) as Hy.
  { unfold y1, y2. rewrite !mul_spec, !SFmul_quarter_rounded by (done || lia).
    apply rounded_mono. assert (0 < 2 ^ 64) by done. nia. }
  assert (∀ y, is_finite (b + y)%float = true → is_number (Prim2SF y)) as Hnum.
  { intros y. rewrite finite_is_number, add_spec.
    destruct (Prim2SF b) as [| | |], (Prim2SF y) as [|[]| |]; done. }
  rewrite !add_spec, !SFadd_rounded by (done || apply Prim2SF_valid || by apply Hnum).
  apply rounded_mono. lia.
Qed.
Lemma sub_finite (x y : float) :
  is_finite (x - y)%float = true → is_finite x = true ∧ is_finite y = true.
Proof.
  rewrite !is_finite_class. unfold class_of. rewrite sub_spec.
  by destruct (Prim2SF x) as [|[]| |], (Prim2SF y) as [|[]| |].
Qed.
End Float_rounding.

(** ** Quotients *)

Section Division.
Import Binary64 Dyadic.
Local Open Scope Z_scope.




End Division.

Section Binary64_reciprocal.
Import Binary64 Dyadic.
Local Open Scope float_scope.



End Binary64_reciprocal.

(** ** The power of which [p] is the reciprocal *)

Section Binary64_power.
Import Binary64 Dyadic.
Local Open Scope float_scope.












End Binary64_power.

Section JS_sort.
Variable approx : float → float → float.
Let J : Number float := js_number approx.
Local Existing Instance J.
Local Open Scope num_scope.

Let ascending : list float → Prop :=
  StronglySorted (λ x y, (float_units x <= float_units y)%Z).

Lemma StronglySorted_lookup {A} (R : A → A → Prop) (l : list A) (i j : nat) (a b : A) :
  StronglySorted R l → (i < j)%nat → l !! i = Some a → l !! j = Some b → R a b.
Proof.
  intros Hs. revert i j. induction Hs as [|x l Hs IH Hx]; intros i j Hij Ha Hb; [done|].
  destruct j as [|j]; [lia|]. cbn in Hb. destruct i as [|i].
  - cbn in Ha. injection Ha as ->. eapply Forall_lookup_1; eauto.
  - cbn in Ha. apply (IH i j); (done || lia).
Qed.

Lemma insert_by_ascending (a : float) (l : list float) :
  not_NaN a → Forall not_NaN l → ascending l → ascending (insert_by (λ a b, a - b) a l).
Proof.
  intros Ha Hl Hs. induction Hs as [|b l Hs IH Hb]; cbn [insert_by].
  { by repeat constructor. }
  apply Forall_cons in Hl as [Hnb Hl].
  change (num_pos (a - b)) with (0 <? a - b)%float. rewrite sub_positive by done.
  destruct (Z.ltb_spec (float_units b) (float_units a)) as [Hlt|Hge].
  - constructor; [by apply IH|].
    rewrite insert_by_Permutation. constructor; [lia|done].
  - constructor; [by constructor|]. constructor; [done|].
    eapply Forall_impl; [exact Hb|]. intros y Hy. simpl in Hy. lia.
Qed.

Lemma sort_by_ascending (l : list float) :
  Forall not_NaN l → ascending (sort_by (λ a b, a - b) l).
Proof.
  induction 1 as [|a l Ha Hl IH]; [constructor|].
  unfold sort_by in *. cbn [foldr]. apply insert_by_ascending; [done| |done].
  fold (sort_by (λ a b, a - b) l). by rewrite sort_by_Permutation.
Qed.

(** The summary of an array without [NaN]. *)
Lemma sorted_summary (data : loc) (h : heap float) (arr : list float) :
  h !! data = Some arr → arr ≠ [] → Forall not_NaN arr →
  ∃ sorted lo hi,
    (getQuartiles (Some data) h).2 = <[fresh (dom h) := sorted]> h
    ∧ sorted ≡ₚ arr
    ∧ (∀ i j a b, (i ≤ j)%nat → sorted !! i = Some a → sorted !! j = Some b →
         (a <=? b)%float = true)
    ∧ Summary.min (getQuartiles (Some data) h).1 = Some lo
    ∧ Summary.max (getQuartiles (Some data) h).1 = Some hi
    ∧ lo ∈ arr ∧ hi ∈ arr
    ∧ Forall (λ x, (lo <=? x)%float = true ∧ (x <=? hi)%float = true) arr.
Proof.
  intros Hd Hne Hnan. rewrite (getQuartiles_nonempty data h arr) by done.
  pose proof (sort_by_Permutation (λ a b, a - b) arr) as Hp.
  pose proof (sort_by_ascending arr Hnan) as Hs.
  set (sorted := sort_by _ arr) in *.
  assert (Forall not_NaN sorted) as Hns by (by rewrite Hp).
  assert (0 < length sorted)%nat as Hlen.
  { rewrite Hp. destruct arr; [done | simpl; lia]. }
  assert (∀ i j a b, (i ≤ j)%nat → sorted !! i = Some a → sorted !! j = Some b →
            (a <=? b)%float = true) as Hasc.
  { intros i j a b Hij Ha Hb.
    rewrite leb_units by (eapply Forall_lookup_1; eauto).
    apply Z.leb_le. destruct (decide (i = j)) as [->|Hneq]; [by simplify_eq|].
    apply (StronglySorted_lookup _ sorted i j a b Hs); (done || lia). }
  destruct (lookup_lt_is_Some_2 sorted 0) as [lo Hlo]; [lia|].
  destruct (lookup_lt_is_Some_2 sorted (length sorted - 1)) as [hi Hhi]; [lia|].
  exists sorted, lo, hi. cbn [fst snd summary_of Summary.min Summary.max].
  split; [done|]. split; [done|]. split; [done|]. split; [done|]. split; [done|].
  split; [rewrite <-Hp; by eapply list_elem_of_lookup_2|].
  split; [rewrite <-Hp; by eapply list_elem_of_lookup_2|].
  rewrite <-Hp. apply Forall_lookup_2. intros i x Hx.
  pose proof (lookup_lt_Some _ _ _ Hx).
  split; [apply (Hasc 0%nat i)|apply (Hasc i (length sorted - 1)%nat)]; (done || lia).
Qed.

(** X26.  On JavaScript numbers, for a non-empty array without [NaN]
    (the infinities and both zeros allowed), the copy [getQuartiles] sorts
    is in ascending order, and [min] and [max] are the least and the
    greatest observation: [min <= x <= max] for every element [x] of the
    array, in JavaScript's own comparison. *)
Theorem getQuartiles_ascending (data : loc) (h : heap float) (arr : list float) :
  h !! data = Some arr → arr ≠ [] → Forall not_NaN arr →
  ∃ sorted lo hi,
    (getQuartiles (Some data) h).2 = <[fresh (dom h) := sorted]> h
    ∧ sorted ≡ₚ arr
    ∧ (∀ i j a b, (i ≤ j)%nat → sorted !! i = Some a → sorted !! j = Some b →
         (a <=? b)%float = true)
    ∧ Summary.min (getQuartiles (Some data) h).1 = Some lo
    ∧ Summary.max (getQuartiles (Some data) h).1 = Some hi
    ∧ Forall (λ x, (lo <=? x)%float = true ∧ (x <=? hi)%float = true) arr.
Proof.
  intros Hd Hne Hnan.
  destruct (sorted_summary data h arr Hd Hne Hnan)
    as (sorted & lo & hi & Hh & Hp & Hasc & Hlo & Hhi & _ & _ & Hends).
  by exists sorted, lo, hi.
Qed.
End JS_sort.

(** ** The order of the summary, in binary64 *)

Section JS_ordered.
Import Binary64.
Variable approx : float → float → float.
Let J : Number float := js_number approx.
Local Existing Instance J.
Local Open Scope num_scope.

(** The quartiles of a sorted array of finite numbers no two of which
    differ by more than the greatest finite number: each lies between the
    two elements it is read from, and they are in order. *)
Lemma sorted_quartiles (sorted : list float) :
  (2 ≤ length sorted)%nat → (Z.of_nat (length sorted) < 2 ^ 32)%Z →
  StronglySorted (λ x y, (float_units x <= float_units y)%Z) sorted →
  Forall (λ c, ∀ b next,
      sorted !! (c * (length sorted - 1) / 4)%nat = Some b →
      sorted !! S (c * (length sorted - 1) / 4) = Some next →
      is_finite (next - b)%float = true) [1; 2; 3]%nat →
  ∃ lo q1 median q3 hi,
    summary_of sorted
    = Summary.make (Some lo) (Some q1) (Some median) (Some q3) (Some hi)
    ∧ sorted !! 0%nat = Some lo ∧ last sorted = Some hi
    ∧ Forall (λ x, is_finite x = true) [q1; median; q3]
    ∧ (float_units lo <= float_units q1)%Z ∧ (float_units q1 <= float_units median)%Z
    ∧ (float_units median <= float_units q3)%Z ∧ (float_units q3 <= float_units hi)%Z.
Proof.
  intros Hn Hlen Hs Hdiff.
  assert (sorted ≠ []) as Hne by (intros ->; simpl in Hn; lia).
  unfold J. rewrite (summary_of_ranks approx) by done. cbv zeta.
  set (k := (length sorted - 1)%nat) in *.
  assert (1 ≤ k)%nat as Hk by (unfold k; lia).
  assert (∀ i j a b, (i ≤ j)%nat → sorted !! i = Some a → sorted !! j = Some b →
            (float_units a <= float_units b)%Z) as Hasc.
  { intros i j a b Hij Ha Hb. destruct (decide (i = j)) as [->|Hneq].
    - simplify_eq. lia.
    - apply (StronglySorted_lookup _ sorted i j a b Hs); (done || lia). }
  rewrite Forall_forall in Hdiff.
  (* the three quartiles *)
  assert (∀ c, (1 ≤ c ≤ 3)%nat →
    ∃ b next,
      sorted !! (c * k / 4)%nat = Some b ∧ sorted !! S (c * k / 4) = Some next
      ∧ is_finite b = true ∧ is_finite next = true ∧ is_finite (next - b)%float = true
      ∧ (float_units b <= float_units next)%Z) as Hq.
  { intros c Hc.
    assert (c * k / 4 < k)%nat as Hi by (apply Nat.Div0.div_lt_upper_bound; nia).
    destruct (lookup_lt_is_Some_2 sorted (c * k / 4)) as [b Hb]; [unfold k in *; lia|].
    destruct (lookup_lt_is_Some_2 sorted (S (c * k / 4))) as [next Hnext]; [unfold k in *; lia|].
    exists b, next. split; [done|]. split; [done|].
    assert (is_finite (next - b)%float = true) as FD
      by (apply (Hdiff c); [rewrite !elem_of_cons; lia|done..]).
    destruct (sub_finite next b FD) as [Fn Fb].
    split; [done|]. split; [done|]. split; [done|].
    apply (Hasc (c * k / 4)%nat (S (c * k / 4))); (done || lia). }
  assert (∀ c, (1 ≤ c ≤ 3)%nat → (0 <= Z.of_nat (c * k mod 4) < 4)%Z) as Hw.
  { intros c _. pose proof (Nat.mod_upper_bound (c * k) 4). lia. }
  destruct (lookup_lt_is_Some_2 sorted 0) as [lo Hlo]; [lia|].
  destruct (lookup_lt_is_Some_2 sorted k) as [hi Hhi]; [unfold k; lia|].
  destruct (Hq 1%nat ltac:(lia)) as (b1 & n1 & Hb1 & Hn1 & Fb1 & Fn1 & FD1 & L1).
  destruct (Hq 2%nat ltac:(lia)) as (b2 & n2 & Hb2 & Hn2 & Fb2 & Fn2 & FD2 & L2).
  destruct (Hq 3%nat ltac:(lia)) as (b3 & n3 & Hb3 & Hn3 & Fb3 & Fn3 & FD3 & L3).
  rewrite Hlo, Hhi, Hb1, Hn1, Hb2, Hn2, Hb3, Hn3. cbn [mbind option_bind].
  unfold weight. fold k.
  change (@num_add float (js_number approx)) with PrimFloat.add.
  change (@num_sub float (js_number approx)) with PrimFloat.sub.
  change (@num_mul float (js_number approx)) with PrimFloat.mul.
  change (@number float (js_number approx)) with Binary64.of_Q.
  destruct (interpolation_between b1 n1 _ Fb1 Fn1 FD1 L1 (Hw 1%nat ltac:(lia))) as (F1 & Q1l & Q1u).
  destruct (interpolation_between b2 n2 _ Fb2 Fn2 FD2 L2 (Hw 2%nat ltac:(lia))) as (F2 & Q2l & Q2u).
  destruct (interpolation_between b3 n3 _ Fb3 Fn3 FD3 L3 (Hw 3%nat ltac:(lia))) as (F3 & Q3l & Q3u).
  eexists _, _, _, _, _. split; [reflexivity|].
  split; [done|].
  split; [rewrite last_lookup; by replace (Nat.pred (length sorted)) with k by (unfold k; lia)|].
  split; [repeat constructor; eauto|].
  (* two quartiles in a row *)
  assert (∀ c c' b n b' n',
    (1 ≤ c)%nat → (c ≤ c')%nat → (c' ≤ 3)%nat →
    sorted !! (c * k / 4)%nat = Some b → sorted !! S (c * k / 4) = Some n →
    sorted !! (c' * k / 4)%nat = Some b' → sorted !! S (c' * k / 4) = Some n' →
    is_finite b = true → is_finite n = true → is_finite (n - b)%float = true →
    (float_units b <= float_units n)%Z →
    (float_units (b + Binary64.of_Q (Z.of_nat (c * k mod 4) # 4) * (n - b))%float
     <= float_units n)%Z →
    (float_units b' <= float_units (b' + Binary64.of_Q (Z.of_nat (c' * k mod 4) # 4) * (n' - b'))%float)%Z →
    (float_units (b + Binary64.of_Q (Z.of_nat (c * k mod 4) # 4) * (n - b))%float
     <= float_units (b' + Binary64.of_Q (Z.of_nat (c' * k mod 4) # 4) * (n' - b'))%float)%Z) as Hpair.
  { intros c c' b n b' n' Hc1 Hcc Hc3 Hb Hnx Hb' Hnx' Fb Fn FD Lbn Hup Hlow.
    pose proof (Nat.div_mod_eq (c * k) 4) as E1. pose proof (Nat.div_mod_eq (c' * k) 4) as E2.
    pose proof (Nat.mod_upper_bound (c * k) 4 ltac:(lia)) as M1.
    pose proof (Nat.mod_upper_bound (c' * k) 4 ltac:(lia)) as M2.
    assert (c * k ≤ c' * k)%nat as Hck by nia.
    destruct (decide (c * k / 4 = c' * k / 4)%nat) as [Heq|Hneq].
    - rewrite <-Heq in Hb', Hnx'. simplify_eq.
      apply interpolation_mono; (done || lia).
    - assert (S (c * k / 4) ≤ c' * k / 4)%nat as Hlt by lia.
      pose proof (Hasc _ _ _ _ Hlt Hnx Hb'). lia. }
  split; [|split; [|split]].
  - pose proof (Hasc 0%nat _ _ _ ltac:(lia) Hlo Hb1). lia.
  - apply (Hpair 1%nat 2%nat); (done || lia).
  - apply (Hpair 2%nat 3%nat); (done || lia).
  - assert (S (3 * k / 4) ≤ k)%nat as Hi.
    { assert (3 * k / 4 < k)%nat by (apply Nat.Div0.div_lt_upper_bound; lia). lia. }
    pose proof (Hasc _ _ _ _ Hi Hn3 Hhi). lia.
Qed.

(** The order of the summary, on a non-empty array without [NaN] in which
    the differences [sorted[base + 1] - sorted[base]] that [getValue]
    computes are finite. *)
Lemma quartiles_ordered (data : loc) (h : heap float) (arr : list float) :
  h !! data = Some arr → arr ≠ [] → (Z.of_nat (length arr) < 2 ^ 32)%Z →
  Forall not_NaN arr →
  let sorted := sort_by (λ a b, a - b) arr in
  Forall (λ c, ∀ b next,
      sorted !! (c * (length arr - 1) / 4)%nat = Some b →
      sorted !! S (c * (length arr - 1) / 4) = Some next →
      is_finite (next - b)%float = true) [1; 2; 3]%nat →
  ∃ min q1 median q3 max,
    (getQuartiles (Some data) h).1
    = Summary.make (Some min) (Some q1) (Some median) (Some q3) (Some max)
    ∧ (min <=? q1)%float = true ∧ (q1 <=? median)%float = true
    ∧ (median <=? q3)%float = true ∧ (q3 <=? max)%float = true.
Proof.
  intros Hd Hne Hlen Hnan. cbv zeta. intros Hdiff.
  rewrite (getQuartiles_nonempty data h arr) by done. cbn [fst].
  pose proof (sort_by_Permutation (λ a b, a - b) arr) as Hp.
  pose proof (sort_by_ascending approx arr Hnan) as Hs. fold J in Hs.
  set (sorted := sort_by _ arr) in *.
  assert (length sorted = length arr) as Hl by (by rewrite Hp).
  assert (Forall not_NaN sorted) as Hnan' by (by rewrite Hp).
  rewrite Forall_forall in Hnan'.
  destruct (decide (length sorted = 1%nat)) as [H1|H1].
  - destruct sorted as [|x [|]] eqn:Hsorted; try done.
    assert (not_NaN x) as Hx by (apply Hnan'; set_solver).
    unfold J. rewrite (summary_of_ranks approx) by (done || (cbn [length] in *; lia)).
    cbn. exists x, x, x, x, x. split; [done|].
    assert ((x <=? x)%float = true) as Hxx
      by (rewrite leb_units by done; by apply Z.leb_le).
    done.
  - destruct (sorted_quartiles sorted)
      as (lo & q1 & med & q3 & hi & Hsum & Hlo & Hhi & Hf & H01 & H12 & H23 & H34).
    + destruct arr; [done|]. cbn [length] in *. lia.
    + lia.
    + done.
    + by rewrite Hl.
    + exists lo, q1, med, q3, hi. split; [done|].
      rewrite !Forall_cons in Hf. destruct Hf as (F1 & F2 & F3 & _).
      assert (not_NaN lo) by (apply Hnan'; by eapply list_elem_of_lookup_2).
      assert (not_NaN hi).
      { apply Hnan'. rewrite last_lookup in Hhi. by eapply list_elem_of_lookup_2. }
      rewrite !leb_units by (done || by apply finite_not_NaN).
      repeat split; by apply Z.leb_le.
Qed.

(** C7, amended.  On JavaScript numbers, for a non-empty array without
    [NaN], the
    summary satisfies [min <= q1 <= median <= q3 <= max] whenever the three
    differences [sorted[base + 1] - sorted[base]] that [getValue] computes,
    at the ranks [base] of the quartiles, are finite: the ranks and the
    weights are exact, every rounding is monotone, and a quarter, a half
    or three quarters of a rounded difference, rounded, never exceed the
    difference.  (An array has fewer than [2^32] elements.) *)
Theorem getQuartiles_ordered_binary64 (data : loc) (h : heap float) (arr : list float) :
  h !! data = Some arr → arr ≠ [] → (Z.of_nat (length arr) < 2 ^ 32)%Z →
  Forall not_NaN arr →
  let sorted := sort_by (λ a b, a - b) arr in
  Forall (λ c, ∀ b next,
      sorted !! (c * (length arr - 1) / 4)%nat = Some b →
      sorted !! S (c * (length arr - 1) / 4) = Some next →
      is_finite (next - b)%float = true) [1; 2; 3]%nat →
  ∃ min q1 median q3 max,
    (getQuartiles (Some data) h).1
    = Summary.make (Some min) (Some q1) (Some median) (Some q3) (Some max)
    ∧ (min <=? q1)%float = true ∧ (q1 <=? median)%float = true
    ∧ (median <=? q3)%float = true ∧ (q3 <=? max)%float = true.
Proof. apply quartiles_ordered. Qed.

(** X29.  In particular the summary is in order for every non-empty array
    of numbers no two of which differ by more than the greatest finite
    number: [b - a] is finite for all elements [a] and [b], so that all are
    finite and [max - min] does not overflow. *)
Theorem getQuartiles_ordered_range (data : loc) (h : heap float) (arr : list float) :
  h !! data = Some arr → arr ≠ [] → (Z.of_nat (length arr) < 2 ^ 32)%Z →
  Forall (λ a, Forall (λ b, is_finite (b - a)%float = true) arr) arr →
  ∃ min q1 median q3 max,
    (getQuartiles (Some data) h).1
    = Summary.make (Some min) (Some q1) (Some median) (Some q3) (Some max)
    ∧ (min <=? q1)%float = true ∧ (q1 <=? median)%float = true
    ∧ (median <=? q3)%float = true ∧ (q3 <=? max)%float = true.
Proof.
  intros Hd Hne Hlen Hdiff.
  assert (∀ a b, a ∈ arr → b ∈ arr → is_finite (b - a)%float = true) as Hdiff'.
  { intros a b Ha Hb. rewrite Forall_forall in Hdiff. specialize (Hdiff a Ha).
    rewrite Forall_forall in Hdiff. by apply Hdiff. }
  pose proof (sort_by_Permutation (λ a b, a - b) arr) as Hp.
  apply (quartiles_ordered data h arr); try done.
  - apply Forall_forall. intros a Ha. apply finite_not_NaN.
    by destruct (sub_finite a a (Hdiff' a a Ha Ha)).
  - apply Forall_forall. intros c _ b next Hb Hnext.
    apply Hdiff'; rewrite <-Hp; by eapply list_elem_of_lookup_2.
Qed.
End JS_ordered.

(** ** The ranges of the results, in binary64 *)

Section JS_power.
Variable approx : float → float → float.
Let J := js_number approx.
Local Existing Instance J.
Local Open Scope float_scope.

End JS_power.

Section JS_ranges.
Variable approx : float → float → float.
Let J := js_number approx.
Local Existing Instance J.
Local Open Scope float_scope.

End JS_ranges.

(** ** The same sample twice, in binary64: the statistic *)

Section JS_same_sample_t.
Variable approx : float → float → float.
Hypothesis approx_one : ∀ e, is_finite e = true → approx 1 e = 1%float.
Let J := js_number approx.
Local Existing Instance J.
Local Open Scope float_scope.

Lemma sub_diag_not_finite (x : float) : is_finite x = false → is_nan (x - x) = true.
Proof.
  rewrite is_finite_class, is_nan_class. unfold Binary64.class_of. rewrite sub_spec.
  by destruct (Prim2SF x) as [[]|[]| |[] m e].
Qed.

Lemma abs_div_nan (x y : float) : is_nan x = true → abs (x / y) = nan.
Proof.
  rewrite is_nan_class. unfold Binary64.class_of. intros Hx.
  apply Prim2SF_inj. rewrite abs_spec, div_spec.
  by destruct (Prim2SF x) as [[]|[]| |[] m e].
Qed.

Lemma abs_zero_div_nan (y : float) : is_nan y || is_zero y = true → abs (0 / y) = nan.
Proof.
  rewrite is_nan_class, is_zero_class. unfold Binary64.class_of. intros Hy.
  apply Prim2SF_inj. rewrite abs_spec, div_spec. change (Prim2SF 0) with (S754_zero false).
  by destruct (Prim2SF y) as [[]|[]| |[] m e].
Qed.

(** C5, amended.  On JavaScript numbers, for a sample of at least two
    elements
    passed as both groups: [t] is [0] when the mean is finite and the
    standard error is neither zero nor [NaN], and [NaN] otherwise; and [p]
    is [1] when moreover [df] is neither zero nor [NaN] and [(df + 1) / 2]
    is finite, for an engine whose [Math.pow(1, y)] is [1]. *)
Theorem calculateStats_same_sample_binary64 (s : list float) :
  (2 ≤ length s)%nat →
  let m := calculateMean s in
  let v := calculateVariance s m in
  let n := of_length (length s) in
  let se := welch_se v v n n in
  let df := welch_df v v n n in
  calculateStats s s !! "t"
  = Some (if is_finite m && negb (is_nan se) && negb (is_zero se) then 0 else nan)
  ∧ (is_finite m = true → is_nan se = false → is_zero se = false →
     is_nan df = false → is_zero df = false → is_finite ((df + 1) / 2) = true →
     calculateStats s s !! "p" = Some 1).
Proof.
  intros Hn. cbv zeta. rewrite calculateStats_past_guard by done. cbv zeta.
  rewrite lookup_insert_eq, lookup_insert_ne, lookup_insert_eq by done.
  set (m := calculateMean s). set (v := calculateVariance s m).
  set (n := of_length (length s)). set (se := welch_se v v n n). set (df := welch_df v v n n).
  unfold welch_t, welch_p.
  change (@num_sub _ J) with PrimFloat.sub. change (@num_div _ J) with PrimFloat.div.
  change (@num_add _ J) with PrimFloat.add. change (@num_mul _ J) with PrimFloat.mul.
  change (@Math_abs _ J) with PrimFloat.abs.
  change (@Math_pow _ J) with (Binary64.pow approx).
  change (@number _ J 1%Q) with 1%float. change (@number _ J 2%Q) with 2%float.
  split.
  - f_equal. destruct (is_finite m) eqn:Hm; cbn [andb].
    + rewrite float_sub_diag by done.
      destruct (is_nan se) eqn:Hse1; cbn [negb andb]; [by apply abs_zero_div_nan; rewrite Hse1|].
      destruct (is_zero se) eqn:Hse2; cbn [negb];
        [by apply abs_zero_div_nan; rewrite Hse1, Hse2|].
      by apply abs_zero_div.
    + by apply abs_div_nan, sub_diag_not_finite.
  - intros Hm Hse1 Hse2 Hdf1 Hdf2 He. f_equal.
    rewrite float_sub_diag by done. rewrite abs_zero_div by done.
    change (0 * 0)%float with 0%float.
    rewrite one_plus_zero_div by done.
    rewrite pow_one by auto. done.
Qed.
End JS_same_sample_t.

(** ** The formulas of the test, in binary64 *)

Section JS_formulas.
Variable approx : float → float → float.
Let J := js_number approx.
Local Existing Instance J.
Local Open Scope float_scope.

End JS_formulas.

Section JS_box.
Variable approx : float → float → float.
Let J : Number float := js_number approx.
Local Existing Instance J.
Local Open Scope num_scope.

(** X27.  On JavaScript numbers, for the summary of a non-empty array of
    finite numbers, [CustomBoxShape] returns [null] exactly when all the
    observations are equal ([a === b] for any two of them): the range
    [max - min] of two distinct numbers never rounds to zero, so a sample
    with two distinct values always gets its box. *)
Theorem CustomBoxShape_drawn (data : loc) (h : heap float) (arr : list float)
    (x y width height : float) (name : string) (fill : option string) :
  h !! data = Some arr → arr ≠ [] → Forall (λ a, is_finite a = true) arr →
  let q := (getQuartiles (Some data) h).1 in
  CustomBoxShape (Props.make x y width height
                    (Some (Chart.make name q (Summary.min q, Summary.max q))) fill) = None
  ↔ ∀ a b, a ∈ arr → b ∈ arr → (a =? b)%float = true.
Proof.
  intros Hd Hne Hfin. cbv zeta.
  assert (Forall not_NaN arr) as Hnan
    by (eapply Forall_impl; [exact Hfin|]; intros ?; apply finite_not_NaN).
  destruct (sorted_summary approx data h arr Hd Hne Hnan)
    as (sorted & lo & hi & _ & Hp & _ & Hlo & Hhi & Hin_lo & Hin_hi & Hends).
  unfold J in *. unfold CustomBoxShape.
  cbn [Props.payload Chart.summary]. rewrite Hlo, Hhi.
  change (ToNumber (Some hi)) with hi.
  change (strict_equal (hi - lo) (number 0)) with (hi - lo =? 0)%float.
  rewrite Forall_forall in Hfin, Hnan, Hends.
  rewrite sub_eqb_zero by auto.
  destruct (Z.eqb_spec (float_units lo) (float_units hi)) as [Heq|Hneq].
  - split; [intros _|done]. intros a b Ha Hb.
    rewrite eqb_units by auto. apply Z.eqb_eq.
    destruct (Hends a Ha) as [Ha1 Ha2]. destruct (Hends b Hb) as [Hb1 Hb2].
    rewrite leb_units in Ha1, Ha2, Hb1, Hb2 by auto.
    apply Z.leb_le in Ha1, Ha2, Hb1, Hb2. lia.
  - split; [done|]. intros Hall. exfalso. apply Hneq.
    specialize (Hall lo hi Hin_lo Hin_hi). rewrite eqb_units in Hall by auto.
    by apply Z.eqb_eq.
Qed.
End JS_box.

Section Parsed_summary.
Variable approx : float → float → float.
Let J : Number float := js_number approx.
Local Existing Instance J.

(** X28.  From the text to the summary.  Whatever the text, each sample
    [parseCSV] extracts for a metric has, when it is not empty, a summary
    whose [min] and [max] are two of its observations with
    [min <= x <= max] for every observation [x], infinite values
    included: [parseVal] lets no [NaN] through, and [NaN] is the only
    number that upsets the sort. *)
Theorem parseCSV_summary_bounds (csvText : string) (metric : string) (idx1 idx2 : nat)
    (m : Metric) (group : list float) (data : loc) (h : heap float) :
  (metric, idx1, idx2) ∈ columns → parseCSV csvText !! metric = Some m →
  group = group1 m ∨ group = group2 m → group ≠ [] → h !! data = Some group →
  ∃ lo hi,
    Summary.min (getQuartiles (Some data) h).1 = Some lo
    ∧ Summary.max (getQuartiles (Some data) h).1 = Some hi
    ∧ lo ∈ group ∧ hi ∈ group
    ∧ Forall (λ x, (lo <=? x)%float = true ∧ (x <=? hi)%float = true) group.
Proof.
  intros Hc Hm Hg Hne Hd.
  rewrite (parseCSV_metric csvText metric idx1 idx2 Hc) in Hm. injection Hm as <-.
  cbn [group1 group2] in Hg.
  assert (Forall not_NaN group) as Hnan.
  { destruct Hg as [-> | ->]; apply Forall_bind, Forall_forall; intros row _;
      apply contribution_not_NaN. }
  destruct (sorted_summary approx data h group Hd Hne Hnan)
    as (sorted & lo & hi & _ & _ & _ & Hlo & Hhi & Hin_lo & Hin_hi & Hends).
  by exists lo, hi.
Qed.
End Parsed_summary.

Section JS_components.
Variable approx : float → float → float.
Let J := js_number approx.
Local Existing Instance J.
Local Open Scope string_scope.

(** X17.  On JavaScript numbers, for the summary of a sample whose
    observations are all the same finite number [c], [min] and [max] are
    [c], the range is zero and [CustomBoxShape] draws nothing. *)
Theorem CustomBoxShape_constant_sample (h : heap float) (data : loc) (c : float) (n : nat)
    (x y width height : float) (name : string) (fill : option string) :
  is_finite c = true → h !! data = Some (replicate (S n) c) →
  let q := (getQuartiles (Some data) h).1 in
  Summary.min q = Some c ∧ Summary.max q = Some c
  ∧ CustomBoxShape (Props.make x y width height
                      (Some (Chart.make name q (Summary.min q, Summary.max q))) fill)
    = None.
Proof.
  intros Hc Hd. cbv zeta.
  rewrite (getQuartiles_nonempty data h (replicate (S n) c)) by done. cbn [fst].
  rewrite sort_by_replicate.
  2:{ change (num_pos (c - c)%num) with (0 <? c - c)%float. by rewrite float_sub_diag. }
  unfold summary_of. rewrite length_replicate.
  replace (S n - 1)%nat with n by lia.
  assert (replicate (S n) c !! 0%nat = Some c) as -> by done.
  assert (replicate (S n) c !! n = Some c) as -> by (apply lookup_replicate_2; lia).
  unfold CustomBoxShape.
  cbn [Props.payload Chart.summary Summary.min Summary.max].
  change (ToNumber (Some c)) with c.
  change (c - c)%num with (c - c)%float. by rewrite float_sub_diag.
Qed.

Lemma MetricCard_throws (title : string) (data : Data.t) (unit : string)
    (h : heap float) (group1 group2 : list float) :
  h !! Data.group1 data = Some group1 → h !! Data.group2 data = Some group2 →
  group1 ≠ [] → group2 ≠ [] → (length group1 = 1 ∨ length group2 = 1)%nat →
  (MetricCard approx title (Some data) unit h).1 = Throw TypeError.
Proof.
  intros Hg1 Hg2 H1 H2 Hone. unfold MetricCard.
  assert (default [] (h !! Data.group1 data) = group1) as -> by (by rewrite Hg1).
  assert (default [] (h !! Data.group2 data) = group2) as -> by (by rewrite Hg2).
  destruct (decide _) as [Hz|_].
  { destruct Hz as [Hz|Hz]; apply length_zero_iff_nil in Hz; done. }
  rewrite calculateStats_guard by lia.
  destruct (getQuartiles (Some (Data.group1 data)) h) as [q1 h1].
  destruct (getQuartiles (Some (Data.group2 data)) h1) as [q2 h2].
  done.
Qed.

(** X18.  [MetricCard] returns [null], and leaves the store as it is, when
    a group is empty; when both groups have an element and one of them has
    exactly one, it throws a [TypeError]: [calculateStats] then returns
    [{ p: 1, t: 0 }], without [m1], and the card reads [stats.m1.toFixed(2)]. *)
Theorem MetricCard_short_group (title : string) (data : Data.t) (unit : string)
    (h : heap float) :
  let group1 := default [] (h !! Data.group1 data) in
  let group2 := default [] (h !! Data.group2 data) in
  (group1 = [] ∨ group2 = [] →
     MetricCard approx title (Some data) unit h = (Return None, h))
  ∧ (group1 ≠ [] → group2 ≠ [] → (length group1 = 1 ∨ length group2 = 1)%nat →
     (MetricCard approx title (Some data) unit h).1 = Throw TypeError).
Proof.
  cbv zeta. unfold MetricCard. split.
  - intros Hempty. destruct (decide _) as [_|Hn]; [done|].
    exfalso. apply Hn. destruct Hempty as [-> | ->]; auto.
  - intros H1 H2 Hone. destruct (decide _) as [Hz|_].
    { destruct Hz as [Hz|Hz]; apply length_zero_iff_nil in Hz; done. }
    rewrite calculateStats_guard by lia.
    destruct (getQuartiles (Some (Data.group1 data)) h) as [q1 h1].
    destruct (getQuartiles (Some (Data.group2 data)) h1) as [q2 h2].
    done.
Qed.

(** X19.  [MetricCard] leaves every array of the store as it was, its two
    groups included, whatever it returns or throws: it only adds the
    sorted copies that [getQuartiles] makes. *)
Theorem MetricCard_frame (title : string) (data : option Data.t) (unit : string)
    (h : heap float) :
  h ⊆ (MetricCard approx title data unit h).2.
Proof.
  unfold MetricCard. destruct data as [data|]; [|done].
  destruct (decide _); [done|].
  pose proof (getQuartiles_extends (Some (Data.group1 data)) h) as H1.
  destruct (getQuartiles (Some (Data.group1 data)) h) as [q1 h1].
  pose proof (getQuartiles_extends (Some (Data.group2 data)) h1) as H2.
  destruct (getQuartiles (Some (Data.group2 data)) h1) as [q2 h2].
  simpl in *. by etrans.
Qed.

Lemma calculateStats_lookups (group1 group2 : list float) :
  (2 ≤ length group1)%nat → (2 ≤ length group2)%nat →
  ∃ p m1 m2,
    calculateStats group1 group2 !! "p" = Some p
    ∧ calculateStats group1 group2 !! "m1" = Some m1
    ∧ calculateStats group1 group2 !! "m2" = Some m2.
Proof.
  intros H1 H2. rewrite calculateStats_past_guard by done. cbv zeta.
  eexists _, _, _.
  split; [by rewrite lookup_insert_ne, lookup_insert_eq by done|].
  split; [by rewrite !lookup_insert_ne, lookup_insert_eq by done|].
  by rewrite !lookup_insert_ne, lookup_singleton_eq by done.
Qed.

(** X20.  On two groups of at least two elements (and fewer than [2^32],
    as every JavaScript array), [MetricCard] returns a card and throws
    nothing: the card is flagged significant, and reads [Significant],
    exactly when [p < 0.05]; its p-value is [p.toFixed(4)]; when [p] is
    [NaN] it reads [NaN] and [No Difference]; its chart and its axis are
    those of the two summaries. *)
Theorem MetricCard_card (title : string) (data : Data.t) (unit : string) (h : heap float) :
  let group1 := default [] (h !! Data.group1 data) in
  let group2 := default [] (h !! Data.group2 data) in
  let q1 := getQuartiles (Some (Data.group1 data)) h in
  let q2 := getQuartiles (Some (Data.group2 data)) q1.2 in
  (2 ≤ length group1)%nat → (Z.of_nat (length group1) < 2 ^ 32)%Z →
  (2 ≤ length group2)%nat → (Z.of_nat (length group2) < 2 ^ 32)%Z →
  ∃ p card,
    calculateStats group1 group2 !! "p" = Some p
    ∧ (MetricCard approx title (Some data) unit h).1 = Return (Some card)
    ∧ Card.isSignificant card = num_lt p (number 0.05)
    ∧ Card.verdict card
      = (if num_lt p (number 0.05) then "Significant" else "No Difference")
    ∧ Numeral.toFixed p 4 = Return (Card.p_value card)
    ∧ (is_nan p = true → Card.p_value card = "NaN" ∧ Card.verdict card = "No Difference")
    ∧ Card.chart card = chartData q1.1 q2.1
    ∧ Card.domain card = axis_domain q1.1 q2.1.
Proof.
  cbv zeta. intros H1 Hb1 H2 Hb2.
  assert (∃ median1,
    Summary.median (getQuartiles (Some (Data.group1 data)) h).1 = Some median1)
    as [median1 Hm1].
  { destruct (h !! Data.group1 data) as [group1|] eqn:Hg1; [|simpl in H1; lia].
    simpl in H1, Hb1.
    destruct (getQuartiles_defined approx _ h group1 Hg1)
      as (? & ? & m & ? & ? & Hq); [intros ->; simpl in H1; lia|done|].
    exists m. unfold J. by rewrite Hq. }
  assert (∃ median2,
    Summary.median (getQuartiles (Some (Data.group2 data))
                      (getQuartiles (Some (Data.group1 data)) h).2).1 = Some median2)
    as [median2 Hm2].
  { destruct (h !! Data.group2 data) as [group2|] eqn:Hg2; [|simpl in H2; lia].
    simpl in H2, Hb2. unfold J.
    pose proof (lookup_weaken _ _ _ _ Hg2
                  (getQuartiles_extends (N := js_number approx) (Some (Data.group1 data)) h))
      as Hg2'.
    destruct (getQuartiles_defined approx _ _ group2 Hg2')
      as (? & ? & m & ? & ? & Hq); [intros ->; simpl in H2; lia|done|].
    exists m. by rewrite Hq. }
  unfold MetricCard.
  destruct (decide _) as [Hz|_]; [lia|].
  destruct (calculateStats_lookups _ _ H1 H2) as (p & m1 & m2 & Hp & Hs1 & Hs2).
  unfold J in *. rewrite Hp, Hs1, Hs2.
  destruct (getQuartiles (Some (Data.group1 data)) h) as [q1 h1]. cbn [fst snd] in *.
  destruct (getQuartiles (Some (Data.group2 data)) h1) as [q2 h2]. cbn [fst snd] in *.
  rewrite Hm1, Hm2.
  eexists _, _. split; [reflexivity|].
  split; [reflexivity|].
  cbn [Card.isSignificant Card.verdict Card.p_value Card.chart Card.domain].
  split; [reflexivity|]. split; [reflexivity|]. split; [reflexivity|].
  split; [|done].
  intros Hnan. apply is_nan_eq in Hnan. by rewrite Hnan.
Qed.

(** X21.  From the text to the card.  For a metric of [parseCSV] whose two
    samples are the groups of the card: a text without a row to read gives
    no card ([null]), and a text with exactly one row to read, in which
    both columns of the metric parse, makes [MetricCard] throw a
    [TypeError]. *)
Theorem MetricCard_few_rows (csvText : string) (metric : string) (idx1 idx2 : nat)
    (m : Metric) (title unit : string) (data : Data.t) (h : heap float) :
  (metric, idx1, idx2) ∈ columns →
  parseCSV csvText !! metric = Some m →
  h !! Data.group1 data = Some (group1 m) → h !! Data.group2 data = Some (group2 m) →
  (data_rows csvText = [] →
     MetricCard approx title (Some data) unit h = (Return None, h))
  ∧ (∀ row, data_rows csvText = [row] →
       isNaN (parseFloat (row !! idx1)) = false →
       isNaN (parseFloat (row !! idx2)) = false →
       (MetricCard approx title (Some data) unit h).1 = Throw TypeError).
Proof.
  intros Hc Hm Hg1 Hg2.
  rewrite (parseCSV_metric csvText metric idx1 idx2 Hc) in Hm. injection Hm as <-.
  cbn [group1 group2] in *. split.
  - intros Hrows. rewrite Hrows in *. unfold MetricCard. rewrite Hg1. done.
  - intros row Hrows Hv1 Hv2. rewrite Hrows in *.
    cbn [mbind list_bind] in Hg1, Hg2.
    rewrite app_nil_r, contribution_parsed in Hg1, Hg2 by done.
    eapply MetricCard_throws; [done.. | by left].
Qed.
End JS_components.

(** ** Instances of the theorems *)

Section Instances.
Import Exact.
Local Open Scope string_scope.

Lemma calculateStats_degenerate_witness :
  (length [1%float] < 2 ∨ length [1; 2]%float < 2)%nat
  ∧ calculateStats (N := engine) [1%float] [1; 2]%float
    = {[ "p" := 1%float; "t" := 0%float ]}.
Proof.
  split; [left; simpl; lia|].
  apply (calculateStats_degenerate Binary64.pow_reference). left; simpl; lia.
Defined.

Lemma calculateStats_exposes_witness :
  let group1 := [1; 2]%float in
  let group2 := [3; 5]%float in
  let result := calculateStats (N := engine) group1 group2 in
  ((2 ≤ length group1)%nat ∧ (2 ≤ length group2)%nat)
  ∧ dom result = list_to_set stats_fields
  ∧ result !! "m1" = Some 1.5%float ∧ result !! "m2" = Some 4%float.
Proof.
  cbv zeta. split; [simpl; lia|].
  destruct (calculateStats_exposes Binary64.pow_reference [1; 2]%float [3; 5]%float)
    as (Hdom & Hm1 & Hm2 & _); [simpl; lia..|].
  split; [exact Hdom|]. split; [exact Hm1 | exact Hm2].
Defined.

Lemma calculateStats_welch_witness :
  let xs := [1; 2]%R in
  let ys := [3; 5]%R in
  ((2 ≤ length xs)%nat ∧ (2 ≤ length ys)%nat)
  ∧ stats_df (Real <$> xs) (Real <$> ys)
    = Spec.degrees_of_freedom
        (Spec.sample_variance (Real <$> xs) (Spec.mean (Real <$> xs)))
        (Spec.sample_variance (Real <$> ys) (Spec.mean (Real <$> ys)))
        (Spec.size (Real <$> xs)) (Spec.size (Real <$> ys)).
Proof.
  cbv zeta. split; [simpl; lia|].
  apply (calculateStats_welch [1; 2]%R [3; 5]%R); simpl; lia.
Defined.

Lemma not_constant_1_2 : ¬ constant [1; 2]%R.
Proof.
  intros Hc. specialize (Hc 1%R 2%R). 
  assert (1 = 2)%R as Heq; [|lra].
  apply Hc; [left | right; left].
Qed.


Lemma calculateStats_ranges_witness :
  let xs := [1; 2]%R in
  let ys := [3; 5]%R in
  ((2 ≤ length xs)%nat ∧ (2 ≤ length ys)%nat ∧ ¬ (constant xs ∧ constant ys))
  ∧ ∃ t df p : R,
      calculateStats (Real <$> xs) (Real <$> ys) !! "t" = Some (Real t)
      ∧ stats_df (Real <$> xs) (Real <$> ys) = Real df
      ∧ calculateStats (Real <$> xs) (Real <$> ys) !! "p" = Some (Real p)
      ∧ (0 <= t ∧ 0 < df ∧ 0 < p <= 1)%R.
Proof.
  cbv zeta.
  assert (¬ (constant [1; 2]%R ∧ constant [3; 5]%R)) as Hc.
  { intros [Hc _]. by apply not_constant_1_2. }
  split; [split; [simpl; lia | split; [simpl; lia | exact Hc]]|].
  apply (calculateStats_ranges [1; 2]%R [3; 5]%R); [simpl; lia.. | exact Hc].
Defined.

Lemma calculateStats_same_sample_witness :
  let xs := [1; 2]%R in
  ((2 ≤ length xs)%nat ∧ ¬ constant xs)
  ∧ calculateStats (Real <$> xs) (Real <$> xs) !! "t" = Some (Real 0)
  ∧ calculateStats (Real <$> xs) (Real <$> xs) !! "p" = Some (Real 1).
Proof.
  cbv zeta. split; [split; [simpl; lia | exact not_constant_1_2]|].
  apply (calculateStats_same_sample [1; 2]%R); [simpl; lia | exact not_constant_1_2].
Defined.

Lemma getQuartiles_ordered_witness :
  let xs := [3; 1; 2]%R in
  let h : heap real := {[ 1%positive := Real <$> xs ]} in
  (h !! 1%positive = Some (Real <$> xs) ∧ xs ≠ [])
  ∧ ∃ min q1 median q3 max : R,
      (getQuartiles (Some 1%positive) h).1
      = Summary.make (Some (Real min)) (Some (Real q1)) (Some (Real median))
          (Some (Real q3)) (Some (Real max))
      ∧ (min <= q1 ∧ q1 <= median ∧ median <= q3 ∧ q3 <= max)%R.
Proof.
  cbv zeta. split; [split; [apply lookup_singleton_eq | done]|].
  apply (getQuartiles_ordered _ 1%positive [3; 1; 2]%R);
    [apply lookup_singleton_eq | done].
Defined.


Lemma calculateStats_same_sample_js_witness :
  calculateStats (N := engine) [1; 2]%float [1; 2]%float
  = {[ "t" := 0%float; "p" := 1%float; "m1" := 1.5%float; "m2" := 1.5%float ]}.
Proof.
  apply (calculateStats_same_sample_js Binary64.pow_reference pow_reference_one
           [1; 2]%float); [simpl; lia | by vm_compute..].
Defined.

Lemma parseCSV_short_row_witness :
  let line := ",42,43,9,8,46" in
  (Text.occurs newline line = false
   ∧ (5 ≤ length (Text.split newline preamble))%nat
   ∧ (length (Text.split "," line) < 10)%nat)
  ∧ parseCSV (preamble ++ String newline line) = parseCSV preamble.
Proof.
  cbv zeta.
  split; [split; [reflexivity | split; vm_compute; lia]|].
  apply (parseCSV_short_row preamble ",42,43,9,8,46");
    [reflexivity | vm_compute; lia | vm_compute; lia].
Defined.

Lemma calculateStats_not_finite_witness :
  let group1 := [1; infinity]%float in
  let group2 := [1; 2]%float in
  Exists (λ x, is_finite x = false) (group1 ++ group2)%list
  ∧ calculateStats (N := engine) group1 group2 !! "t" = Some nan
  ∧ calculateStats (N := engine) group1 group2 !! "p" = Some nan.
Proof.
  cbv zeta.
  assert (Exists (λ x, is_finite x = false) ([1; infinity] ++ [1; 2])%float%list) as Hex.
  { apply Exists_cons_tl, Exists_cons_hd. reflexivity. }
  split; [exact Hex|].
  apply (calculateStats_not_finite Binary64.pow_reference [1; infinity]%float [1; 2]%float);
    [simpl; lia | simpl; lia | exact Hex].
Defined.

Lemma calculateStats_zero_variances_witness :
  let group1 := [1; 1]%float in
  let group2 := [5; 5]%float in
  (is_zero (calculateVariance (N := engine) group1 (calculateMean (N := engine) group1)) = true
   ∧ is_zero (calculateVariance (N := engine) group2 (calculateMean (N := engine) group2)) = true)
  ∧ calculateStats (N := engine) group1 group2 !! "p" = Some nan.
Proof.
  cbv zeta. split; [split; reflexivity|].
  destruct (calculateStats_zero_variances Binary64.pow_reference [1; 1]%float [5; 5]%float)
    as [Hp _]; [simpl; lia | simpl; lia | reflexivity | reflexivity | exact Hp].
Defined.



Lemma getQuartiles_observations_witness :
  let arr := [3; 1; 2]%float in
  let h : heap float := {[ 1%positive := arr ]} in
  (h !! 1%positive = Some arr ∧ arr ≠ [])
  ∧ ∃ sorted lo hi,
      sorted ≡ₚ arr
      ∧ (getQuartiles (N := engine) (Some 1%positive) h).2 = <[fresh (dom h) := sorted]> h
      ∧ Summary.min (getQuartiles (N := engine) (Some 1%positive) h).1 = Some lo
      ∧ Summary.max (getQuartiles (N := engine) (Some 1%positive) h).1 = Some hi
      ∧ head sorted = Some lo ∧ last sorted = Some hi
      ∧ lo ∈ arr ∧ hi ∈ arr.
Proof.
  cbv zeta. split; [split; [apply lookup_singleton_eq | done]|].
  apply (getQuartiles_observations (N := engine) 1%positive _ [3; 1; 2]%float);
    [apply lookup_singleton_eq | done].
Defined.



Lemma parseCSV_header_witness :
  let header1 := [""; ""; ""; ""; "Model,ICONN PLUS,RAPID"] in
  let header2 := ["a"; "b"; "c"; "d"; "e"] in
  let body := ",42,43,9,8,46,44,41,41,,4.309,4.433" in
  (length header1 = 5%nat ∧ length header2 = 5%nat)
  ∧ parseCSV (unlines header1 ++ body) = parseCSV (unlines header2 ++ body).
Proof.
  cbv zeta. split; [split; reflexivity|].
  apply (parseCSV_header [""; ""; ""; ""; "Model,ICONN PLUS,RAPID"] ["a"; "b"; "c"; "d"; "e"]);
    [reflexivity | reflexivity | by repeat constructor | by repeat constructor].
Defined.

Lemma parseCSV_no_rows_witness :
  data_rows "" = [] ∧ parseCSV "" = parsed_init.
Proof. split; [reflexivity | apply (parseCSV_no_rows ""); reflexivity]. Defined.



Lemma CustomBoxShape_constant_sample_witness :
  let h : heap float := {[ 1%positive := [5; 5; 5]%float ]} in
  let q := (getQuartiles (N := engine) (Some 1%positive) h).1 in
  is_finite 5 = true
  ∧ CustomBoxShape (N := engine)
      (Props.make 100 20 60 200 (Some (Chart.make "RAPID" q (Summary.min q, Summary.max q)))
         None)%float
    = None.
Proof.
  cbv zeta. split; [reflexivity|].
  destruct (CustomBoxShape_constant_sample Binary64.pow_reference
              {[ 1%positive := [5; 5; 5]%float ]} 1%positive 5%float 2
              100%float 20%float 60%float 200%float "RAPID" None)
    as (_ & _ & Hnone); [reflexivity | apply lookup_singleton_eq | exact Hnone].
Defined.

Lemma MetricCard_card_witness :
  let h : heap float :=
    {[ 1%positive := [42; 42; 43; 42; 43]%float; 2%positive := [43; 43; 42; 42; 41]%float ]} in
  ∃ card,
    (MetricCard Binary64.pow_reference "Ball Size" (Some (Data.make 1%positive 2%positive "um")) "um" h).1
    = Return (Some card)
    ∧ Card.verdict card = "No Difference".
Proof.
  cbv zeta.
  destruct (MetricCard_card Binary64.pow_reference "Ball Size" (Data.make 1%positive 2%positive "um") "um"
              {[ 1%positive := [42; 42; 43; 42; 43]%float;
                 2%positive := [43; 43; 42; 42; 41]%float ]})
    as (p & card & Hp & Hcard & _ & Hverdict & _);
    [vm_compute; lia | by vm_compute | vm_compute; lia | by vm_compute |].
  exists card. split; [exact Hcard|]. rewrite Hverdict.
  vm_compute in Hp. injection Hp as <-. by vm_compute.
Defined.

Lemma MetricCard_few_rows_witness :
  let csvText := preamble ++ String newline ",42,43,9,8,46,44,41,41,,4.309,4.433" in
  let h : heap float := {[ 1%positive := [42]%float; 2%positive := [43]%float ]} in
  data_rows csvText
  = [[""; "42"; "43"; "9"; "8"; "46"; "44"; "41"; "41"; ""; "4.309"; "4.433"]]
  ∧ (MetricCard Binary64.pow_reference "Ball Size" (Some (Data.make 1%positive 2%positive "um")) "um" h).1
    = Throw TypeError.
Proof.
  cbv zeta.
  assert (data_rows (preamble ++ String newline ",42,43,9,8,46,44,41,41,,4.309,4.433")
          = [[""; "42"; "43"; "9"; "8"; "46"; "44"; "41"; "41"; ""; "4.309"; "4.433"]])
    as Hrows by reflexivity.
  split; [exact Hrows|].
  destruct (MetricCard_few_rows Binary64.pow_reference
              (preamble ++ String newline ",42,43,9,8,46,44,41,41,,4.309,4.433")
              "Ball Size" 1 2 {| group1 := [42]%float; group2 := [43]%float; unit := "um" |}
              "Ball Size" "um" (Data.make 1%positive 2%positive "um")
              {[ 1%positive := [42]%float; 2%positive := [43]%float ]})
    as [_ Hthrow];
    [ unfold columns; left | by vm_compute | by rewrite lookup_insert_eq
    | by rewrite lookup_insert_ne, lookup_singleton_eq |].
  apply (Hthrow _ Hrows); reflexivity.
Defined.

Lemma getQuartiles_interpolation_witness :
  let arr := [3; 1; 2; 7]%float in
  let h : heap float := {[ 1%positive := arr ]} in
  Summary.q1 (getQuartiles (N := engine) (Some 1%positive) h).1 = Some 1.75%float
  ∧ Summary.median (getQuartiles (N := engine) (Some 1%positive) h).1 = Some 2.5%float
  ∧ Summary.q3 (getQuartiles (N := engine) (Some 1%positive) h).1 = Some 4%float.
Proof.
  cbv zeta.
  pose proof (getQuartiles_interpolation Binary64.pow_reference 1%positive
                {[ 1%positive := [3; 1; 2; 7]%float ]} [3; 1; 2; 7]%float
                (lookup_singleton_eq _ _) ltac:(simpl; lia) ltac:(by vm_compute)
                ltac:(by repeat constructor)) as H.
  cbv zeta in H.
  apply Forall_cons in H as [(b1 & n1 & Hb1 & Hn1 & H1) H].
  apply Forall_cons in H as [(b2 & n2 & Hb2 & Hn2 & H2) H].
  apply Forall_cons in H as [(b3 & n3 & Hb3 & Hn3 & H3) _].
  vm_compute in Hb1, Hn1, Hb2, Hn2, Hb3, Hn3.
  injection Hb1 as <-. injection Hn1 as <-. injection Hb2 as <-. injection Hn2 as <-.
  injection Hb3 as <-. injection Hn3 as <-.
  split; [exact (eq_trans H1 eq_refl)|].
  split; [exact (eq_trans H2 eq_refl) | exact (eq_trans H3 eq_refl)].
Defined.

Lemma getQuartiles_single_witness :
  let h : heap float := {[ 1%positive := [nan] ]} in
  (getQuartiles (N := engine) (Some 1%positive) h).1
  = Summary.make (Some nan) (Some nan) (Some nan) (Some nan) (Some nan).
Proof.
  cbv zeta.
  exact (getQuartiles_single Binary64.pow_reference 1%positive _ nan (lookup_singleton_eq _ _)).
Defined.

Lemma parseCSV_ten_fields_witness :
  let csvText := (preamble ++ String newline ",42,43,9,8,46,44,41,41,")%string in
  data_rows csvText = [[EmptyString; "42"; "43"; "9"; "8"; "46"; "44"; "41"; "41"; EmptyString]%string]
  ∧ parseCSV csvText !! "BPT"%string = Some {| group1 := []; group2 := []; unit := "g" |}.
Proof.
  cbv zeta.
  assert (data_rows (preamble ++ String newline ",42,43,9,8,46,44,41,41,")%string
          = [[EmptyString; "42"; "43"; "9"; "8"; "46"; "44"; "41"; "41"; EmptyString]%string])
    as Hrows by reflexivity.
  split; [exact Hrows|].
  apply parseCSV_ten_fields. rewrite Hrows. repeat constructor.
Defined.


Lemma getQuartiles_ascending_witness :
  let arr := [3; infinity; 1; neg_infinity; 2]%float in
  let h : heap float := {[ 1%positive := arr ]} in
  Summary.min (getQuartiles (N := engine) (Some 1%positive) h).1 = Some neg_infinity
  ∧ Summary.max (getQuartiles (N := engine) (Some 1%positive) h).1 = Some infinity
  ∧ ∃ sorted lo hi,
      (getQuartiles (N := engine) (Some 1%positive) h).2 = <[fresh (dom h) := sorted]> h
      ∧ sorted ≡ₚ arr
      ∧ (∀ i j a b, (i ≤ j)%nat → sorted !! i = Some a → sorted !! j = Some b →
           (a <=? b)%float = true)
      ∧ Summary.min (getQuartiles (N := engine) (Some 1%positive) h).1 = Some lo
      ∧ Summary.max (getQuartiles (N := engine) (Some 1%positive) h).1 = Some hi
      ∧ Forall (λ x, (lo <=? x)%float = true ∧ (x <=? hi)%float = true) arr.
Proof.
  cbv zeta. split; [reflexivity|]. split; [reflexivity|].
  apply (getQuartiles_ascending Binary64.pow_reference 1%positive _
           [3; infinity; 1; neg_infinity; 2]%float);
    [apply lookup_singleton_eq | done | by repeat constructor].
Defined.

Lemma CustomBoxShape_drawn_witness :
  let arr := [3; 1; 2]%float in
  let h : heap float := {[ 1%positive := arr ]} in
  let q := (getQuartiles (N := engine) (Some 1%positive) h).1 in
  (3 =? 1)%float = false
  ∧ (CustomBoxShape (N := engine)
       (Props.make 100 20 60 200 (Some (Chart.make "RAPID" q (Summary.min q, Summary.max q)))
          None)%float
     = None
     ↔ ∀ a b : float, a ∈ arr → b ∈ arr → (a =? b)%float = true).
Proof.
  cbv zeta. split; [reflexivity|].
  apply (CustomBoxShape_drawn Binary64.pow_reference 1%positive
           {[ 1%positive := [3; 1; 2]%float ]} [3; 1; 2]%float
           100%float 20%float 60%float 200%float "RAPID" None);
    [apply lookup_singleton_eq | done | by repeat constructor].
Defined.

Lemma parseCSV_summary_bounds_witness :
  let csvText := (preamble ++ String newline ",42,Infinity,9,8,46,44,41,41,,4.309,4.433")%string in
  let h : heap float := {[ 2%positive := [infinity] ]} in
  parseCSV csvText !! "Ball Size"%string
  = Some {| group1 := [42]%float; group2 := [infinity]; unit := "um" |}
  ∧ ∃ lo hi,
      Summary.min (getQuartiles (N := engine) (Some 2%positive) h).1 = Some lo
      ∧ Summary.max (getQuartiles (N := engine) (Some 2%positive) h).1 = Some hi
      ∧ lo ∈ [infinity] ∧ hi ∈ [infinity]
      ∧ Forall (λ x, (lo <=? x)%float = true ∧ (x <=? hi)%float = true) [infinity].
Proof.
  cbv zeta.
  assert (parseCSV (preamble ++ String newline ",42,Infinity,9,8,46,44,41,41,,4.309,4.433")%string
            !! "Ball Size"%string
          = Some {| group1 := [42]%float; group2 := [infinity]; unit := "um" |}) as Hm
    by (by vm_compute).
  split; [exact Hm|].
  apply (parseCSV_summary_bounds Binary64.pow_reference _ "Ball Size" 1 2 _ [infinity]
           2%positive _ ltac:(unfold columns; left) Hm);
    [by right | done | apply lookup_singleton_eq].
Defined.

End Instances.

Section Binary64_instances.
Local Open Scope string_scope.
Local Open Scope float_scope.

Lemma getQuartiles_ordered_binary64_witness :
  let arr := [4; 1; neg_infinity; 3; 2; infinity; 5; 6; 7]%float in
  let h : heap float := {[ 1%positive := arr ]} in
  (getQuartiles (N := engine) (Some 1%positive) h).1
  = Summary.make (Some neg_infinity) (Some 2%float) (Some 4%float) (Some 6%float) (Some infinity)
  ∧ ∃ min q1 median q3 max,
      (getQuartiles (N := engine) (Some 1%positive) h).1
      = Summary.make (Some min) (Some q1) (Some median) (Some q3) (Some max)
      ∧ (min <=? q1)%float = true ∧ (q1 <=? median)%float = true
      ∧ (median <=? q3)%float = true ∧ (q3 <=? max)%float = true.
Proof.
  cbv zeta. split; [reflexivity|].
  apply (getQuartiles_ordered_binary64 Binary64.pow_reference 1%positive _
           [4; 1; neg_infinity; 3; 2; infinity; 5; 6; 7]%float);
    [apply lookup_singleton_eq | done | by vm_compute | by repeat constructor |].
  repeat constructor; intros b next Hb Hnext; vm_compute in Hb, Hnext;
    injection Hb as <-; injection Hnext as <-; reflexivity.
Defined.

Lemma getQuartiles_ordered_range_witness :
  let arr := [1; 2; 3; 4]%float in
  let h : heap float := {[ 1%positive := arr ]} in
  (getQuartiles (N := engine) (Some 1%positive) h).1
  = Summary.make (Some 1%float) (Some 1.75%float) (Some 2.5%float) (Some 3.25%float) (Some 4%float)
  ∧ ∃ min q1 median q3 max,
      (getQuartiles (N := engine) (Some 1%positive) h).1
      = Summary.make (Some min) (Some q1) (Some median) (Some q3) (Some max)
      ∧ (min <=? q1)%float = true ∧ (q1 <=? median)%float = true
      ∧ (median <=? q3)%float = true ∧ (q3 <=? max)%float = true.
Proof.
  cbv zeta. split; [reflexivity|].
  apply (getQuartiles_ordered_range Binary64.pow_reference 1%positive _ [1; 2; 3; 4]%float);
    [apply lookup_singleton_eq | done | by vm_compute | by repeat constructor].
Defined.

Lemma calculateStats_same_sample_binary64_witness :
  calculateStats (N := engine) [1; 2]%float [1; 2]%float !! "t" = Some 0%float
  ∧ calculateStats (N := engine) [1; 2]%float [1; 2]%float !! "p" = Some 1%float.
Proof.
  destruct (calculateStats_same_sample_binary64 Binary64.pow_reference pow_reference_one
              [1; 2]%float ltac:(simpl; lia)) as [Ht Hp].
  split; [exact Ht | by apply Hp].
Defined.
End Binary64_instances.

(** ** Examples: the testable properties of the specification *)

Section Examples.
Local Existing Instance engine.
Local Open Scope float_scope.

Example mean_repeated : calculateMean [7; 7; 7] = 7.
Proof. reflexivity. Qed.

Example variance_1_to_5 : calculateVariance [1; 2; 3; 4; 5] 3 = 2.5.
Proof. reflexivity. Qed.

Example quartiles_1_to_4 :
  (getQuartiles (Some 1%positive) {[ 1%positive := [4; 1; 3; 2] ]}).1
  = Summary.make (Some 1) (Some 1.75) (Some 2.5) (Some 3.25) (Some 4).
Proof. by vm_compute. Qed.

Example quartiles_empty :
  (getQuartiles (Some 1%positive) {[ 1%positive := [] ]}).1 = zeros
  ∧ (getQuartiles None (∅ : heap float)).1 = zeros.
Proof. by vm_compute. Qed.

Example row_ball_size :
  parseCSV (preamble ++ String newline ",42,43,9,8,46,44,41,41,,4.309,4.433")
    !! "Ball Size"
  = Some {| group1 := [42]; group2 := [43]; unit := "um" |}.
Proof. by vm_compute. Qed.

Example row_empty_column :
  parseCSV (preamble ++ String newline ",42,,9,8,46,44,41,41,,4.309,4.433")
    !! "Ball Size"
  = Some {| group1 := [42]; group2 := []; unit := "um" |}.
Proof. by vm_compute. Qed.

Example row_six_fields :
  map_to_list (parseCSV (preamble ++ String newline ",42,43,9,8,46"))
  = map_to_list parsed_init.
Proof. vm_compute. reflexivity. Qed.

Example row_ten_fields :
  parseCSV (preamble ++ String newline ",42,43,9,8,46,44,41,41,") !! "BPT"
  = Some {| group1 := []; group2 := []; unit := "g" |}.
Proof. by vm_compute. Qed.

Example demo_data_sizes :
  (λ m, (length (group1 m.2), length (group2 m.2))) <$> map_to_list (parseCSV dummyCSV)
  = [(22, 22); (22, 22); (22, 22); (22, 22); (22, 22)]%nat.
Proof. vm_compute. reflexivity. Qed.

Example toFixed_examples :
  Numeral.toFixed (number 4.309) 2 = Return "4.31"%string
  ∧ Numeral.toFixed (number 1.005) 2 = Return "1.00"%string
  ∧ Numeral.toFixed (number 0.125) 2 = Return "0.13"%string
  ∧ Numeral.toFixed (number (-0.001)) 2 = Return "-0.00"%string
  ∧ Numeral.toFixed (number 0.00004999) 4 = Return "0.0000"%string
  ∧ Numeral.toFixed 1e21 2 = Return "1e+21"%string
  ∧ Numeral.toFixed nan 4 = Return "NaN"%string
  ∧ Numeral.toFixed neg_infinity 2 = Return "-Infinity"%string
  ∧ Numeral.toFixed 1 101 = Throw RangeError.
Proof. by vm_compute. Qed.

Example toString_examples :
  Numeral.Number_toString (number 0.1 + number 0.2) = "0.30000000000000004"%string
  ∧ Numeral.Number_toString 1e21 = "1e+21"%string
  ∧ Numeral.Number_toString 1e20 = "100000000000000000000"%string
  ∧ Numeral.Number_toString (number 1e-7) = "1e-7"%string
  ∧ Numeral.Number_toString (number (-1234.5678)) = "-1234.5678"%string.
Proof. by vm_compute. Qed.

Example min_max_examples :
  Math_min (-0) 0 = (-0) ∧ Math_max (-0) 0 = 0 ∧ Math_min 1 nan = nan
  ∧ Math_min 3 2 = 2 ∧ Math_max 3 2 = 3.
Proof. by vm_compute. Qed.

Example box_41_to_43 :
  CustomBoxShape
    (Props.make 100 20 60 200
       (Some (Chart.make "RAPID"%string
                (Summary.make (Some 41) (Some 42) (Some 42) (Some 43) (Some 43))
                (Some 41, Some 43)))
       None)
  = Some [ line 130 220 130 20 "#333"%string 1; line 120 20 140 20 "#333"%string 1;
           line 120 220 140 220 "#333"%string 1; rect 100 20 60 100 "#333"%string 1 None 0.8;
           line 100 120 160 120 "#333"%string 2 ].
Proof. by vm_compute. Qed.

Example card_ball_size :
  let h : heap float :=
    {[ 1%positive := [42; 42; 43; 42; 43]; 2%positive := [43; 43; 42; 42; 41] ]} in
  ∃ chart domain,
    (MetricCard Binary64.pow_reference "Ball Size" (Some (Data.make 1%positive 2%positive "um")) "um" h).1
    = Return (Some (Card.make "Ball Size" false "0.8933" "No Difference"
                      "42.40" "42.00" "42.20" "42.00" chart domain "um"
                      ["#93c5fd"; "#fdba74"]%string)).
Proof. eexists _, _. vm_compute. reflexivity. Qed.
End Examples.
